(** * Observatory: the GridMap binning / colour-mix pipeline

    A shallow embedding of [client/src/components/GridMap.tsx]: the two
    DuckDB queries it sends (extent, then binning with GROUP BY and a window
    sum), the loop that scatters the result rows into two [Uint32Array]s, the
    palette mixer [mixSRGB], and the per-cell render loop.

    Number model.  A number is the rational it denotes ([Q]); non-finite
    values are left out.  The pipeline is written twice.  First in exact
    arithmetic, for the properties that do not depend on how a result is
    rounded: which cells are empty, what the counters hold, the bounds of a
    channel, the order of the rows.  Then with the rounding of the two
    floating-point formats involved ([Float32], [Rounded]): binary32 for the
    [FLOAT] columns inside the query engine, binary64 for the numbers of
    JavaScript; the properties that depend on a last digit are stated on
    these.  [Math.round] is [floor (x + 1/2)], [Math.sqrt] is a parameter of
    the render loop.  [Uint32Array] cells are [Z] values kept in [[0, 2^32)],
    written with the wrap-around of the typed array and with out-of-range
    writes ignored.

    Layout.  The embedding of the source comes first, then the in-process
    strategy the specification describes next to it, the tables used as
    examples, and the vocabulary of the statements; the lemmas and theorems
    follow, grouped by the property they establish. *)

From Stdlib Require Import ZArith QArith Qround Qminmax Qabs Qpower Lia Lqa
  Permutation Ascii SpecFloat.
From stdpp Require Import base list strings pretty gmap.

Local Open Scope Z_scope.

(** ** Data model *)

(** One row of [arrow_table]. *)
Record Point := mkPoint { umap_x : Q; umap_y : Q; cat_id : Z }.

(** The row returned by the extent query. *)
Record Extent := mkExtent { xmin : Q; xmax : Q; ymin : Q; ymax : Q }.

(** One row of the binning query's result. *)
Record Row := mkRow { ix : Z; iy : Z; cat : Z; n : Z; n_total : Z }.

Definition RGB : Type := Z * Z * Z.

(** The strings stored in [out]. *)
Inductive Css :=
| rgba_0000            (* "rgba(0,0,0,0)", the initial fill *)
| transparent          (* "transparent" *)
| rgb (r g b : Z).     (* rgbToCss([r, g, b]) *)

Definition PALETTE : list RGB :=
  [ (230, 57, 70); (29, 53, 87); (69, 123, 157); (241, 196, 15) ].

(** ** The extent query *)

Module Sql.

(** [MIN(col)] and [MAX(col)]: NULL over an empty table. *)
Fixpoint MIN (l : list Q) : option Q :=
  match l with
  | [] => None
  | x :: l' => match MIN l' with
               | None => Some x
               | Some m => Some (Qmin x m)
               end
  end.

Fixpoint MAX (l : list Q) : option Q :=
  match l with
  | [] => None
  | x :: l' => match MAX l' with
               | None => Some x
               | Some m => Some (Qmax x m)
               end
  end.

(** [NULLIF(a, b)]. *)
Definition NULLIF (a b : Q) : option Q :=
  if Qeq_bool a b then None else Some a.

(** [u BETWEEN lo AND hi] on rationals and on integers. *)
Definition BETWEEN (u lo hi : Q) : bool := Qle_bool lo u && Qle_bool u hi.
Definition BETWEENZ (u lo hi : Z) : bool := (lo <=? u) && (u <=? hi).

End Sql.

(** [SELECT MIN(umap_x), MAX(umap_x), MIN(umap_y), MAX(umap_y)]; the four
    columns are NULL together, exactly when the table is empty. *)
Definition extent_query (tbl : list Point) : option Extent :=
  match Sql.MIN (map umap_x tbl), Sql.MAX (map umap_x tbl),
        Sql.MIN (map umap_y tbl), Sql.MAX (map umap_y tbl) with
  | Some x0, Some x1, Some y0, Some y1 => Some (mkExtent x0 x1 y0 y1)
  | _, _, _, _ => None
  end.

(** ** The binning query *)

(** [CAST(FLOOR((u - lo) / NULLIF(hi - lo, 0) * N) AS INTEGER)]. *)
Definition bin_expr (u lo hi : Q) (N : Z) : option Z :=
  match Sql.NULLIF (hi - lo) 0 with
  | None => None
  | Some d => Some (Qfloor ((u - lo) / d * inject_Z N))
  end.

(** The [WHERE] clause of the CTE [binned]. *)
Definition binned_where (e : Extent) (p : Point) : bool :=
  negb (Qle_bool (xmax e) (xmin e)) && negb (Qle_bool (ymax e) (ymin e))
  && Sql.BETWEEN (umap_x p) (xmin e) (xmax e)
  && Sql.BETWEEN (umap_y p) (ymin e) (ymax e).

(** A row of [binned]: [(ix, iy, cat_id)], the bins possibly NULL. *)
Definition binned_row (W H : Z) (e : Extent) (p : Point)
  : option Z * option Z * Z :=
  (bin_expr (umap_x p) (xmin e) (xmax e) W,
   bin_expr (umap_y p) (ymin e) (ymax e) H,
   cat_id p).

Definition binned (W H : Z) (e : Extent) (tbl : list Point)
  : list (option Z * option Z * Z) :=
  map (binned_row W H e) (List.filter (binned_where e) tbl).

(** The [WHERE] clause of the CTE [agg]; a NULL bin fails the test. *)
Definition agg_where (W H : Z) (r : option Z * option Z * Z) : option (Z * Z * Z) :=
  match r with
  | (Some i, Some j, c) =>
      if Sql.BETWEENZ i 0 (W - 1) && Sql.BETWEENZ j 0 (H - 1)
      then Some (i, j, c) else None
  | _ => None
  end.

(** [GROUP BY ix, iy, cat_id] with a row count, kept in the order of the final
    [ORDER BY iy, ix, cat_id]: the groups form a list sorted on that key, and
    a binned row either opens a group at its place or adds one to its count. *)
Definition Key : Type := Z * Z * Z.   (* (ix, iy, cat_id) *)

Definition key_compare (a b : Key) : comparison :=
  let '(ai, aj, ac) := a in
  let '(bi, bj, bc) := b in
  match aj ?= bj with
  | Eq => match ai ?= bi with
          | Eq => ac ?= bc
          | o => o
          end
  | o => o
  end.

Fixpoint bump (k : Key) (groups : list (Key * Z)) : list (Key * Z) :=
  match groups with
  | [] => [(k, 1)]
  | (k', c) :: rest =>
      match key_compare k k' with
      | Lt => (k, 1) :: groups
      | Eq => (k', c + 1) :: rest
      | Gt => (k', c) :: bump k rest
      end
  end.

Definition group_count (keys : list Key) : list (Key * Z) :=
  fold_right bump [] keys.

Definition agg (W H : Z) (e : Extent) (tbl : list Point) : list (Key * Z) :=
  group_count (omap (agg_where W H) (binned W H e tbl)).

(** [SUM(n) OVER (PARTITION BY ix, iy)]. *)
Definition same_cell (a b : Key) : bool :=
  let '(ai, aj, _) := a in
  let '(bi, bj, _) := b in
  (ai =? bi) && (aj =? bj).

Definition partition_sum (groups : list (Key * Z)) (k : Key) : Z :=
  fold_right Z.add 0 (map snd (List.filter (fun g => same_cell k (fst g)) groups)).

Definition with_totals (groups : list (Key * Z)) : list Row :=
  map (fun g => let '((i, j, c), cnt) := g in
                mkRow i j c cnt (partition_sum groups (i, j, c)))
      groups.

(** The whole binning query.  With a NULL extent every comparison of the
    [WHERE] clause is NULL and no row is selected. *)
Definition binning_query (W H : Z) (e : option Extent) (tbl : list Point)
  : list Row :=
  match e with
  | None => []
  | Some e => with_totals (agg W H e tbl)
  end.

(** ** Typed arrays *)

Module Uint32Array.

Definition modulus : Z := 2 ^ 32.

Definition new (len : Z) : list Z := replicate (Z.to_nat len) 0.

Definition in_range (a : list Z) (j : Z) : bool :=
  (0 <=? j) && (j <? Z.of_nat (length a)).

(** [a[j]]; the render loop only reads in range. *)
Definition get (a : list Z) (j : Z) : Z := nth (Z.to_nat j) a 0.

(** [a[j] = v]: the value wraps modulo 2^32, an index outside the array
    is ignored. *)
Definition set (a : list Z) (j v : Z) : list Z :=
  if in_range a j then <[Z.to_nat j := v mod modulus]> a else a.

(** [a[j] += v]. *)
Definition add (a : list Z) (j v : Z) : list Z :=
  if in_range a j then <[Z.to_nat j := (get a j + v) mod modulus]> a else a.

End Uint32Array.

(** ** JavaScript arithmetic *)

(** [Math.round]: nearest integer, ties towards +infinity. *)
Definition Math_round (x : Q) : Z := Qfloor (x + (1 # 2)).

(** [a || b] on numbers. *)
Definition or_else (a b : Z) : Z := if a =? 0 then b else a.

(** ** The accumulation loop *)

Record Aggregates := mkAgg { totals : list Z; counts : list Z; maxTot : Z }.

Definition accumulate_row (W : Z) (st : Aggregates) (r : Row) : Aggregates :=
  let idx := iy r * W + ix r in
  mkAgg (Uint32Array.set (totals st) idx (n_total r))
        (Uint32Array.add (counts st) (idx * 4 + cat r) (n r))
        (if n_total r >? maxTot st then n_total r else maxTot st).

Definition accumulate (W H : Z) (rows : list Row) : Aggregates :=
  fold_left (accumulate_row W) rows
            (mkAgg (Uint32Array.new (W * H)) (Uint32Array.new (W * H * 4)) 0).

(** The array literal the render loop builds for cell [i]:
    [[counts[i*4], counts[i*4+1], counts[i*4+2], counts[i*4+3]]]. *)
Definition cell_counts_of (st : Aggregates) (i : Z) : list Z :=
  [ Uint32Array.get (counts st) (i * 4);
    Uint32Array.get (counts st) (i * 4 + 1);
    Uint32Array.get (counts st) (i * 4 + 2);
    Uint32Array.get (counts st) (i * 4 + 3) ].

(** ** The colour mixer and the render loop *)

(** The two places where a cell's colour is computed, recorded as the render
    loop goes: the call of [mixSRGB] and the evaluation of the shade formula,
    each with the cell index and the values it is given. *)
Inductive Call :=
| call_mixSRGB (i : nat) (cnts : list Z) (total : Z)
| eval_shade (i : nat) (tot maxTotal : Z) (shade : Q).

Section Pipeline.

(** The grid size and the palette are constants of the component ([W = 32],
    [H = 32], [PALETTE]); they are variables here so that the scenarios of the
    specification, which use other sizes, can be run as well.  The stride 4 of
    [counts] is a literal of the source and stays one. *)
Variables W H : Z.
Variable palette : list RGB.
Variable Math_sqrt : Q -> Q.

(** One iteration of the loop of [mixSRGB]. *)
Definition mix_step (cnts : list Z) (total : Z) (acc : Q * Q * Q) (k : nat)
  : Q * Q * Q :=
  let '(r, g, b) := acc in
  let '(pr, pg, pb) := nth k palette (0, 0, 0) in
  let c := nth k cnts 0 in
  let w := (inject_Z c / inject_Z total)%Q in
  (r + inject_Z pr * w, g + inject_Z pg * w, b + inject_Z pb * w)%Q.

Definition mixSRGB (cnts : list Z) (total : Z) : RGB :=
  if total =? 0 then (255, 255, 255)
  else
    let '(r, g, b) :=
      fold_left (mix_step cnts total)
                (seq 0 (Nat.min (length cnts) (length palette)))
                (0, 0, 0)%Q in
    (Math_round r, Math_round g, Math_round b).

(** [0.15 + 0.85 * Math.sqrt(tot / (maxTot || 1))]. *)
Definition shade_of (tot maxTotal : Z) : Q :=
  (0.15 + 0.85 * Math_sqrt (inject_Z tot / inject_Z (or_else maxTotal 1)))%Q.

(** The body of the render loop for cell [i]: the string stored in [out[i]]
    and the calls made on the way. *)
Definition render_cell (st : Aggregates) (i : nat) : Css * list Call :=
  let tot := Uint32Array.get (totals st) (Z.of_nat i) in
  if tot =? 0 then (transparent, [])
  else
    let cnts := cell_counts_of st (Z.of_nat i) in
    let '(m0, m1, m2) := mixSRGB cnts tot in
    let shade := shade_of tot (maxTot st) in
    (rgb (Z.min 255 (Math_round (inject_Z m0 * shade)))
         (Z.min 255 (Math_round (inject_Z m1 * shade)))
         (Z.min 255 (Math_round (inject_Z m2 * shade))),
     [ call_mixSRGB i cnts tot; eval_shade i tot (maxTot st) shade ]).

Definition render_step (st : Aggregates) (acc : list Css * list Call) (i : nat)
  : list Css * list Call :=
  let '(c, calls) := render_cell st i in
  (<[i := c]> (fst acc), snd acc ++ calls).

Definition render (st : Aggregates) : list Css * list Call :=
  fold_left (render_step st) (seq 0 (Z.to_nat (W * H)))
            (replicate (Z.to_nat (W * H)) rgba_0000, []).

(** The aggregates of one refresh: extent query, binning query, accumulation. *)
Definition aggregates (tbl : list Point) : Aggregates :=
  accumulate W H (binning_query W H (extent_query tbl) tbl).

(** One refresh, from the table to the array handed to [setCells]. *)
Definition refresh_traced (tbl : list Point) : list Css * list Call :=
  render (aggregates tbl).

Definition refresh (tbl : list Point) : list Css := fst (refresh_traced tbl).

End Pipeline.

(** ** Rounding to a floating-point format *)

Module IEEE.

(** The integer nearest to [q], a tie going to the even one. *)
Definition nearest_even (q : Q) : Z :=
  let f := Qfloor q in
  match (q - inject_Z f ?= 1 # 2)%Q with
  | Lt => f
  | Gt => f + 1
  | Eq => if Z.even f then f else f + 1
  end.

(** [floor (log2 q)] for a positive [q]. *)
Definition ilog2 (q : Q) : Z :=
  let l := Z.log2 (Qnum q) - Z.log2 (Z.pos (Qden q)) in
  if Qle_bool (2 ^ l) q then l else l - 1.

(** Round to nearest, ties to even, in the format with [prec] bits of
    precision whose least positive value is [2 ^ emin]: the result is the
    multiple of the unit in the last place [2 ^ e] nearest to [q].  Overflow
    to infinity is left out: values stay finite. *)
Definition round (prec emin : Z) (q : Q) : Q :=
  if Qeq_bool q 0 then 0%Q
  else
    let e := Z.max (ilog2 (Qabs q) - (prec - 1)) emin in
    Qred (inject_Z (nearest_even (q / 2 ^ e)) * 2 ^ e).

(** The correctly rounded square root of the same format; 0 stands for the
    NaN of a negative argument. *)
Definition sqrt (prec emin : Z) (q : Q) : Q :=
  if Qle_bool q 0 then 0%Q
  else
    let e := Z.max (ilog2 q / 2 - (prec - 1)) emin in
    let s := (q / 2 ^ (2 * e))%Q in
    let m := Z.sqrt (Qfloor s) in
    let h := (inject_Z m + (1 # 2))%Q in
    let n := match (s ?= h * h)%Q with
             | Lt => m
             | Gt => m + 1
             | Eq => if Z.even m then m else m + 1
             end in
    Qred (inject_Z n * 2 ^ e).

(** [FLOAT] of the query engine and the numbers of JavaScript. *)
Definition binary32 : Q -> Q := round 24 (-149).
Definition binary64 : Q -> Q := round 53 (-1074).
Definition sqrt64 : Q -> Q := sqrt 53 (-1074).

(** The floating-point numbers of the standard library, to compare with:
    the value of a finite [spec_float], and an integer as a number of each
    format. *)
Definition of_spec_float (x : spec_float) : Q :=
  match x with
  | S754_finite s m e => Qred ((if s then -1 else 1) * inject_Z (Z.pos m) * 2 ^ e)
  | _ => 0%Q
  end.

Definition double (z : Z) : spec_float := binary_normalize 53 1024 z 0 false.
Definition single (z : Z) : spec_float := binary_normalize 24 128 z 0 false.

End IEEE.

(** ** The binning query as the engine evaluates it *)

(** [umap_x] and [umap_y] are [FLOAT] columns (the table is built from two
    [Float32Array]s), so the engine computes the bin expression in binary32,
    rounding the difference, the quotient and the product.  The bounds reach
    the engine as text: the template prints each one as a decimal literal,
    and what the engine makes of such a literal is not part of the
    repository.  It is taken as two parameters: [lit v] is the [FLOAT] value
    the engine gives the literal printed for [v] where it is subtracted from
    or compared with a column, and [span hi lo] is the [FLOAT] value of the
    divisor, the difference of the two literals, when that difference is not
    zero. *)
Module Float32.

Section Engine.

Variable lit : Q -> Q.
Variable span : Q -> Q -> Q.

(** [CAST(FLOOR((u - lo) / NULLIF(hi - lo, 0) * N) AS INTEGER)]. *)
Definition bin_expr (u lo hi : Q) (N : Z) : option Z :=
  match Sql.NULLIF (hi - lo) 0 with
  | None => None
  | Some _ =>
      let num := IEEE.binary32 (u - lit lo) in
      let quo := IEEE.binary32 (num / span hi lo) in
      Some (Qfloor (IEEE.binary32 (quo * inject_Z N)))
  end.

(** The [WHERE] clause of the CTE [binned]; the two literals of the first
    two tests are compared with each other, as printed. *)
Definition binned_where (e : Extent) (p : Point) : bool :=
  negb (Qle_bool (xmax e) (xmin e)) && negb (Qle_bool (ymax e) (ymin e))
  && Sql.BETWEEN (umap_x p) (lit (xmin e)) (lit (xmax e))
  && Sql.BETWEEN (umap_y p) (lit (ymin e)) (lit (ymax e)).

Definition binned_row (W H : Z) (e : Extent) (p : Point)
  : option Z * option Z * Z :=
  (bin_expr (umap_x p) (xmin e) (xmax e) W,
   bin_expr (umap_y p) (ymin e) (ymax e) H,
   cat_id p).

Definition binned (W H : Z) (e : Extent) (tbl : list Point)
  : list (option Z * option Z * Z) :=
  map (binned_row W H e) (List.filter (binned_where e) tbl).

(** The keys of the rows that pass both [WHERE] clauses, in table order, and
    the two clauses as one test on a point. *)
Definition accepted_keys (W H : Z) (e : Extent) (tbl : list Point) : list Key :=
  omap (agg_where W H) (binned W H e tbl).

Definition sql_bin (W H : Z) (e : Extent) (p : Point) : option Key :=
  if binned_where e p then agg_where W H (binned_row W H e p) else None.

Definition binning_query (W H : Z) (e : option Extent) (tbl : list Point)
  : list Row :=
  match e with
  | None => []
  | Some e => with_totals (group_count (accepted_keys W H e tbl))
  end.

(** The aggregates of one refresh. *)
Definition aggregates (W H : Z) (tbl : list Point) : Aggregates :=
  accumulate W H (binning_query W H (extent_query tbl) tbl).

End Engine.

(** A bound that is a whole number is printed without a decimal point and
    read as an integer: the difference of two such literals is exact, and an
    integer is cast to [FLOAT] by rounding to nearest. *)
Definition lit_whole (v : Q) : Q := IEEE.binary32 v.
Definition span_whole (hi lo : Q) : Q := IEEE.binary32 (hi - lo).

End Float32.

(** ** The mixer and the render loop in rounded arithmetic *)

(** The same code as in [Section Pipeline], with every arithmetic result
    rounded by [R]: with [R := IEEE.binary64] these are the numbers of
    JavaScript, with the identity for [R] they are the definitions above.
    The counters and totals are integers below 2^32, which binary64 holds
    exactly. *)
Module Rounded.

Section Rounded.

Variable R : Q -> Q.
Variables W H : Z.
Variable palette : list RGB.
Variable Math_sqrt : Q -> Q.

Definition mix_step (cnts : list Z) (total : Z) (acc : Q * Q * Q) (k : nat)
  : Q * Q * Q :=
  let '(r, g, b) := acc in
  let '(pr, pg, pb) := nth k palette (0, 0, 0) in
  let c := nth k cnts 0 in
  let w := R (inject_Z c / inject_Z total)%Q in
  (R (r + R (inject_Z pr * w)), R (g + R (inject_Z pg * w)),
   R (b + R (inject_Z pb * w)))%Q.

Definition mixSRGB (cnts : list Z) (total : Z) : RGB :=
  if total =? 0 then (255, 255, 255)
  else
    let '(r, g, b) :=
      fold_left (mix_step cnts total)
                (seq 0 (Nat.min (length cnts) (length palette)))
                (0, 0, 0)%Q in
    (Math_round r, Math_round g, Math_round b).

(** [0.15 + 0.85 * Math.sqrt(tot / (maxTot || 1))]. *)
Definition shade_of (tot maxTotal : Z) : Q :=
  R (R 0.15 +
     R (R 0.85 * Math_sqrt (R (inject_Z tot / inject_Z (or_else maxTotal 1)))))%Q.

Definition render_cell (st : Aggregates) (i : nat) : Css * list Call :=
  let tot := Uint32Array.get (totals st) (Z.of_nat i) in
  if tot =? 0 then (transparent, [])
  else
    let cnts := cell_counts_of st (Z.of_nat i) in
    let '(m0, m1, m2) := mixSRGB cnts tot in
    let shade := shade_of tot (maxTot st) in
    (rgb (Z.min 255 (Math_round (R (inject_Z m0 * shade))))
         (Z.min 255 (Math_round (R (inject_Z m1 * shade))))
         (Z.min 255 (Math_round (R (inject_Z m2 * shade)))),
     [ call_mixSRGB i cnts tot; eval_shade i tot (maxTot st) shade ]).

Definition render_step (st : Aggregates) (acc : list Css * list Call) (i : nat)
  : list Css * list Call :=
  let '(c, calls) := render_cell st i in
  (<[i := c]> (fst acc), snd acc ++ calls).

Definition render (st : Aggregates) : list Css * list Call :=
  fold_left (render_step st) (seq 0 (Z.to_nat (W * H)))
            (replicate (Z.to_nat (W * H)) rgba_0000, []).

(** One refresh, from the table to the array handed to [setCells], the
    engine reading the bounds by [lit] and [span]. *)
Definition refresh_traced (lit : Q -> Q) (span : Q -> Q -> Q) (tbl : list Point)
  : list Css * list Call :=
  render (Float32.aggregates lit span W H tbl).

Definition refresh (lit : Q -> Q) (span : Q -> Q -> Q) (tbl : list Point)
  : list Css :=
  fst (refresh_traced lit span tbl).

End Rounded.

End Rounded.

(** ** The in-process strategy of the specification *)

(** One step of the scan: the running bounds widened to a further point. *)
Definition extent_step (e : Extent) (q : Point) : Extent :=
  mkExtent (Qmin (xmin e) (umap_x q)) (Qmax (xmax e) (umap_x q))
           (Qmin (ymin e) (umap_y q)) (Qmax (ymax e) (umap_y q)).

Module InProcess.

(** The specification's [CellAggregate]: [K] per-category counters and the
    total of the cell. *)
Record CellAggregate := mkCell { cell_counts : list Z; cell_total : Z }.

(** The Extent Calculator in the words of the specification (4.1): one scan
    of the points that keeps the running minimum and maximum of each
    coordinate; undefined for an empty input.  The repository has no such
    scan, it asks the query engine. *)
Definition computeExtent (tbl : list Point) : option Extent :=
  match tbl with
  | [] => None
  | p :: rest =>
      Some (fold_left extent_step rest
                      (mkExtent (umap_x p) (umap_x p) (umap_y p) (umap_y p)))
  end.

(** The Grid Binner in the words of the specification (4.2), on its
    numbers, which are float64: [R] rounds each result.  A point is rejected
    when the extent is degenerate on an axis, when a coordinate lies outside
    the extent, or when a computed index lies outside the grid. *)
Definition bin (R : Q -> Q) (W H : Z) (e : Extent) (p : Point) : option (Z * Z) :=
  if Qeq_bool (xmax e) (xmin e) || Qeq_bool (ymax e) (ymin e) then None
  else if negb (Qle_bool (xmin e) (umap_x p) && Qle_bool (umap_x p) (xmax e))
          || negb (Qle_bool (ymin e) (umap_y p) && Qle_bool (umap_y p) (ymax e))
  then None
  else
    let i := Qfloor (R (R (R (umap_x p - xmin e) / R (xmax e - xmin e)) * inject_Z W))%Q in
    let j := Qfloor (R (R (R (umap_y p - ymin e) / R (ymax e - ymin e)) * inject_Z H))%Q in
    if (0 <=? i) && (i <=? W - 1) && (0 <=? j) && (j <=? H - 1)
    then Some (i, j) else None.

(** The Category Aggregator in the words of the specification (4.3): a
    category index below [K] increments its counter and the total, one at or
    above [K] increments the total only. *)
Definition count_point (K : Z) (c : Z) (cell : CellAggregate) : CellAggregate :=
  mkCell (if (0 <=? c) && (c <? K)
          then alter Z.succ (Z.to_nat c) (cell_counts cell)
          else cell_counts cell)
         (Z.succ (cell_total cell)).

Definition empty_cells (W H K : Z) : list CellAggregate :=
  replicate (Z.to_nat (W * H)) (mkCell (replicate (Z.to_nat K) 0) 0).

(** The iteration over the points, for any binner: the cells in row-major
    order, [iy] outer and [ix] inner. *)
Definition aggregate_point (binner : Extent -> Point -> option (Z * Z))
    (W K : Z) (e : Extent) (cells : list CellAggregate) (p : Point)
  : list CellAggregate :=
  match binner e p with
  | Some (i, j) => alter (count_point K (cat_id p)) (Z.to_nat (j * W + i)) cells
  | None => cells
  end.

Definition computeCellAggregates (binner : Extent -> Point -> option (Z * Z))
    (W H K : Z) (tbl : list Point) : list CellAggregate :=
  match computeExtent tbl with
  | None => empty_cells W H K
  | Some e => fold_left (aggregate_point binner W K e) tbl (empty_cells W H K)
  end.

End InProcess.

(** The aggregates of the delegated strategy, cell by cell, as the render loop
    reads them from [totals] and [counts]. *)
Definition cells_of (W H : Z) (st : Aggregates) : list InProcess.CellAggregate :=
  map (fun i => InProcess.mkCell (cell_counts_of st (Z.of_nat i))
                                 (Uint32Array.get (totals st) (Z.of_nat i)))
      (seq 0 (Z.to_nat (W * H))).

(** ** Configurations and tables to run the pipeline on *)

(** The component as it is configured in the source. *)
Definition GridMap_W : Z := 32.
Definition GridMap_H : Z := 32.

(** A square-root stand-in to run the pipeline with: the floor of the root at
    a resolution of 2^-32. *)
Definition sqrt_floor32 (x : Q) : Q :=
  Z.sqrt (Qfloor (x * inject_Z (2 ^ 64))) # (2 ^ 32).

Definition pt (x y c : Z) : Point := mkPoint (inject_Z x) (inject_Z y) c.

Definition scenario : list Point := [pt 0 0 0; pt 0 0 0; pt 9 9 1].
Definition scenario_palette : list RGB := [(255, 0, 0); (0, 255, 0)].

(** A cell fed five points of category 0 and five of category 2, next to the
    point that spans the extent. *)
Definition dilution_table : list Point :=
  replicate 5 (pt 0 0 0) ++ replicate 5 (pt 0 0 2) ++ [pt 9 9 1].

(** Three points that span the extent [[0,32] x [0,32]], one in cell [(0,0)]
    and one, of category 1, in cell [(1,0)]; and a fourth point of category 4
    in cell [(0,0)]. *)
Definition overflow_base : list Point := [pt 0 0 0; pt 1 0 1; pt 32 32 0].
Definition overflow_point : Point := pt 0 0 4.

(** The same extent with a point of category 4 alone in cell [(0,0)]. *)
Definition overflow_alone : list Point := [pt 0 0 4; pt 1 0 1; pt 32 32 0].

(** Sixteen points in cell [(0,0)], and in cell [(1,0)] three points of
    category 0 and one of category 1. *)
Definition shade_table : list Point :=
  replicate 16 (pt 0 0 0) ++ replicate 3 (pt 1 0 0) ++ [pt 1 0 1; pt 32 32 0].

(** Six points in cell [(0,0)]: three of category 0 and one of each other
    category. *)
Definition tie_table : list Point :=
  replicate 3 (pt 0 0 0) ++ [pt 0 0 1; pt 0 0 2; pt 0 0 3; pt 32 32 0].

(** A point just left of the middle of the extent [[-1000,1000]]; its
    coordinate [-2^-30] is a binary32 value. *)
Definition rounding_table : list Point :=
  [pt (-1000) (-1000) 0; mkPoint (-1 # 1073741824) (-1000) 1; pt 1000 1000 0].

(** ** Vocabulary of the statements *)

(** The cell a recorded call belongs to. *)
Definition call_cell (c : Call) : nat :=
  match c with
  | call_mixSRGB i _ _ => i
  | eval_shade i _ _ _ => i
  end.

(** A table is degenerate when it is empty, or all its points have the same
    [umap_x], or all have the same [umap_y]. *)
Definition degenerate (tbl : list Point) : Prop :=
  tbl = [] \/
  (forall p q, In p tbl -> In q tbl -> (umap_x p == umap_x q)%Q) \/
  (forall p q, In p tbl -> In q tbl -> (umap_y p == umap_y q)%Q).

Definition uint32 (v : Z) : Prop := 0 <= v < Uint32Array.modulus.

(** What the loop keeps true: the arrays keep their lengths and hold
    unsigned 32-bit values, and [maxTot] bounds every stored total. *)
Record acc_inv (W H : Z) (st : Aggregates) : Prop := {
  inv_totals_len : length (totals st) = Z.to_nat (W * H);
  inv_counts_len : length (counts st) = Z.to_nat (W * H * 4);
  inv_totals : Forall uint32 (totals st);
  inv_counts : Forall uint32 (counts st);
  inv_max : Forall (fun v => v <= maxTot st) (totals st);
  inv_max_nonneg : 0 <= maxTot st
}.

Definition red (c : RGB) : Z := fst (fst c).
Definition green (c : RGB) : Z := snd (fst c).
Definition blue (c : RGB) : Z := snd c.

(** [sumQ f l]: the sum of [f k] over the indices [k] of [l]. *)
Fixpoint sumQ (f : nat -> Q) (l : list nat) : Q :=
  match l with
  | [] => 0
  | k :: l' => f k + sumQ f l'
  end%Q.

(** The term the loop adds to a channel at index [k]. *)
Definition mix_term (palette : list RGB) (cnts : list Z) (total : Z)
    (ch : RGB -> Z) (k : nat) : Q :=
  let p := ch (nth k palette (0, 0, 0)) in
  let c := nth k cnts 0 in
  (inject_Z p * (inject_Z c / inject_Z total))%Q.

(** The mixed channel in the words of the specification: the rounded sum,
    over the category indices [k] below the palette length, of
    [palette[k].channel * counts[k] / total].  A category for which the cell
    has no counter counts 0. *)
Definition spec_term (ch : RGB -> Z) (palette : list RGB) (cnts : list Z)
    (total : Z) (k : nat) : Q :=
  let p := ch (nth k palette (0, 0, 0)) in
  let c := nth k cnts 0 in
  (inject_Z p * inject_Z c / inject_Z total)%Q.

Definition mixed_channel_spec (ch : RGB -> Z) (palette : list RGB)
    (cnts : list Z) (total : Z) : Z :=
  Math_round (sumQ (spec_term ch palette cnts total) (seq 0 (length palette))).

(** The exact value of a mixed channel of the program: the sum over its
    palette of [PALETTE[k].channel * counts[k] / total]. *)
Definition exact_mix (ch : RGB -> Z) (cnts : list Z) (total : Z) : Q :=
  sumQ (spec_term ch PALETTE cnts total) (seq 0 (length PALETTE)).
Arguments exact_mix ch cnts%_Z total%_Z.

(** The engine reads the two bounds of an axis back exactly: the literal of
    the lower bound has the value of the bound, and the divisor is the
    binary32 difference of the two bounds, which is not zero. *)
Definition reads_exactly (lit : Q -> Q) (span : Q -> Q -> Q) (lo hi : Q) : Prop :=
  (lit lo == lo)%Q /\ (span hi lo == IEEE.binary32 (hi - lo))%Q /\
  ~ (span hi lo == 0)%Q.

Definition palette_nonneg (palette : list RGB) : Prop :=
  Forall (fun c => 0 <= red c /\ 0 <= green c /\ 0 <= blue c) palette.

(** The order of [ORDER BY iy, ix, cat_id] as a relation. *)
Definition key_lt (a b : Key) : Prop :=
  let '(ai, aj, ac) := a in
  let '(bi, bj, bc) := b in
  aj < bj \/ (aj = bj /\ (ai < bi \/ (ai = bi /\ ac < bc))).

Definition extent_equiv (e e' : Extent) : Prop :=
  (xmin e == xmin e')%Q /\ (xmax e == xmax e')%Q /\
  (ymin e == ymin e')%Q /\ (ymax e == ymax e')%Q.

(** [is_extent tbl e]: the four bounds are coordinates of points of the table
    and enclose all of them. *)
Definition is_extent (tbl : list Point) (e : Extent) : Prop :=
  (exists p, In p tbl /\ xmin e = umap_x p) /\
  (exists p, In p tbl /\ xmax e = umap_x p) /\
  (exists p, In p tbl /\ ymin e = umap_y p) /\
  (exists p, In p tbl /\ ymax e = umap_y p) /\
  (forall p, In p tbl ->
     (xmin e <= umap_x p)%Q /\ (umap_x p <= xmax e)%Q /\
     (ymin e <= umap_y p)%Q /\ (umap_y p <= ymax e)%Q).

(** The cell index and the [counts] slot of a key. *)
Definition cell_idx (W : Z) (k : Key) : Z := let '(i, j, _) := k in j * W + i.
Definition key_cat (k : Key) : Z := let '(_, _, c) := k in c.
Definition slot (W : Z) (k : Key) : Z := cell_idx W k * 4 + key_cat k.

(** [tally P keys]: how many of the keys satisfy [P]. *)
Fixpoint tally (P : Key -> bool) (keys : list Key) : Z :=
  match keys with
  | [] => 0
  | k :: keys' => (if P k then 1 else 0) + tally P keys'
  end.

(** [weight P groups]: the rows counted by the groups whose key satisfies [P]. *)
Fixpoint weight (P : Key -> bool) (groups : list (Key * Z)) : Z :=
  match groups with
  | [] => 0
  | (k, c) :: rest => (if P k then c else 0) + weight P rest
  end.

(** The rows of the result, with the window sums taken over [G]. *)
Definition rows_of (G groups : list (Key * Z)) : list Row :=
  map (fun g => let '((i, j, c), cnt) := g in
                mkRow i j c cnt (partition_sum G (i, j, c)))
      groups.

(** The keys of the rows that pass both [WHERE] clauses, in table order. *)
Definition accepted_keys (W H : Z) (e : Extent) (tbl : list Point) : list Key :=
  omap (agg_where W H) (binned W H e tbl).

(** The two [WHERE] clauses as one test on a point: its key when it passes
    both. *)
Definition sql_bin (W H : Z) (e : Extent) (p : Point) : option Key :=
  if binned_where e p then agg_where W H (binned_row W H e p) else None.

(** The Aggregator of the specification, fed an accepted key. *)
Definition count_key (W K : Z) (cells : list InProcess.CellAggregate) (k : Key)
  : list InProcess.CellAggregate :=
  alter (InProcess.count_point K (key_cat k)) (Z.to_nat (cell_idx W k)) cells.

(** ** The rest of the source: CSS strings *)

(** [rgbToCss]: the template string [`rgb(${r}, ${g}, ${b})`].  The channels
    are integers, which JavaScript prints in decimal (below 10^21). *)
Definition rgbToCss (c : RGB) : string :=
  let '(r, g, b) := c in
  "rgb(" +:+ pretty r +:+ ", " +:+ pretty g +:+ ", " +:+ pretty b +:+ ")".

(** The string each value of [Css] stands for. *)
Definition css_string (c : Css) : string :=
  match c with
  | rgba_0000 => "rgba(0,0,0,0)"
  | transparent => "transparent"
  | rgb r g b => rgbToCss (r, g, b)
  end.

(** [avoids x s]: the character [x] does not occur in [s]. *)
Fixpoint avoids (x : Ascii.ascii) (s : string) : Prop :=
  match s with
  | EmptyString => True
  | String c s' => c <> x /\ avoids x s'
  end.

(** ** The rest of the source: the item store ([stores/itemStore.ts]) *)

Module ItemStore.

Record Item := mkItem {
  id : Z; name : string; description : option string;
  price : Q; is_active : bool
}.

(** [Partial<Item>]: each key present or absent. *)
Record ItemPatch := mkPatch {
  patch_id : option Z; patch_name : option string;
  patch_description : option (option string);
  patch_price : option Q; patch_is_active : option bool
}.

Definition empty_patch : ItemPatch := mkPatch None None None None None.

(** [{ ...item, ...updatedItem }]. *)
Definition spread (item : Item) (u : ItemPatch) : Item :=
  mkItem (default (id item) (patch_id u))
         (default (name item) (patch_name u))
         (default (description item) (patch_description u))
         (default (price item) (patch_price u))
         (default (is_active item) (patch_is_active u)).

(** [{ ...p1, ...p2 }] on two patches. *)
Definition patch_then (p1 p2 : ItemPatch) : ItemPatch :=
  mkPatch (match patch_id p2 with Some v => Some v | None => patch_id p1 end)
          (match patch_name p2 with Some v => Some v | None => patch_name p1 end)
          (match patch_description p2 with Some v => Some v
                                      | None => patch_description p1 end)
          (match patch_price p2 with Some v => Some v | None => patch_price p1 end)
          (match patch_is_active p2 with Some v => Some v
                                    | None => patch_is_active p1 end).

Record ItemState := mkState {
  items : list Item; loading : bool; error : option string
}.

Definition init : ItemState := mkState [] false None.

Definition setItems (its : list Item) (s : ItemState) : ItemState :=
  mkState its (loading s) (error s).

Definition addItem (item : Item) (s : ItemState) : ItemState :=
  mkState (items s ++ [item]) (loading s) (error s).

Definition updateItem (i : Z) (updatedItem : ItemPatch) (s : ItemState) : ItemState :=
  mkState (map (fun item => if id item =? i then spread item updatedItem else item)
               (items s))
          (loading s) (error s).

Definition removeItem (i : Z) (s : ItemState) : ItemState :=
  mkState (List.filter (fun item => negb (id item =? i)) (items s))
          (loading s) (error s).

Definition setLoading (b : bool) (s : ItemState) : ItemState :=
  mkState (items s) b (error s).

Definition setError (e : option string) (s : ItemState) : ItemState :=
  mkState (items s) (loading s) e.

End ItemStore.

(** ** The rest of the source: promises *)

(** What a [catch] clause receives: an [Error] instance with its message, or
    some other value. *)
Inductive Thrown := ErrorInstance (message : string) | OtherValue.

(** How an awaited promise settles. *)
Inductive Outcome (A : Type) := Resolved (a : A) | Rejected (e : Thrown).
Arguments Resolved {A} a.
Arguments Rejected {A} e.

(** [err instanceof Error ? err.message : fallback]. *)
Definition message_or (e : Thrown) (fallback : string) : string :=
  match e with
  | ErrorInstance m => m
  | OtherValue => fallback
  end.

(** ** The rest of the source: the API client ([lib/api.ts]) *)

Module Api.

Definition API_BASE_URL : string := "http://localhost:8000".

(** The part of [RequestInit] the client uses; a key is present or absent. *)
Record RequestInit := mkInit {
  method : option string;
  body : option string;
  headers : option (gmap string string)
}.

Definition no_options : RequestInit := mkInit None None None.

Definition default_headers : gmap string string :=
  {[ "Content-Type" := "application/json" ]}.

(** The second argument of [fetch]:
    [{ headers: { 'Content-Type': 'application/json', ...options?.headers },
       ...options }]. *)
Definition request_init (options : option RequestInit) : RequestInit :=
  let o := default no_options options in
  let merged := default ∅ (headers o) ∪ default_headers in
  mkInit (method o) (body o)
         (match headers o with Some h => Some h | None => Some merged end).

Record Response (T : Type) := mkResponse {
  ok : bool; status : Z; json : Outcome T
}.
Arguments mkResponse {T} ok status json.
Arguments ok {T} r.
Arguments status {T} r.
Arguments json {T} r.

(** [request]: the URL is [baseUrl] followed by the endpoint; a response that
    is not [ok] is thrown as an [Error]. *)
Definition request {T : Type}
    (fetch : string -> RequestInit -> Outcome (Response T))
    (baseUrl endpoint : string) (options : option RequestInit) : Outcome T :=
  match fetch (baseUrl +:+ endpoint) (request_init options) with
  | Rejected e => Rejected e
  | Resolved response =>
      if ok response then json response
      else Rejected (ErrorInstance ("HTTP error! status: " +:+ pretty (status response)))
  end.

(** The endpoint and the options of each method; [stringify] stands for
    [JSON.stringify]. *)
Definition getItems_call : string * option RequestInit := ("/items", None).

Definition getItem_call (i : Z) : string * option RequestInit :=
  ("/items/" +:+ pretty i, None).

Definition createItem_call {A} (stringify : A -> string) (item : A)
  : string * option RequestInit :=
  ("/items", Some (mkInit (Some "POST") (Some (stringify item)) None)).

Definition updateItem_call {A} (stringify : A -> string) (i : Z) (item : A)
  : string * option RequestInit :=
  ("/items/" +:+ pretty i, Some (mkInit (Some "PUT") (Some (stringify item)) None)).

Definition deleteItem_call (i : Z) : string * option RequestInit :=
  ("/items/" +:+ pretty i, Some (mkInit (Some "DELETE") None None)).

(** A method of the client: [request] on its endpoint and options. *)
Definition call {T : Type}
    (fetch : string -> RequestInit -> Outcome (Response T))
    (c : string * option RequestInit) : Outcome T :=
  request fetch API_BASE_URL (fst c) (snd c).

End Api.

(** ** The rest of the source: the item list ([components/ItemList.tsx]) *)

Module ItemList.

(** [fetchItems], before and after its [await]. *)
Definition fetchItems_begin (s : ItemStore.ItemState) : ItemStore.ItemState :=
  ItemStore.setLoading true s.

Definition fetchItems_end (r : Outcome (list ItemStore.Item)) (s : ItemStore.ItemState)
  : ItemStore.ItemState :=
  ItemStore.setLoading false
    match r with
    | Resolved fetchedItems => ItemStore.setItems fetchedItems s
    | Rejected err =>
        ItemStore.setError (Some (message_or err "Failed to fetch items")) s
    end.

(** [handleDelete], after its [await]. *)
Definition handleDelete_end {A} (i : Z) (r : Outcome A) (s : ItemStore.ItemState)
  : ItemStore.ItemState :=
  match r with
  | Resolved _ => ItemStore.removeItem i s
  | Rejected err =>
      ItemStore.setError (Some (message_or err "Failed to delete item")) s
  end.

(** What the component does to the store, one settled step at a time. *)
Inductive Event :=
| FetchBegin
| FetchEnd (r : Outcome (list ItemStore.Item))
| DeleteEnd (i : Z) (r : Outcome unit).

Definition step (s : ItemStore.ItemState) (ev : Event) : ItemStore.ItemState :=
  match ev with
  | FetchBegin => fetchItems_begin s
  | FetchEnd r => fetchItems_end r s
  | DeleteEnd i r => handleDelete_end i r s
  end.

Definition run (evs : list Event) (s : ItemStore.ItemState) : ItemStore.ItemState :=
  fold_left step evs s.

(** What the component renders: [loading] first, then a truthy [error], then
    the list. *)
Inductive View :=
| LoadingView
| ErrorView (message : string)
| ListView (items : list ItemStore.Item).

Definition view (s : ItemStore.ItemState) : View :=
  if ItemStore.loading s then LoadingView
  else match ItemStore.error s with
       | Some e => if String.eqb e "" then ListView (ItemStore.items s) else ErrorView e
       | None => ListView (ItemStore.items s)
       end.

End ItemList.

(** ** The rest of the source: the DuckDB store ([app/store.ts]) *)

Module DuckDBStore.

Inductive Status := idle | starting | ready | error_.

Section Store.

(** The connection and the query result are opaque to the store. *)
Variables Conn Res : Type.

Record DuckDBState := mkStore {
  status : Status;
  error : option string;
  conn : option Conn;
  lastResult : option Res
}.

Definition init : DuckDBState := mkStore idle None None None.

(** The store together with the promises in flight: the calls of
    [initDuckDB] and the bodies of [loadData] that have not settled yet. *)
Record World := mkWorld {
  store : DuckDBState; inits_in_flight : nat; loads_in_flight : nat
}.

Inductive Event :=
| StartCalled                    (* start() up to its await *)
| InitResolved (c : Conn)        (* initDuckDB() resolved *)
| InitRejected (e : string)      (* initDuckDB() rejected, String(e) *)
| StopDone                       (* stop(), after close() settled *)
| LoadCalled                     (* loadData() up to its first await *)
| LoadResolved (r : Res)         (* the queries resolved *)
| LoadRejected (e : string).     (* a query rejected, String(e) *)

Definition step (w : World) (ev : Event) : World :=
  let s := store w in
  match ev with
  | StartCalled =>
      match status s, conn s with
      | starting, _ | _, Some _ => w
      | _, None =>
          mkWorld (mkStore starting None (conn s) (lastResult s))
                  (S (inits_in_flight w)) (loads_in_flight w)
      end
  | InitResolved c =>
      match inits_in_flight w with
      | O => w
      | S k => mkWorld (mkStore ready (error s) (Some c) (lastResult s))
                       k (loads_in_flight w)
      end
  | InitRejected e =>
      match inits_in_flight w with
      | O => w
      | S k => mkWorld (mkStore error_ (Some e) (conn s) (lastResult s))
                       k (loads_in_flight w)
      end
  | StopDone =>
      mkWorld (mkStore idle None None (lastResult s))
              (inits_in_flight w) (loads_in_flight w)
  | LoadCalled =>
      match conn s with
      | None => w
      | Some _ => mkWorld s (inits_in_flight w) (S (loads_in_flight w))
      end
  | LoadResolved r =>
      match loads_in_flight w with
      | O => w
      | S k => mkWorld (mkStore (status s) (error s) (conn s) (Some r))
                       (inits_in_flight w) k
      end
  | LoadRejected e =>
      match loads_in_flight w with
      | O => w
      | S k => mkWorld (mkStore (status s) (Some e) (conn s) (lastResult s))
                       (inits_in_flight w) k
      end
  end.

Definition run (evs : list Event) (w : World) : World := fold_left step evs w.

Definition start_world : World := mkWorld init 0 0.

End Store.

Arguments mkStore {Conn Res} status error conn lastResult.
Arguments status {Conn Res} d.
Arguments error {Conn Res} d.
Arguments conn {Conn Res} d.
Arguments lastResult {Conn Res} d.
Arguments mkWorld {Conn Res} store inits_in_flight loads_in_flight.
Arguments store {Conn Res} w.
Arguments inits_in_flight {Conn Res} w.
Arguments loads_in_flight {Conn Res} w.
Arguments StartCalled {Conn Res}.
Arguments InitResolved {Conn Res} c.
Arguments InitRejected {Conn Res} e.
Arguments StopDone {Conn Res}.
Arguments LoadCalled {Conn Res}.
Arguments LoadResolved {Conn Res} r.
Arguments LoadRejected {Conn Res} e.
Arguments step {Conn Res} w ev.
Arguments run {Conn Res} evs w.

(** What every reachable state of the store satisfies. *)
Definition store_ok {Conn Res} (w : World Conn Res) : Prop :=
  let s := store w in
  (status s = ready -> conn s <> None) /\
  (status s = idle -> conn s = None) /\
  (status s = starting -> conn s = None /\ (1 <= inits_in_flight w)%nat) /\
  (status s = error_ -> error s <> None).

End DuckDBStore.

(** ** The rest of the source: the sample table ([lib/data.ts]) *)

Module FakeData.

Definition centers : list (Q * Q) :=
  [ (-6, -4); (6, -4); (-6, 5); (6, 5) ]%Q.

Definition sigma : Q := 0.9.

Section Generator.

(** [randn j] is the value of the [j]-th call of [randn()]; [fround] is the
    rounding of a store into a [Float32Array]. *)
Variable randn : nat -> Q.
Variable fround : Q -> Q.

(** Iteration [i] of the loop; [None] when it throws: [centers[c]] is
    [undefined] for [c] outside the four centres (and for the [NaN] that
    [i % 0] is), and destructuring it raises a [TypeError]. *)
Definition row (K i : nat) : option Point :=
  match K with
  | O => None
  | _ =>
      let c := (i mod K)%nat in
      match nth_error centers c with
      | None => None
      | Some (cx, cy) =>
          Some (mkPoint (fround (cx + sigma * randn (2 * i)))
                        (fround (cy + sigma * randn (2 * i + 1)))
                        (Z.of_nat c mod 256))
      end
  end.

(** [makeFakeArrowTable(N, K)]: the rows of the table, or [None] when the
    loop throws. *)
Definition makeFakeArrowTable (N K : nat) : option (list Point) :=
  mapM (row K) (seq 0 N).

End Generator.

End FakeData.

(** A table of the generator, with every sample of [randn] equal to 0 and
    the rounding left out. *)
Definition sample_table : list Point :=
  Eval vm_compute in
    default [] (FakeData.makeFakeArrowTable (fun _ => 0%Q) (fun x => x) 6 4).

(** A store with two items, and a third item. *)
Definition two_items : ItemStore.ItemState :=
  ItemStore.mkState
    [ ItemStore.mkItem 1 "pen" None 2 true;
      ItemStore.mkItem 2 "ink" (Some "blue") 5 false ]
    false None.

Definition third_item : ItemStore.Item := ItemStore.mkItem 3 "pad" None 4 true.

(** The sum of a list of integers. *)
Definition sumZ (l : list Z) : Z := fold_right Z.add 0 l.

(** ** Facts about rounding *)

Lemma nearest_even_comp q q' : (q == q')%Q -> IEEE.nearest_even q = IEEE.nearest_even q'.
Proof.
  intros E. unfold IEEE.nearest_even.
  rewrite (Qfloor_comp _ _ E).
  assert (E' : (q - inject_Z (Qfloor q') == q' - inject_Z (Qfloor q'))%Q) by (rewrite E; reflexivity).
  rewrite (Qcompare_comp _ _ E' (1#2) (1#2) (Qeq_refl _)). reflexivity.
Qed.

Lemma nearest_even_error q :
  (Qabs (inject_Z (IEEE.nearest_even q) - q) <= 1 # 2)%Q.
Proof.
  unfold IEEE.nearest_even.
  pose proof (Qfloor_le q) as Hlo. pose proof (Qlt_floor q) as Hhi.
  rewrite inject_Z_plus in Hhi. change (inject_Z 1) with 1%Q in Hhi.
  apply Qabs_Qle_condition.
  destruct (q - inject_Z (Qfloor q) ?= 1 # 2)%Q eqn:E.
  - apply Qeq_alt in E. destruct (Z.even (Qfloor q)).
    + split; lra.
    + rewrite inject_Z_plus. change (inject_Z 1) with 1%Q. split; lra.
  - apply Qlt_alt in E. split; lra.
  - apply Qgt_alt in E. rewrite inject_Z_plus. change (inject_Z 1) with 1%Q. split; lra.
Qed.

Lemma nearest_even_inject z : IEEE.nearest_even (inject_Z z) = z.
Proof.
  unfold IEEE.nearest_even. rewrite Qfloor_Z.
  replace (inject_Z z - inject_Z z ?= 1 # 2)%Q with Lt; [reflexivity|].
  symmetry. apply Qlt_alt.
  setoid_replace (inject_Z z - inject_Z z)%Q with 0%Q using relation Qeq by ring. reflexivity.
Qed.

Lemma nearest_even_nonneg q : (0 <= q)%Q -> 0 <= IEEE.nearest_even q.
Proof.
  intros Hq. unfold IEEE.nearest_even.
  assert (0 <= Qfloor q) by (change 0 with (Qfloor 0); now apply Qfloor_resp_le).
  destruct (_ ?= _)%Q; [destruct (Z.even _)| |]; lia.
Qed.

Lemma pow2_pos e : (0 < 2 ^ e)%Q.
Proof. apply Qpower_0_lt. reflexivity. Qed.

Lemma pow2_succ e : (2 ^ (e + 1) == 2 * 2 ^ e)%Q.
Proof. rewrite Qpower_plus by discriminate. change (2 ^ 1)%Q with 2%Q. ring. Qed.

Lemma pow2_lt a b : a < b -> (2 ^ a < 2 ^ b)%Q.
Proof. intros. apply Qpower_lt_compat_l; [assumption | reflexivity]. Qed.

Lemma pow2_le a b : a <= b -> (2 ^ a <= 2 ^ b)%Q.
Proof. intros. apply Qpower_le_compat_l; [assumption | discriminate]. Qed.

Lemma pow2_inject n : 0 <= n -> (inject_Z (2 ^ n) == 2 ^ n)%Q.
Proof. intros. now rewrite Zpower_Qpower. Qed.

(* 2^(a-b) = 2^a / 2^b *)
Lemma pow2_sub a b : (2 ^ (a - b) == 2 ^ a / 2 ^ b)%Q.
Proof.
  unfold Z.sub. rewrite Qpower_plus by discriminate. rewrite Qpower_opp. reflexivity.
Qed.

Lemma ilog2_spec q : (0 < q)%Q -> (2 ^ IEEE.ilog2 q <= q)%Q /\ (q < 2 ^ (IEEE.ilog2 q + 1))%Q.
Proof.
  intros Hq. unfold IEEE.ilog2.
  destruct q as [n d]. cbn [Qnum Qden].
  assert (Hn : 0 < n) by (unfold Qlt in Hq; cbn in Hq; lia).
  set (a := Z.log2 n). set (b := Z.log2 (Z.pos d)).
  destruct (Z.log2_spec n Hn) as [Ha1 Ha2]. fold a in Ha1, Ha2.
  destruct (Z.log2_spec (Z.pos d) ltac:(lia)) as [Hb1 Hb2]. fold b in Hb1, Hb2.
  assert (Ha0 : 0 <= a) by apply Z.log2_nonneg.
  assert (Hb0 : 0 <= b) by apply Z.log2_nonneg.
  assert (Eq : (n # d == inject_Z n / inject_Z (Z.pos d))%Q) by apply Qmake_Qdiv.
  assert (Hd : (0 < inject_Z (Z.pos d))%Q) by (unfold Qlt; cbn; lia).
  assert (Hupper : (n # d < 2 ^ (a - b + 1))%Q).
  { rewrite Eq. apply Qlt_shift_div_r; [assumption|].
    replace (a - b + 1) with ((a + 1) - b) by lia. rewrite pow2_sub.
    apply Qlt_le_trans with (inject_Z (2 ^ Z.succ a)).
    - rewrite <- Zlt_Qlt. assumption.
    - rewrite pow2_inject by lia. unfold Z.succ.
      assert (HB : (2 ^ b <= inject_Z (Z.pos d))%Q)
        by (rewrite <- pow2_inject by lia; rewrite <- Zle_Qle; assumption).
      pose proof (pow2_pos (a + 1)) as HX. pose proof (pow2_pos b) as HB0.
      setoid_replace (2 ^ (a + 1) / 2 ^ b * inject_Z (Z.pos d))%Q
        with (2 ^ (a + 1) * inject_Z (Z.pos d) / 2 ^ b)%Q using relation Qeq by (field; lra).
      apply Qle_shift_div_l; [assumption|].
      apply Qmult_le_l; assumption. }
  assert (Hlower : (2 ^ (a - b - 1) < n # d)%Q).
  { rewrite Eq. apply Qlt_shift_div_l; [assumption|].
    replace (a - b - 1) with (a - (b + 1)) by lia. rewrite pow2_sub.
    apply Qlt_le_trans with (2 ^ a)%Q.
    - pose proof (pow2_pos a) as HX. pose proof (pow2_pos (b + 1)) as HB0.
      assert (HB : (inject_Z (Z.pos d) < 2 ^ (b + 1))%Q)
        by (rewrite <- pow2_inject by lia; rewrite <- Zlt_Qlt; assumption).
      setoid_replace (2 ^ a / 2 ^ (b + 1) * inject_Z (Z.pos d))%Q
        with (2 ^ a * inject_Z (Z.pos d) / 2 ^ (b + 1))%Q using relation Qeq by (field; lra).
      apply Qlt_shift_div_r; [assumption|].
      apply Qmult_lt_l; assumption.
    - rewrite <- pow2_inject by lia. rewrite <- Zle_Qle. assumption. }
  destruct (Qle_bool (2 ^ (a - b)) (n # d)) eqn:E.
  - apply Qle_bool_iff in E. split; assumption.
  - assert (~ (2 ^ (a - b) <= n # d)%Q) by (rewrite <- Qle_bool_iff; congruence).
    replace (a - b - 1 + 1) with (a - b) by lia.
    split; [apply Qlt_le_weak; assumption | apply Qnot_le_lt; assumption].
Qed.

Lemma ilog2_unique q l :
  (2 ^ l <= q)%Q -> (q < 2 ^ (l + 1))%Q -> IEEE.ilog2 q = l.
Proof.
  intros Hlo Hhi.
  assert (Hq : (0 < q)%Q) by (pose proof (pow2_pos l); lra).
  destruct (ilog2_spec q Hq) as [Slo Shi].
  assert (IEEE.ilog2 q < l + 1).
  { apply (Qpower_lt_compat_l_inv 2); [|reflexivity]. lra. }
  assert (l < IEEE.ilog2 q + 1).
  { apply (Qpower_lt_compat_l_inv 2); [|reflexivity]. lra. }
  lia.
Qed.

Lemma ilog2_comp q q' : (0 < q)%Q -> (q == q')%Q -> IEEE.ilog2 q = IEEE.ilog2 q'.
Proof.
  intros Hq E. symmetry. destruct (ilog2_spec q Hq).
  apply ilog2_unique; rewrite <- E; assumption.
Qed.

Lemma Qabs_pos_of_nonzero q : ~ (q == 0)%Q -> (0 < Qabs q)%Q.
Proof.
  intros Hq. apply Qabs_case; intros H.
  - apply Qle_lt_or_eq in H as [H|H]; [assumption|]. exfalso. apply Hq. now symmetry.
  - apply Qle_lt_or_eq in H as [H|H]; [lra|]. contradiction.
Qed.

(** The operations agree with those of the standard library's [SpecFloat] on
    the quotients, products, sums and roots met in the examples below. *)
Example rounding_agrees_with_SpecFloat :
  let v := IEEE.of_spec_float in
  let d := IEEE.double in
  let f := IEEE.single in
  v (SFdiv 53 1024 (d 1) (d 6)) = IEEE.binary64 (1 # 6) /\
  v (SFmul 53 1024 (d 241) (SFdiv 53 1024 (d 1) (d 6)))
  = IEEE.binary64 (241 * IEEE.binary64 (1 # 6)) /\
  v (SFadd 53 1024 (SFdiv 53 1024 (d 15) (d 100))
           (SFmul 53 1024 (SFdiv 53 1024 (d 85) (d 100)) (SFdiv 53 1024 (d 1) (d 2))))
  = IEEE.binary64 (IEEE.binary64 0.15 + IEEE.binary64 (IEEE.binary64 0.85 * (1 # 2))) /\
  v (SFsqrt 53 1024 (SFdiv 53 1024 (d 3) (d 16))) = IEEE.sqrt64 (3 # 16) /\
  v (SFdiv 24 128 (f 1) (f 10)) = IEEE.binary32 (1 # 10) /\
  v (SFmul 24 128 (SFdiv 24 128 (f 7) (f 9)) (f 32))
  = IEEE.binary32 (IEEE.binary32 (7 # 9) * 32) /\
  v (SFadd 24 128 (SFdiv 24 128 (f (-1)) (f (2 ^ 30))) (f 1000))
  = IEEE.binary32 ((-1 # 1073741824) + 1000).
Proof. vm_compute. repeat split. Qed.

(** Rounding is a function of the value, not of the fraction that denotes it. *)
Lemma round_comp p emin q q' : (q == q')%Q -> IEEE.round p emin q = IEEE.round p emin q'.
Proof.
  intros E. unfold IEEE.round.
  destruct (Qeq_bool q 0) eqn:E0.
  - apply Qeq_bool_iff in E0. rewrite E in E0. apply Qeq_bool_iff in E0. now rewrite E0.
  - assert (Hq : ~ (q == 0)%Q) by (intros Hc; apply Qeq_bool_iff in Hc; congruence).
    assert (E0' : Qeq_bool q' 0 = false).
    { destruct (Qeq_bool q' 0) eqn:E1; [|reflexivity].
      apply Qeq_bool_iff in E1. rewrite <- E in E1. contradiction. }
    rewrite E0'.
    pose proof (Qabs_pos_of_nonzero q Hq) as Ha.
    rewrite (ilog2_comp (Qabs q) (Qabs q') Ha) by (now rewrite E).
    apply Qred_complete.
    rewrite (nearest_even_comp (q / _) (q' / 2 ^ Z.max (IEEE.ilog2 (Qabs q') - (p - 1)) emin)).
    + reflexivity.
    + now rewrite E.
Qed.

Lemma round_zero p emin q : (q == 0)%Q -> IEEE.round p emin q = 0%Q.
Proof. intros E. unfold IEEE.round. apply Qeq_bool_iff in E. now rewrite E. Qed.

Lemma round_nonzero p emin q :
  ~ (q == 0)%Q ->
  let e := Z.max (IEEE.ilog2 (Qabs q) - (p - 1)) emin in
  (IEEE.round p emin q == inject_Z (IEEE.nearest_even (q / 2 ^ e)) * 2 ^ e)%Q.
Proof.
  intros Hq e. unfold IEEE.round.
  destruct (Qeq_bool q 0) eqn:E0; [apply Qeq_bool_iff in E0; contradiction|].
  fold e. apply Qred_correct.
Qed.

Lemma round_nonneg p emin q : (0 <= q)%Q -> (0 <= IEEE.round p emin q)%Q.
Proof.
  intros Hq. destruct (Qeq_dec q 0) as [E|N].
  - rewrite (round_zero _ _ _ E). lra.
  - rewrite round_nonzero by assumption. cbn zeta.
    apply Qmult_le_0_compat; [|apply Qlt_le_weak, pow2_pos].
    change 0%Q with (inject_Z 0). rewrite <- Zle_Qle. apply nearest_even_nonneg.
    apply Qle_shift_div_l; [apply pow2_pos | lra].
Qed.

(** The distance to the rounded value: half a unit in the last place. *)
Lemma round_error p emin q :
  (Qabs (IEEE.round p emin q - q)
   <= Qabs q * 2 ^ (- p) + 2 ^ (emin - 1))%Q.
Proof.
  destruct (Qeq_dec q 0) as [E|N].
  - rewrite (round_zero _ _ _ E).
    setoid_replace (0 - q)%Q with 0%Q using relation Qeq by (rewrite E; ring).
    rewrite E. change (Qabs 0) with 0%Q.
    pose proof (pow2_pos (emin - 1)). lra.
  - rewrite round_nonzero by assumption. cbn zeta.
    pose proof (Qabs_pos_of_nonzero q N) as Ha.
    destruct (ilog2_spec (Qabs q) Ha) as [Hlo _].
    set (l := IEEE.ilog2 (Qabs q)) in *.
    set (e := Z.max (l - (p - 1)) emin).
    pose proof (pow2_pos e) as He.
    pose proof (nearest_even_error (q / 2 ^ e)) as Hn.
    set (N' := IEEE.nearest_even (q / 2 ^ e)) in *.
    setoid_replace (inject_Z N' * 2 ^ e - q)%Q
      with ((inject_Z N' - q / 2 ^ e) * 2 ^ e)%Q using relation Qeq by (field; lra).
    rewrite Qabs_Qmult, (Qabs_pos (2 ^ e)) by lra.
    assert (Hpow : (2 ^ e <= 2 * (Qabs q * 2 ^ (- p)) + 2 * 2 ^ (emin - 1))%Q).
    { rewrite <- pow2_succ. replace (emin - 1 + 1) with emin by lia.
      pose proof (pow2_pos emin). pose proof (pow2_pos (- p)).
      assert (0 <= Qabs q * 2 ^ (- p))%Q by (apply Qmult_le_0_compat; lra).
      unfold e. apply Z.max_case_strong; intros _; [|lra].
      assert (2 ^ (l - (p - 1)) <= 2 * (Qabs q * 2 ^ (- p)))%Q; [|lra].
      replace (l - (p - 1)) with (l + (- p) + 1) by lia.
      rewrite pow2_succ, Qpower_plus by discriminate.
      apply Qmult_le_l; [reflexivity|].
      apply Qmult_le_compat_r; lra. }
    assert (Hm : (Qabs (inject_Z N' - q / 2 ^ e) * 2 ^ e <= (1 # 2) * 2 ^ e)%Q)
      by (apply Qmult_le_compat_r; lra).
    lra.
Qed.

(** A value [m * 2^k] with a mantissa of at most [p] bits and an exponent in
    range is not changed. *)
Lemma round_exact p emin m k :
  Z.abs m < 2 ^ p -> emin <= k -> 0 <= p ->
  (IEEE.round p emin (inject_Z m * 2 ^ k) == inject_Z m * 2 ^ k)%Q.
Proof.
  intros Hm Hk Hp.
  destruct (Z.eq_dec m 0) as [->|Hm0].
  - rewrite round_zero by ring. ring.
  - pose proof (pow2_pos k) as Hk0.
    assert (N : ~ (inject_Z m * 2 ^ k == 0)%Q).
    { intros Hc. apply Qmult_integral in Hc as [Hc|Hc]; [|lra].
      apply Hm0. unfold Qeq in Hc. cbn in Hc. lia. }
    rewrite round_nonzero by assumption. cbn zeta.
    set (q := (inject_Z m * 2 ^ k)%Q) in *.
    pose proof (Qabs_pos_of_nonzero q N) as Ha.
    destruct (ilog2_spec (Qabs q) Ha) as [Hlo _].
    set (l := IEEE.ilog2 (Qabs q)) in *.
    assert (Hl : l < p + k).
    { apply (Qpower_lt_compat_l_inv 2); [|reflexivity].
      apply Qle_lt_trans with (Qabs q); [assumption|].
      unfold q. rewrite Qabs_Qmult, (Qabs_pos (2 ^ k)) by lra.
      rewrite Qpower_plus by discriminate.
      apply Qmult_lt_compat_r; [assumption|].
      rewrite <- pow2_inject by assumption.
      change (Qabs (inject_Z m)) with (inject_Z (Z.abs m)).
      rewrite <- Zlt_Qlt. exact Hm. }
    set (e := Z.max (l - (p - 1)) emin).
    assert (He : e <= k) by (unfold e; lia).
    pose proof (pow2_pos e) as He0.
    assert (Eq : (q / 2 ^ e == inject_Z (m * 2 ^ (k - e)))%Q).
    { unfold q. rewrite inject_Z_mult, pow2_inject by lia. rewrite pow2_sub. field. lra. }
    rewrite (nearest_even_comp _ _ Eq), nearest_even_inject.
    rewrite inject_Z_mult, pow2_inject by lia. rewrite pow2_sub. unfold q. field. lra.
Qed.

Lemma round_int p emin z :
  Z.abs z < 2 ^ p -> emin <= 0 -> 0 <= p ->
  (IEEE.round p emin (inject_Z z) == inject_Z z)%Q.
Proof.
  intros Hz He Hp.
  rewrite (round_comp p emin (inject_Z z) (inject_Z z * 2 ^ 0)) by (change (2 ^ 0)%Q with 1%Q; ring).
  rewrite round_exact by assumption. change (2 ^ 0)%Q with 1%Q. ring.
Qed.

(** ** C1: a point on the maximum edge of the extent *)

Lemma binary32_int z : Z.abs z < 2 ^ 24 -> (IEEE.binary32 (inject_Z z) == inject_Z z)%Q.
Proof. intros Hz. apply round_int; [assumption | lia | lia]. Qed.

(** Whole-number bounds of moderate size are read back exactly. *)
Lemma whole_reads_exactly (lo hi : Z) :
  Z.abs lo < 2 ^ 24 -> 0 < hi - lo < 2 ^ 24 ->
  reads_exactly Float32.lit_whole Float32.span_whole (inject_Z lo) (inject_Z hi).
Proof.
  intros Hlo Hd. unfold reads_exactly, Float32.lit_whole, Float32.span_whole.
  assert (E : (inject_Z hi - inject_Z lo == inject_Z (hi - lo))%Q)
    by (unfold Z.sub; rewrite inject_Z_plus, inject_Z_opp; ring).
  split; [now apply binary32_int|]. split; [reflexivity|].
  unfold IEEE.binary32. rewrite (round_comp _ _ _ _ E).
  fold IEEE.binary32. rewrite binary32_int by lia.
  intros Hc. unfold Qeq in Hc. cbn in Hc. lia.
Qed.

Lemma Float32_bin_expr_max_edge lit span u lo hi N :
  (lo < hi)%Q -> reads_exactly lit span lo hi -> (u == hi)%Q -> Z.abs N < 2 ^ 24 ->
  Float32.bin_expr lit span u lo hi N = Some N.
Proof.
  intros Hlt (Hlit & Hspan & Hnz) Hu HN. unfold Float32.bin_expr, Sql.NULLIF.
  destruct (Qeq_bool (hi - lo) 0) eqn:E; [apply Qeq_bool_iff in E; lra|].
  cbn zeta. f_equal.
  assert (E1 : (IEEE.binary32 (u - lit lo) / span hi lo == 1)%Q).
  { unfold IEEE.binary32 at 1.
    rewrite (round_comp _ _ (u - lit lo) (hi - lo)) by (now rewrite Hu, Hlit).
    fold (IEEE.binary32 (hi - lo)). rewrite <- Hspan. now field. }
  unfold IEEE.binary32 at 2. rewrite (round_comp _ _ _ _ E1).
  change (IEEE.round 24 (-149) 1) with 1%Q.
  unfold IEEE.binary32.
  rewrite (round_comp _ _ (1 * inject_Z N) (inject_Z N)) by ring.
  fold (IEEE.binary32 (inject_Z N)).
  rewrite (Qfloor_comp _ _ (binary32_int N HN)). apply Qfloor_Z.
Qed.

(** C1, the scenario as the code runs it: with [W = H = 2] and the extent
    [[0,9] x [0,9]], whose bounds are printed as the integers 0 and 9, the
    point [(9,9)] gets the bins [(2,2)], fails the range test of [agg], and
    no row of the result belongs to cell [(1,1)]: its total stays 0 and it is
    published as ["transparent"]. *)
Lemma C1_scenario_point_not_in_last_cell :
  let lit := Float32.lit_whole in
  let span := Float32.span_whole in
  extent_query scenario = Some (mkExtent 0 9 0 9) /\
  Float32.binned_row lit span 2 2 (mkExtent 0 9 0 9) (pt 9 9 1) = (Some 2, Some 2, 1) /\
  Float32.sql_bin lit span 2 2 (mkExtent 0 9 0 9) (pt 9 9 1) <> Some (1, 1, 1) /\
  Float32.binning_query lit span 2 2 (extent_query scenario) scenario
  = [mkRow 0 0 0 2 2] /\
  Uint32Array.get (totals (Float32.aggregates lit span 2 2 scenario)) (1 * 2 + 1) = 0 /\
  Rounded.refresh IEEE.binary64 2 2 scenario_palette IEEE.sqrt64 lit span scenario
  !! 3%nat = Some transparent.
Proof. repeat split; try reflexivity. vm_compute. discriminate. Qed.

(** C1, as the code has it: the query has no clamp.  On a non-degenerate
    extent whose bounds the engine reads back exactly, as it does bounds that
    are whole numbers, a point on the maximum edge of an axis gets the bin
    index [W] (resp. [H]) on that axis, one past the last cell; the range
    test of [agg] rejects it and it is counted in no cell. *)
Theorem C1_max_edge_rejected
  (lit : Q -> Q) (span : Q -> Q -> Q) (W H : Z) (e : Extent) (p : Point) :
  0 < W < 2 ^ 24 -> 0 < H < 2 ^ 24 ->
  (xmin e < xmax e)%Q -> (ymin e < ymax e)%Q ->
  reads_exactly lit span (xmin e) (xmax e) ->
  reads_exactly lit span (ymin e) (ymax e) ->
  ((umap_x p == xmax e)%Q -> fst (fst (Float32.binned_row lit span W H e p)) = Some W) /\
  ((umap_y p == ymax e)%Q -> snd (fst (Float32.binned_row lit span W H e p)) = Some H) /\
  ((umap_x p == xmax e)%Q \/ (umap_y p == ymax e)%Q ->
   agg_where W H (Float32.binned_row lit span W H e p) = None /\
   Float32.sql_bin lit span W H e p = None).
Proof.
  intros HW HH Hx Hy Rx Ry.
  assert (Bx : (umap_x p == xmax e)%Q ->
               Float32.bin_expr lit span (umap_x p) (xmin e) (xmax e) W = Some W)
    by (intros Hp; apply Float32_bin_expr_max_edge; try assumption; lia).
  assert (By : (umap_y p == ymax e)%Q ->
               Float32.bin_expr lit span (umap_y p) (ymin e) (ymax e) H = Some H)
    by (intros Hp; apply Float32_bin_expr_max_edge; try assumption; lia).
  unfold Float32.sql_bin, Float32.binned_row; cbn [fst snd].
  split; [assumption | split; [assumption|]].
  intros Hedge.
  assert (Hrej : agg_where W H
                   (Float32.bin_expr lit span (umap_x p) (xmin e) (xmax e) W,
                    Float32.bin_expr lit span (umap_y p) (ymin e) (ymax e) H,
                    cat_id p) = None).
  { unfold agg_where, Sql.BETWEENZ. destruct Hedge as [Hp|Hp].
    - rewrite (Bx Hp).
      destruct (Float32.bin_expr lit span (umap_y p) _ _ H); [|reflexivity].
      replace (W <=? W - 1) with false by (symmetry; apply Z.leb_gt; lia).
      now rewrite andb_false_r.
    - rewrite (By Hp).
      destruct (Float32.bin_expr lit span (umap_x p) _ _ W); [|reflexivity].
      replace (H <=? H - 1) with false by (symmetry; apply Z.leb_gt; lia).
      now rewrite !andb_false_r. }
  split; [assumption|]. rewrite Hrej. now destruct (Float32.binned_where lit e p).
Qed.

Lemma C1_max_edge_rejected_witness :
  let lit := Float32.lit_whole in
  let span := Float32.span_whole in
  let e := mkExtent 0 9 0 9 in
  fst (fst (Float32.binned_row lit span 2 2 e (pt 9 9 1))) = Some 2 /\
  snd (fst (Float32.binned_row lit span 2 2 e (pt 9 9 1))) = Some 2 /\
  agg_where 2 2 (Float32.binned_row lit span 2 2 e (pt 9 9 1)) = None /\
  Float32.sql_bin lit span 2 2 e (pt 9 9 1) = None.
Proof.
  intros lit span e.
  destruct (C1_max_edge_rejected lit span 2 2 e (pt 9 9 1))
    as (Hi & Hj & Hr); try reflexivity; try lia.
  - apply (whole_reads_exactly 0 9); lia.
  - apply (whole_reads_exactly 0 9); lia.
  - split; [apply Hi; reflexivity | split; [apply Hj; reflexivity |]].
    apply Hr. left. reflexivity.
Defined.

(** ** The render loop in closed form *)

Section RenderFacts.

Variables W H : Z.
Variable palette : list RGB.
Variable Math_sqrt : Q -> Q.

Local Abbreviation cell_of := (render_cell palette Math_sqrt).
Local Abbreviation render_all := (render W H palette Math_sqrt).

Lemma render_fold st l out log :
  fold_left (render_step palette Math_sqrt st) l (out, log) =
  (fold_left (fun o i => <[i := fst (cell_of st i)]> o) l out,
   log ++ concat (map (fun i => snd (cell_of st i)) l)).
Proof.
  revert out log. induction l as [|i l IH]; intros out log; cbn [fold_left map concat].
  - now rewrite app_nil_r.
  - unfold render_step at 2. destruct (cell_of st i) as [c calls] eqn:E.
    cbn [fst snd]. rewrite IH. now rewrite <- app_assoc.
Qed.

Lemma fold_insert_notin {A} (f : nat -> A) l (out : list A) i :
  ~ In i l -> fold_left (fun o j => <[j := f j]> o) l out !! i = out !! i.
Proof.
  revert out. induction l as [|j l IH]; intros out Hi; cbn [fold_left]; [reflexivity|].
  rewrite IH by (intros ?; apply Hi; now right).
  apply list_lookup_insert_ne. intros ->. apply Hi. now left.
Qed.

Lemma fold_insert_length {A} (f : nat -> A) l (out : list A) :
  length (fold_left (fun o j => <[j := f j]> o) l out) = length out.
Proof.
  revert out. induction l as [|j l IH]; intros out; cbn [fold_left]; [reflexivity|].
  now rewrite IH, length_insert.
Qed.

Lemma fold_insert_in {A} (f : nat -> A) l (out : list A) i :
  NoDup l -> In i l -> (i < length out)%nat ->
  fold_left (fun o j => <[j := f j]> o) l out !! i = Some (f i).
Proof.
  revert out. induction l as [|j l IH]; intros out Hnd Hi Hlen; [destruct Hi|].
  apply NoDup_cons in Hnd as [Hj Hnd]. cbn [fold_left].
  destruct Hi as [->|Hi].
  - rewrite fold_insert_notin by (now rewrite <- list_elem_of_In).
    now apply list_lookup_insert_eq.
  - apply IH; [assumption | assumption | now rewrite length_insert].
Qed.

(** Every slot of [out] is overwritten once, by its own cell. *)
Lemma render_out st :
  fst (render_all st) = map (fun i => fst (cell_of st i)) (seq 0 (Z.to_nat (W * H))).
Proof.
  unfold render. rewrite render_fold. cbn [fst].
  apply list_eq. intros i.
  destruct (Nat.lt_ge_cases i (Z.to_nat (W * H))) as [Hi|Hi].
  - rewrite fold_insert_in.
    + symmetry. change (map ?f ?l) with (f <$> l).
      rewrite list_lookup_fmap.
      replace (seq 0 (Z.to_nat (W * H)) !! i) with (Some i); [reflexivity|].
      symmetry. apply lookup_seq. split; [reflexivity | assumption].
    + apply NoDup_ListNoDup, List.seq_NoDup.
    + apply in_seq. lia.
    + now rewrite length_replicate.
  - rewrite !lookup_ge_None_2; [reflexivity | |].
    + now rewrite length_map, length_seq.
    + now rewrite fold_insert_length, length_replicate.
Qed.

Lemma render_calls st :
  snd (render_all st) =
  concat (map (fun i => snd (cell_of st i)) (seq 0 (Z.to_nat (W * H)))).
Proof. unfold render. now rewrite render_fold. Qed.

Lemma render_length st : length (fst (render_all st)) = Z.to_nat (W * H).
Proof. now rewrite render_out, length_map, length_seq. Qed.

Lemma render_lookup st i :
  (i < Z.to_nat (W * H))%nat ->
  fst (render_all st) !! i = Some (fst (cell_of st i)).
Proof.
  intros Hi. rewrite render_out. change (map ?f ?l) with (f <$> l).
  rewrite list_lookup_fmap.
  replace (seq 0 (Z.to_nat (W * H)) !! i) with (Some i); [reflexivity|].
  symmetry. apply lookup_seq. split; [reflexivity | assumption].
Qed.

Lemma render_call_inv st c :
  In c (snd (render_all st)) ->
  exists i, (i < Z.to_nat (W * H))%nat /\ In c (snd (cell_of st i)).
Proof.
  rewrite render_calls. intros Hc. apply in_concat in Hc as (l & Hl & Hc).
  apply in_map_iff in Hl as (i & <- & Hi). apply in_seq in Hi.
  exists i. split; [lia | assumption].
Qed.

End RenderFacts.

(** ** Facts about the extent query *)

Lemma Qmin_cases x y : Qmin x y = x \/ Qmin x y = y.
Proof. unfold Qmin, GenericMinMax.gmin. destruct (x ?= y)%Q; auto. Qed.

Lemma Qmax_cases x y : Qmax x y = x \/ Qmax x y = y.
Proof. unfold Qmax, GenericMinMax.gmax. destruct (x ?= y)%Q; auto. Qed.

Lemma MIN_None l : Sql.MIN l = None -> l = [].
Proof. destruct l as [|x l]; [reflexivity|]. cbn. destruct (Sql.MIN l); discriminate. Qed.

Lemma MAX_None l : Sql.MAX l = None -> l = [].
Proof. destruct l as [|x l]; [reflexivity|]. cbn. destruct (Sql.MAX l); discriminate. Qed.

Lemma MIN_In l m : Sql.MIN l = Some m -> In m l.
Proof.
  revert m. induction l as [|x l IH]; intros m; cbn; [discriminate|].
  destruct (Sql.MIN l) as [m'|]; intros [= <-]; [|now left].
  destruct (Qmin_cases x m') as [-> | ->]; [now left | right; now apply IH].
Qed.

Lemma MAX_In l m : Sql.MAX l = Some m -> In m l.
Proof.
  revert m. induction l as [|x l IH]; intros m; cbn; [discriminate|].
  destruct (Sql.MAX l) as [m'|]; intros [= <-]; [|now left].
  destruct (Qmax_cases x m') as [-> | ->]; [now left | right; now apply IH].
Qed.

Lemma MIN_le l m : Sql.MIN l = Some m -> forall x, In x l -> (m <= x)%Q.
Proof.
  revert m. induction l as [|y l IH]; intros m; cbn; [discriminate|].
  destruct (Sql.MIN l) as [m'|] eqn:E; intros [= <-] x [-> | Hx].
  - apply Q.le_min_l.
  - eapply Qle_trans; [apply Q.le_min_r | now apply IH].
  - apply Qle_refl.
  - apply MIN_None in E. subst l. destruct Hx.
Qed.

Lemma MAX_ge l m : Sql.MAX l = Some m -> forall x, In x l -> (x <= m)%Q.
Proof.
  revert m. induction l as [|y l IH]; intros m; cbn; [discriminate|].
  destruct (Sql.MAX l) as [m'|] eqn:E; intros [= <-] x [-> | Hx].
  - apply Q.le_max_l.
  - eapply Qle_trans; [now apply IH | apply Q.le_max_r].
  - apply Qle_refl.
  - apply MAX_None in E. subst l. destruct Hx.
Qed.

Lemma extent_query_nil : extent_query [] = None.
Proof. reflexivity. Qed.

(** The extent holds the coordinates of points of the table and bounds all
    of them. *)
Lemma extent_query_Some tbl e :
  extent_query tbl = Some e ->
  (exists p, In p tbl /\ xmin e = umap_x p) /\
  (exists p, In p tbl /\ xmax e = umap_x p) /\
  (exists p, In p tbl /\ ymin e = umap_y p) /\
  (exists p, In p tbl /\ ymax e = umap_y p) /\
  (forall p, In p tbl ->
     (xmin e <= umap_x p)%Q /\ (umap_x p <= xmax e)%Q /\
     (ymin e <= umap_y p)%Q /\ (umap_y p <= ymax e)%Q).
Proof.
  unfold extent_query.
  destruct (Sql.MIN (map umap_x tbl)) as [x0|] eqn:Ex0; [|discriminate].
  destruct (Sql.MAX (map umap_x tbl)) as [x1|] eqn:Ex1; [|discriminate].
  destruct (Sql.MIN (map umap_y tbl)) as [y0|] eqn:Ey0; [|discriminate].
  destruct (Sql.MAX (map umap_y tbl)) as [y1|] eqn:Ey1; [|discriminate].
  intros [= <-]. cbn [xmin xmax ymin ymax].
  pose proof (MIN_In _ _ Ex0) as (p0 & E0 & H0)%in_map_iff.
  pose proof (MAX_In _ _ Ex1) as (p1 & E1 & H1)%in_map_iff.
  pose proof (MIN_In _ _ Ey0) as (q0 & F0 & G0)%in_map_iff.
  pose proof (MAX_In _ _ Ey1) as (q1 & F1 & G1)%in_map_iff.
  repeat split; eauto.
  - apply (MIN_le _ _ Ex0). now apply in_map.
  - apply (MAX_ge _ _ Ex1). now apply in_map.
  - apply (MIN_le _ _ Ey0). now apply in_map.
  - apply (MAX_ge _ _ Ey1). now apply in_map.
Qed.

(** ** C5, C6, C9: empty cells *)

Lemma render_cell_transparent palette sq st i :
  fst (render_cell palette sq st i) = transparent <->
  Uint32Array.get (totals st) (Z.of_nat i) = 0.
Proof.
  unfold render_cell.
  destruct (Uint32Array.get (totals st) (Z.of_nat i) =? 0) eqn:E.
  - apply Z.eqb_eq in E. now split.
  - apply Z.eqb_neq in E.
    destruct (mixSRGB palette _ _) as [[m0 m1] m2]. cbn [fst].
    split; [discriminate | intros; contradiction].
Qed.

Lemma render_cell_calls palette sq st i c :
  In c (snd (render_cell palette sq st i)) ->
  call_cell c = i /\ Uint32Array.get (totals st) (Z.of_nat i) <> 0.
Proof.
  unfold render_cell.
  destruct (Uint32Array.get (totals st) (Z.of_nat i) =? 0) eqn:E.
  - intros [].
  - apply Z.eqb_neq in E.
    destruct (mixSRGB palette _ _) as [[m0 m1] m2]. cbn [snd].
    intros [<- | [<- | []]]; now split.
Qed.

(** C5: in the array a refresh publishes, a cell holds ["transparent"]
    exactly when its total is 0, and for such a cell the render loop neither
    calls [mixSRGB] nor evaluates the shade. *)
Theorem C5_empty_iff_total_zero
  (W H : Z) (palette : list RGB) (Math_sqrt : Q -> Q) (tbl : list Point) (i : nat) :
  (i < Z.to_nat (W * H))%nat ->
  let tot := Uint32Array.get (totals (aggregates W H tbl)) (Z.of_nat i) in
  (refresh W H palette Math_sqrt tbl !! i = Some transparent <-> tot = 0) /\
  (tot = 0 ->
   forall c, In c (snd (refresh_traced W H palette Math_sqrt tbl)) -> call_cell c <> i).
Proof.
  intros Hi tot. subst tot. unfold refresh, refresh_traced. split.
  - rewrite render_lookup by assumption.
    rewrite <- render_cell_transparent with (palette := palette) (sq := Math_sqrt).
    split; [now intros [= ->] | now intros ->].
  - intros Htot c Hc Hci.
    apply render_call_inv in Hc as (j & _ & Hc).
    apply render_cell_calls in Hc as [Hj Hne]. subst j. rewrite Hci in Hne.
    now apply Hne.
Qed.

Lemma C5_empty_iff_total_zero_witness :
  (refresh 2 2 scenario_palette sqrt_floor32 scenario !! 1%nat = Some transparent
   <-> Uint32Array.get (totals (aggregates 2 2 scenario)) 1 = 0) /\
  (Uint32Array.get (totals (aggregates 2 2 scenario)) 1 = 0 ->
   forall c, In c (snd (refresh_traced 2 2 scenario_palette sqrt_floor32 scenario)) ->
             call_cell c <> 1%nat).
Proof.
  apply (C5_empty_iff_total_zero 2 2 scenario_palette sqrt_floor32 scenario 1).
  vm_compute. lia.
Defined.

Lemma filter_none {A} (f : A -> bool) l :
  (forall x, In x l -> f x = false) -> List.filter f l = [].
Proof.
  induction l as [|x l IH]; intros Hf; cbn; [reflexivity|].
  rewrite (Hf x) by now left. apply IH. intros y Hy. apply Hf. now right.
Qed.

Lemma binned_where_degenerate e p :
  (xmax e <= xmin e)%Q \/ (ymax e <= ymin e)%Q -> binned_where e p = false.
Proof.
  unfold binned_where. intros [Hd|Hd]; apply Qle_bool_iff in Hd; rewrite Hd; cbn.
  - reflexivity.
  - now rewrite andb_false_r.
Qed.

Lemma binning_query_degenerate W H e tbl :
  (xmax e <= xmin e)%Q \/ (ymax e <= ymin e)%Q ->
  binning_query W H (Some e) tbl = [].
Proof.
  intros Hd. unfold binning_query, agg, binned.
  rewrite filter_none; [reflexivity|].
  intros p _. now apply binned_where_degenerate.
Qed.

Lemma get_new len j : Uint32Array.get (Uint32Array.new len) j = 0.
Proof.
  unfold Uint32Array.get, Uint32Array.new. rewrite nth_lookup.
  destruct (replicate (Z.to_nat len) 0 !! Z.to_nat j) as [v|] eqn:E; [|reflexivity].
  apply lookup_replicate in E as [-> _]. reflexivity.
Qed.

Lemma map_constant {A B} (f : A -> B) (c : B) l :
  (forall x, In x l -> f x = c) -> map f l = replicate (length l) c.
Proof.
  induction l as [|x l IH]; intros Hf; cbn; [reflexivity|].
  rewrite (Hf x) by now left. f_equal. apply IH. intros y Hy. apply Hf. now right.
Qed.

Lemma render_no_rows W H palette sq :
  fst (render W H palette sq (accumulate W H [])) =
  replicate (Z.to_nat (W * H)) transparent.
Proof.
  rewrite render_out. rewrite map_constant with (c := transparent).
  - now rewrite length_seq.
  - intros i _. apply render_cell_transparent. cbn. apply get_new.
Qed.

Lemma degenerate_no_rows W H tbl :
  degenerate tbl -> binning_query W H (extent_query tbl) tbl = [].
Proof.
  intros Hd. destruct (extent_query tbl) as [e|] eqn:E; [|reflexivity].
  apply binning_query_degenerate.
  apply extent_query_Some in E
    as ((p0 & Hp0 & E0) & (p1 & Hp1 & E1) & (q0 & Hq0 & F0) & (q1 & Hq1 & F1) & _).
  destruct Hd as [-> | [Hx | Hy]].
  - destruct Hp0.
  - left. rewrite E0, E1. apply Qle_lteq. right. now apply Hx.
  - right. rewrite F0, F1. apply Qle_lteq. right. now apply Hy.
Qed.

(** C6: for an empty table, and for a table whose bounding box has no width
    or no height, the refresh publishes [W*H] entries, all ["transparent"]. *)
Theorem C6_degenerate_all_empty
  (W H : Z) (palette : list RGB) (Math_sqrt : Q -> Q) (tbl : list Point) :
  degenerate tbl ->
  refresh W H palette Math_sqrt tbl = replicate (Z.to_nat (W * H)) transparent.
Proof.
  intros Hd. unfold refresh, refresh_traced, aggregates.
  rewrite degenerate_no_rows by assumption. apply render_no_rows.
Qed.

Lemma C6_degenerate_all_empty_witness :
  refresh 32 32 PALETTE sqrt_floor32 [] = replicate (Z.to_nat (32 * 32)) transparent /\
  refresh 32 32 PALETTE sqrt_floor32 [pt 3 7 0; pt 3 7 1; pt 3 7 1]
  = replicate (Z.to_nat (32 * 32)) transparent /\
  refresh 2 2 PALETTE sqrt_floor32 [pt 3 0 0; pt 3 1 1; pt 3 2 2]
  = replicate (Z.to_nat (2 * 2)) transparent.
Proof.
  split; [|split]; apply C6_degenerate_all_empty.
  - left. reflexivity.
  - right. left. intros p q Hp Hq. cbn in Hp, Hq.
    destruct Hp as [<-|[<-|[<-|[]]]], Hq as [<-|[<-|[<-|[]]]]; reflexivity.
  - right. left. intros p q Hp Hq. cbn in Hp, Hq.
    destruct Hp as [<-|[<-|[<-|[]]]], Hq as [<-|[<-|[<-|[]]]]; reflexivity.
Defined.

(** C9, the mixer as the code has it at [total = 0]: it returns a triple,
    white. *)
Lemma C9_mixer_returns_white_on_zero :
  mixSRGB PALETTE [0; 0; 0; 0] 0 = (255, 255, 255).
Proof. reflexivity. Qed.

(** C9, as the code has it: given [total = 0] the mixer returns the triple
    [(255, 255, 255)] whatever the counts; the render loop never calls it with
    a zero total, and a cell for which it is called is not ["transparent"]. *)
Theorem C9_mixer_white_render_skips
  (W H : Z) (palette : list RGB) (Math_sqrt : Q -> Q) :
  (forall cnts, mixSRGB palette cnts 0 = (255, 255, 255)) /\
  (forall st i cnts total,
     In (call_mixSRGB i cnts total) (snd (render W H palette Math_sqrt st)) ->
     total <> 0 /\ fst (render W H palette Math_sqrt st) !! i <> Some transparent).
Proof.
  split; [reflexivity|].
  intros st i cnts total Hc.
  apply render_call_inv in Hc as (j & Hj & Hc).
  pose proof (render_cell_calls _ _ _ _ _ Hc) as [Hi Hne]. cbn in Hi. subst j.
  split.
  - unfold render_cell in Hc.
    destruct (Uint32Array.get (totals st) (Z.of_nat i) =? 0); [destruct Hc|].
    destruct (mixSRGB palette _ _) as [[m0 m1] m2]. cbn [snd] in Hc.
    destruct Hc as [[= _ <-] | [Hc | []]]; [assumption | discriminate].
  - rewrite render_lookup by assumption. intros [= Ht].
    now apply render_cell_transparent in Ht.
Qed.

Lemma C9_mixer_white_render_skips_witness :
  mixSRGB scenario_palette [7; 7; 7; 7] 0 = (255, 255, 255) /\
  (2 <> 0 /\ refresh 2 2 scenario_palette sqrt_floor32 scenario !! 0%nat
             <> Some transparent).
Proof.
  destruct (C9_mixer_white_render_skips 2 2 scenario_palette sqrt_floor32) as [Hw Hr].
  split; [apply Hw|].
  apply (Hr (aggregates 2 2 scenario) 0%nat [2; 0; 0; 0] 2).
  vm_compute. left. reflexivity.
Defined.

(** ** Invariants of the accumulation loop *)

Lemma Forall_get (P : Z -> Prop) a j :
  P 0 -> Forall P a -> P (Uint32Array.get a j).
Proof.
  intros H0 Ha. unfold Uint32Array.get. rewrite nth_lookup.
  destruct (a !! Z.to_nat j) as [v|] eqn:E; cbn; [|assumption].
  eapply Forall_lookup_1; eassumption.
Qed.

Lemma set_length a j v : length (Uint32Array.set a j v) = length a.
Proof. unfold Uint32Array.set. destruct (Uint32Array.in_range a j); [apply length_insert | reflexivity]. Qed.

Lemma add_length a j v : length (Uint32Array.add a j v) = length a.
Proof. unfold Uint32Array.add. destruct (Uint32Array.in_range a j); [apply length_insert | reflexivity]. Qed.

Lemma Forall_set (P : Z -> Prop) a j v :
  P (v mod Uint32Array.modulus) -> Forall P a -> Forall P (Uint32Array.set a j v).
Proof.
  intros Hv Ha. unfold Uint32Array.set.
  destruct (Uint32Array.in_range a j); [now apply Forall_insert | assumption].
Qed.

Lemma Forall_add (P : Z -> Prop) a j v :
  (forall u, P (u mod Uint32Array.modulus)) -> Forall P a -> Forall P (Uint32Array.add a j v).
Proof.
  intros Hv Ha. unfold Uint32Array.add.
  destruct (Uint32Array.in_range a j); [now apply Forall_insert | assumption].
Qed.

Lemma uint32_mod u : uint32 (u mod Uint32Array.modulus).
Proof. apply Z.mod_pos_bound. reflexivity. Qed.

Lemma uint32_0 : uint32 0.
Proof. split; [lia | reflexivity]. Qed.

Lemma acc_inv_init W H :
  acc_inv W H (mkAgg (Uint32Array.new (W * H)) (Uint32Array.new (W * H * 4)) 0).
Proof.
  unfold Uint32Array.new. split; cbn [totals counts maxTot].
  - apply length_replicate.
  - apply length_replicate.
  - apply Forall_replicate, uint32_0.
  - apply Forall_replicate, uint32_0.
  - apply Forall_replicate. lia.
  - lia.
Qed.

Lemma acc_inv_step W H st r :
  0 <= n_total r -> acc_inv W H st -> acc_inv W H (accumulate_row W st r).
Proof.
  intros Hr [Htl Hcl Ht Hc Hm Hm0]. unfold accumulate_row.
  split; cbn [totals counts maxTot].
  - now rewrite set_length.
  - now rewrite add_length.
  - apply Forall_set; [apply uint32_mod | assumption].
  - apply Forall_add; [apply uint32_mod | assumption].
  - apply Forall_set.
    + pose proof (Z.mod_le (n_total r) Uint32Array.modulus Hr eq_refl).
      destruct (Z.gtb_spec (n_total r) (maxTot st)); lia.
    + eapply Forall_impl; [exact Hm|]. cbn. intros v Hv.
      destruct (Z.gtb_spec (n_total r) (maxTot st)); lia.
  - destruct (Z.gtb_spec (n_total r) (maxTot st)); lia.
Qed.

Lemma acc_inv_fold W H rows st :
  Forall (fun r => 0 <= n_total r) rows -> acc_inv W H st ->
  acc_inv W H (fold_left (accumulate_row W) rows st).
Proof.
  revert st. induction rows as [|r rows IH]; intros st Hrows Hst; [assumption|].
  apply Forall_cons in Hrows as [Hr Hrows]. cbn [fold_left].
  apply IH; [assumption | now apply acc_inv_step].
Qed.

(** Every group of [agg] counts at least one row, so every window sum is
    non-negative. *)
Lemma bump_pos k groups :
  Forall (fun g => 1 <= snd g) groups -> Forall (fun g => 1 <= snd g) (bump k groups).
Proof.
  induction groups as [|[k' c] rest IH]; intros Hg; cbn.
  - constructor; [cbn; lia | constructor].
  - apply Forall_cons in Hg as [Hc Hrest]. cbn in Hc.
    destruct (key_compare k k').
    + constructor; [cbn; lia | assumption].
    + constructor; [cbn; lia | now constructor].
    + constructor; [assumption | now apply IH].
Qed.

Lemma group_count_pos keys : Forall (fun g => 1 <= snd g) (group_count keys).
Proof.
  induction keys as [|k keys IH]; cbn; [constructor | now apply bump_pos].
Qed.

Lemma partition_sum_nonneg groups k :
  Forall (fun g => 1 <= snd g) groups -> 0 <= partition_sum groups k.
Proof.
  unfold partition_sum. induction groups as [|g rest IH]; intros Hg; cbn; [lia|].
  apply Forall_cons in Hg as [Hc Hrest].
  destruct (same_cell k (fst g)); cbn; [|now apply IH].
  specialize (IH Hrest). lia.
Qed.

Lemma with_totals_nonneg groups :
  Forall (fun g => 1 <= snd g) groups ->
  Forall (fun r => 1 <= n r /\ 0 <= n_total r) (with_totals groups).
Proof.
  intros Hg. unfold with_totals. apply Forall_forall. intros r Hr.
  apply list_elem_of_In, in_map_iff in Hr as ([[[i j] c] cnt] & <- & Hin).
  cbn [n n_total]. split.
  - rewrite Forall_forall in Hg. apply list_elem_of_In in Hin. apply (Hg _ Hin).
  - now apply partition_sum_nonneg.
Qed.

Lemma binning_query_nonneg W H e tbl :
  Forall (fun r => 0 <= n_total r) (binning_query W H e tbl).
Proof.
  destruct e as [e|]; cbn; [|constructor].
  eapply Forall_impl; [apply with_totals_nonneg, group_count_pos|].
  cbn. intros r [_ Hr]. exact Hr.
Qed.

Lemma aggregates_inv W H tbl : acc_inv W H (aggregates W H tbl).
Proof.
  unfold aggregates, accumulate.
  apply acc_inv_fold; [apply binning_query_nonneg | apply acc_inv_init].
Qed.

(** ** The render loop in rounded arithmetic *)

(** With the identity for [R] the rounded definitions are the exact ones. *)
Lemma unrounded_render W H palette sq st :
  Rounded.render (fun q => q) W H palette sq st = render W H palette sq st.
Proof. reflexivity. Qed.

Section RoundedRenderFacts.

Variable R : Q -> Q.
Variables W H : Z.
Variable palette : list RGB.
Variable Math_sqrt : Q -> Q.

Local Abbreviation rounded_cell := (Rounded.render_cell R palette Math_sqrt).
Local Abbreviation rounded_render := (Rounded.render R W H palette Math_sqrt).

Lemma rounded_render_fold st l out log :
  fold_left (Rounded.render_step R palette Math_sqrt st) l (out, log) =
  (fold_left (fun o i => <[i := fst (rounded_cell st i)]> o) l out,
   log ++ concat (map (fun i => snd (rounded_cell st i)) l)).
Proof.
  revert out log. induction l as [|i l IH]; intros out log; cbn [fold_left map concat].
  - now rewrite app_nil_r.
  - unfold Rounded.render_step at 2. destruct (rounded_cell st i) as [c calls] eqn:E.
    cbn [fst snd]. rewrite IH. now rewrite <- app_assoc.
Qed.

Lemma rounded_render_lookup st i :
  (i < Z.to_nat (W * H))%nat ->
  fst (rounded_render st) !! i = Some (fst (rounded_cell st i)).
Proof.
  intros Hi. unfold Rounded.render. rewrite rounded_render_fold. cbn [fst].
  apply (fold_insert_in (fun j => fst (rounded_cell st j))).
  - apply NoDup_ListNoDup, List.seq_NoDup.
  - apply in_seq. lia.
  - now rewrite length_replicate.
Qed.

Lemma rounded_render_call_inv st c :
  In c (snd (rounded_render st)) ->
  exists i, (i < Z.to_nat (W * H))%nat /\ In c (snd (rounded_cell st i)).
Proof.
  unfold Rounded.render. rewrite rounded_render_fold. cbn [snd app].
  intros Hc. apply in_concat in Hc as (l & Hl & Hc).
  apply in_map_iff in Hl as (i & <- & Hi). apply in_seq in Hi.
  exists i. split; [lia | assumption].
Qed.

Lemma rounded_render_call_intro st i c :
  (i < Z.to_nat (W * H))%nat -> In c (snd (rounded_cell st i)) ->
  In c (snd (rounded_render st)).
Proof.
  intros Hi Hc. unfold Rounded.render. rewrite rounded_render_fold. cbn [snd app].
  apply in_concat. exists (snd (rounded_cell st i)). split; [|assumption].
  apply in_map_iff. exists i. split; [reflexivity|]. apply in_seq. lia.
Qed.

(** What the body of the loop does for a cell whose total is not 0. *)
Lemma rounded_cell_nonempty st i :
  let tot := Uint32Array.get (totals st) (Z.of_nat i) in
  let cnts := cell_counts_of st (Z.of_nat i) in
  let s := Rounded.shade_of R Math_sqrt tot (maxTot st) in
  tot <> 0 ->
  exists m0 m1 m2,
    Rounded.mixSRGB R palette cnts tot = (m0, m1, m2) /\
    rounded_cell st i =
    (rgb (Z.min 255 (Math_round (R (inject_Z m0 * s)%Q)))
         (Z.min 255 (Math_round (R (inject_Z m1 * s)%Q)))
         (Z.min 255 (Math_round (R (inject_Z m2 * s)%Q))),
     [ call_mixSRGB i cnts tot; eval_shade i tot (maxTot st) s ]).
Proof.
  intros tot cnts s Ht. unfold Rounded.render_cell. fold tot cnts.
  apply Z.eqb_neq in Ht. rewrite Ht.
  destruct (Rounded.mixSRGB R palette cnts tot) as [[m0 m1] m2].
  exists m0, m1, m2. split; reflexivity.
Qed.

Lemma rounded_cell_empty st i :
  Uint32Array.get (totals st) (Z.of_nat i) = 0 ->
  rounded_cell st i = (transparent, []).
Proof. intros Ht. unfold Rounded.render_cell. now rewrite Ht. Qed.

End RoundedRenderFacts.

Lemma Float32_binning_query_nonneg lit span W H e tbl :
  Forall (fun r => 0 <= n_total r) (Float32.binning_query lit span W H e tbl).
Proof.
  destruct e as [e|]; cbn; [|constructor].
  eapply Forall_impl; [apply with_totals_nonneg, group_count_pos|].
  cbn. intros r [_ Hr]. exact Hr.
Qed.

Lemma Float32_aggregates_inv lit span W H tbl :
  acc_inv W H (Float32.aggregates lit span W H tbl).
Proof.
  unfold Float32.aggregates, accumulate.
  apply acc_inv_fold; [apply Float32_binning_query_nonneg | apply acc_inv_init].
Qed.

(** ** C7: the shade formula is evaluated on guarded values only *)

Lemma or_else_nonzero a b : a <> 0 -> or_else a b = a.
Proof. intros Ha. unfold or_else. now apply Z.eqb_neq in Ha as ->. Qed.

(** C7: whenever a refresh evaluates the shade formula for a cell, the cell's
    total is at least 1 and [maxTot] is at least that total, so [maxTot || 1]
    is [maxTot] itself and is not 0; the multiplier is
    [0.15 + 0.85 * sqrt (total / maxTot)] as floating-point arithmetic, with
    rounding [R], evaluates it, and the colour published for the cell is the
    mixed colour times that multiplier, channel by channel, rounded and
    capped at 255.  This holds whatever the engine makes of the bounds. *)
Theorem C7_shade_guarded
  (R : Q -> Q) (W H : Z) (palette : list RGB) (Math_sqrt : Q -> Q)
  (lit : Q -> Q) (span : Q -> Q -> Q) (tbl : list Point)
  (i : nat) (tot mx : Z) (s : Q) :
  let st := Float32.aggregates lit span W H tbl in
  In (eval_shade i tot mx s)
     (snd (Rounded.refresh_traced R W H palette Math_sqrt lit span tbl)) ->
  tot = Uint32Array.get (totals st) (Z.of_nat i) /\
  mx = maxTot st /\
  1 <= tot /\ tot <= mx /\ or_else mx 1 = mx /\
  s = R (R 0.15 + R (R 0.85 * Math_sqrt (R (inject_Z tot / inject_Z mx))))%Q /\
  exists m0 m1 m2,
    Rounded.mixSRGB R palette (cell_counts_of st (Z.of_nat i)) tot = (m0, m1, m2) /\
    Rounded.refresh R W H palette Math_sqrt lit span tbl !! i =
    Some (rgb (Z.min 255 (Math_round (R (inject_Z m0 * s)%Q)))
              (Z.min 255 (Math_round (R (inject_Z m1 * s)%Q)))
              (Z.min 255 (Math_round (R (inject_Z m2 * s)%Q)))).
Proof.
  intros st Hc. unfold Rounded.refresh, Rounded.refresh_traced in *. fold st in Hc |- *.
  apply rounded_render_call_inv in Hc as (j & Hj & Hc).
  pose proof (Float32_aggregates_inv lit span W H tbl) as Inv. fold st in Inv.
  destruct (Z.eq_dec (Uint32Array.get (totals st) (Z.of_nat j)) 0) as [E0|Hne].
  { rewrite (rounded_cell_empty R palette Math_sqrt st j E0) in Hc. destruct Hc. }
  destruct (rounded_cell_nonempty R palette Math_sqrt st j Hne)
    as (m0 & m1 & m2 & Hmix & Hcell).
  rewrite Hcell in Hc. cbn [snd] in Hc.
  destruct Hc as [Hc | [Hc | []]]; [discriminate|].
  injection Hc as <- <- <- <-.
  set (tot := Uint32Array.get (totals st) (Z.of_nat j)) in *.
  assert (Hu : uint32 tot) by (apply Forall_get; [apply uint32_0 | apply Inv]).
  assert (Hle : tot <= maxTot st).
  { apply (Forall_get (fun v => v <= maxTot st)); [apply Inv | apply Inv]. }
  destruct Hu as [Hu0 _].
  assert (Hmx : or_else (maxTot st) 1 = maxTot st) by (apply or_else_nonzero; lia).
  repeat split; try reflexivity; try lia; try assumption.
  - unfold Rounded.shade_of. now rewrite Hmx.
  - exists m0, m1, m2. split; [assumption|].
    rewrite rounded_render_lookup by assumption. now rewrite Hcell.
Qed.

(** The cell of [shade_table] with 4 of the 16 points of the densest cell:
    the multiplier is a little below 0.575 and the red channel, 180 before
    shading, is published as 103. *)
Lemma C7_shade_guarded_witness :
  let R := IEEE.binary64 in
  let st := Float32.aggregates Float32.lit_whole Float32.span_whole
              GridMap_W GridMap_H shade_table in
  let s := Rounded.shade_of R IEEE.sqrt64 4 16 in
  4 = Uint32Array.get (totals st) (Z.of_nat 1) /\
  16 = maxTot st /\
  1 <= 4 /\ 4 <= 16 /\ or_else 16 1 = 16 /\
  s = R (R 0.15 + R (R 0.85 * IEEE.sqrt64 (R (inject_Z 4 / inject_Z 16))))%Q /\
  exists m0 m1 m2,
    Rounded.mixSRGB R PALETTE (cell_counts_of st (Z.of_nat 1)) 4 = (m0, m1, m2) /\
    Rounded.refresh R GridMap_W GridMap_H PALETTE IEEE.sqrt64
                    Float32.lit_whole Float32.span_whole shade_table !! 1%nat =
    Some (rgb (Z.min 255 (Math_round (R (inject_Z m0 * s)%Q)))
              (Z.min 255 (Math_round (R (inject_Z m1 * s)%Q)))
              (Z.min 255 (Math_round (R (inject_Z m2 * s)%Q)))).
Proof.
  intros R st s.
  apply (C7_shade_guarded R GridMap_W GridMap_H PALETTE IEEE.sqrt64
           Float32.lit_whole Float32.span_whole shade_table 1 4 16 s).
  vm_compute. right. right. right. left. reflexivity.
Defined.

(** The same cell, evaluated: shaded in binary64 the red channel is 103,
    where exact arithmetic gives 104. *)
Example shade_table_published :
  Rounded.refresh IEEE.binary64 GridMap_W GridMap_H PALETTE IEEE.sqrt64
                  Float32.lit_whole Float32.span_whole shade_table !! 1%nat
  = Some (rgb 103 32 43) /\
  Rounded.refresh (fun q => q) GridMap_W GridMap_H PALETTE IEEE.sqrt64
                  Float32.lit_whole Float32.span_whole shade_table !! 1%nat
  = Some (rgb 104 32 43).
Proof. split; vm_compute; reflexivity. Qed.

(** ** The mixer's loop as a sum *)

Lemma sumQ_app f l1 l2 : (sumQ f (l1 ++ l2) == sumQ f l1 + sumQ f l2)%Q.
Proof.
  induction l1 as [|k l1 IH]; cbn [sumQ app]; [ring|]. rewrite IH. ring.
Qed.

Lemma sumQ_ext f g l :
  (forall k, In k l -> (f k == g k)%Q) -> (sumQ f l == sumQ g l)%Q.
Proof.
  induction l as [|k l IH]; intros Hfg; cbn [sumQ]; [reflexivity|].
  rewrite (Hfg k) by now left. rewrite IH; [reflexivity|].
  intros j Hj. apply Hfg. now right.
Qed.

Lemma sumQ_zero f l : (forall k, In k l -> (f k == 0)%Q) -> (sumQ f l == 0)%Q.
Proof.
  induction l as [|k l IH]; intros Hf; cbn [sumQ]; [reflexivity|].
  rewrite (Hf k) by now left. rewrite IH; [ring|].
  intros j Hj. apply Hf. now right.
Qed.

Lemma sumQ_nonneg f l : (forall k, In k l -> (0 <= f k)%Q) -> (0 <= sumQ f l)%Q.
Proof.
  induction l as [|k l IH]; intros Hf; cbn [sumQ]; [apply Qle_refl|].
  assert (0 <= f k)%Q by (apply Hf; now left).
  assert (0 <= sumQ f l)%Q by (apply IH; intros j Hj; apply Hf; now right).
  lra.
Qed.

Section Mixer.

Variable palette : list RGB.
Variable cnts : list Z.
Variable total : Z.

Local Abbreviation term := (mix_term palette cnts total).

Lemma mix_step_channels acc k :
  let acc' := mix_step palette cnts total acc k in
  fst (fst acc') = (fst (fst acc) + term red k)%Q /\
  snd (fst acc') = (snd (fst acc) + term green k)%Q /\
  snd acc' = (snd acc + term blue k)%Q.
Proof.
  destruct acc as [[r g] b]. unfold mix_step, mix_term, red, green, blue.
  destruct (nth k palette (0, 0, 0)) as [[pr pg] pb]. cbn. auto.
Qed.

Lemma mix_fold_channels l acc :
  let acc' := fold_left (mix_step palette cnts total) l acc in
  (fst (fst acc') == fst (fst acc) + sumQ (term red) l)%Q /\
  (snd (fst acc') == snd (fst acc) + sumQ (term green) l)%Q /\
  (snd acc' == snd acc + sumQ (term blue) l)%Q.
Proof.
  revert acc. induction l as [|k l IH]; intros acc; cbn [fold_left sumQ].
  - repeat split; ring.
  - destruct (IH (mix_step palette cnts total acc k)) as (Hr & Hg & Hb).
    destruct (mix_step_channels acc k) as (Er & Eg & Eb).
    cbn zeta in *. rewrite Er in Hr. rewrite Eg in Hg. rewrite Eb in Hb.
    rewrite Hr, Hg, Hb. repeat split; ring.
Qed.

(** [mixSRGB] for a non-zero total: each channel is the rounded sum of the
    loop's terms over the indices below both lengths. *)
Lemma mixSRGB_sum :
  total <> 0 ->
  let l := seq 0 (Nat.min (length cnts) (length palette)) in
  mixSRGB palette cnts total =
  (Math_round (sumQ (term red) l),
   Math_round (sumQ (term green) l),
   Math_round (sumQ (term blue) l)).
Proof.
  intros Ht l. unfold mixSRGB. apply Z.eqb_neq in Ht. rewrite Ht.
  pose proof (mix_fold_channels l (0, 0, 0)%Q) as H. cbn zeta in H. fold l.
  destruct (fold_left (mix_step palette cnts total) l (0, 0, 0)%Q) as [[r g] b].
  cbn [fst snd] in H. destruct H as (Hr & Hg & Hb).
  unfold Math_round.
  f_equal; [f_equal|]; apply Qfloor_comp.
  - rewrite Hr. ring.
  - rewrite Hg. ring.
  - rewrite Hb. ring.
Qed.

End Mixer.

(** ** The mixer's loop in binary64 *)

Lemma mix_term_beyond_counts palette cnts total ch k :
  (length cnts <= k)%nat -> (mix_term palette cnts total ch k == 0)%Q.
Proof.
  intros Hk. unfold mix_term. rewrite (nth_overflow cnts 0 Hk).
  unfold Qdiv. change (inject_Z 0) with 0%Q. ring.
Qed.

Lemma mix_sum_is_spec_sum ch palette cnts total :
  (sumQ (mix_term palette cnts total ch)
        (seq 0 (Nat.min (length cnts) (length palette)))
   == sumQ (spec_term ch palette cnts total) (seq 0 (length palette)))%Q.
Proof.
  set (n := Nat.min (length cnts) (length palette)).
  replace (length palette) with (n + (length palette - n))%nat by lia.
  rewrite seq_app, sumQ_app. cbn [Nat.add].
  rewrite (sumQ_ext (spec_term ch palette cnts total) (mix_term palette cnts total ch)).
  2:{ intros k _. unfold spec_term, mix_term, Qdiv. ring. }
  rewrite (sumQ_ext (spec_term ch palette cnts total) (mix_term palette cnts total ch)
             (seq n _)).
  2:{ intros k _. unfold spec_term, mix_term, Qdiv. ring. }
  rewrite (sumQ_zero _ (seq n _)); [ring|].
  intros k Hk. apply in_seq in Hk. apply mix_term_beyond_counts. lia.
Qed.

(** The relative error of one binary64 operation, with the absolute error of
    the subnormal range added. *)
Lemma binary64_error q :
  (Qabs (IEEE.binary64 q - q) <= (Qabs q + 1) * (1 # 9007199254740992))%Q.
Proof.
  pose proof (round_error 53 (-1074) q) as He. fold (IEEE.binary64 q) in He.
  assert (H1 : (2 ^ (- (53)) == 1 # 9007199254740992)%Q) by reflexivity.
  assert (H2 : (2 ^ (-1074 - 1) <= 1 # 9007199254740992)%Q).
  { rewrite <- H1. apply pow2_le. lia. }
  rewrite H1 in He. lra.
Qed.

Lemma binary64_nonneg q : (0 <= q)%Q -> (0 <= IEEE.binary64 q)%Q.
Proof. apply round_nonneg. Qed.

Lemma Qabs_le_iff x y : (Qabs x <= y)%Q <-> (- y <= x)%Q /\ (x <= y)%Q.
Proof. apply Qabs_Qle_condition. Qed.

(** One turn of the loop on one channel: a palette channel [P] in [[0,255]],
    a weight [x] in [[0,1]], the running sum [a] within [E] of the exact
    partial sum [S]. *)
Lemma mix_channel_step (P x a S E : Q) :
  (0 <= P <= 255)%Q -> (0 <= x <= 1)%Q -> (0 <= S <= 765)%Q -> (0 <= E <= 1)%Q ->
  (Qabs (a - S) <= E)%Q ->
  (Qabs (IEEE.binary64 (a + IEEE.binary64 (P * IEEE.binary64 x)) - (S + P * x))
   <= E + (1 # 4398046511104))%Q.
Proof.
  intros HP Hx HS HE Ha.
  set (w := IEEE.binary64 x).
  pose proof (binary64_error x) as Ew. fold w in Ew.
  pose proof (binary64_nonneg x ltac:(lra)) as Hw0. fold w in Hw0.
  rewrite (Qabs_pos x) in Ew by lra. apply Qabs_le_iff in Ew.
  assert (Hy : (Qabs (P * w - P * x) <= 510 # 9007199254740992)%Q).
  { setoid_replace (P * w - P * x)%Q with (P * (w - x))%Q using relation Qeq by ring.
    rewrite Qabs_Qmult, (Qabs_pos P) by lra.
    apply Qle_trans with (255 * (2 # 9007199254740992))%Q; [|unfold Qle; cbn; lia].
    apply Qmult_le_compat_nonneg; split; try lra.
    - apply Qabs_nonneg.
    - apply Qabs_le_iff. lra. }
  assert (Hv : (0 <= P * x <= 255)%Q).
  { split; [apply Qmult_le_0_compat; lra|].
    apply Qle_trans with (255 * 1)%Q; [|lra].
    apply Qmult_le_compat_nonneg; lra. }
  assert (Hy0 : (0 <= P * w)%Q) by (apply Qmult_le_0_compat; lra).
  set (y := (P * w)%Q) in *. set (v := (P * x)%Q) in *.
  apply Qabs_le_iff in Hy.
  set (t := IEEE.binary64 y).
  pose proof (binary64_error y) as Et. fold t in Et.
  rewrite (Qabs_pos y) in Et by lra. apply Qabs_le_iff in Et.
  pose proof (binary64_nonneg y Hy0) as Ht0. fold t in Ht0.
  apply Qabs_le_iff in Ha.
  set (z := (a + t)%Q).
  pose proof (binary64_error z) as Ez.
  assert (Hz : (Qabs z <= 1277)%Q) by (apply Qabs_le_iff; unfold z; lra).
  apply Qabs_le_iff in Ez. apply Qabs_le_iff. unfold z in *. lra.
Qed.

Section MixChannel.

Variables P X : nat -> Q.
Hypothesis P_bounds : forall k, (0 <= P k <= 255)%Q.
Hypothesis X_bounds : forall k, (0 <= X k <= 1)%Q.

Local Abbreviation turn :=
  (fun (a : Q) (k : nat) => IEEE.binary64 (a + IEEE.binary64 (P k * IEEE.binary64 (X k)))%Q).

Lemma sumQ_bounds l :
  (0 <= sumQ (fun k => P k * X k) l <= 255 * inject_Z (Z.of_nat (length l)))%Q.
Proof.
  induction l as [|k l IH]; cbn [sumQ length];
    [change (inject_Z (Z.of_nat 0)) with 0%Q; lra|].
  rewrite Nat2Z.inj_succ. unfold Z.succ. rewrite inject_Z_plus.
  change (inject_Z 1) with 1%Q.
  assert (0 <= P k * X k <= 255)%Q.
  { pose proof (P_bounds k). pose proof (X_bounds k).
    split; [apply Qmult_le_0_compat; lra|].
    apply Qle_trans with (255 * 1)%Q; [|lra].
    apply Qmult_le_compat_nonneg; lra. }
  lra.
Qed.

(** After at most four turns the running sum is within [2^-40] of the
    exact sum. *)
Lemma mix_channel_fold l : forall (a S : Q) (n : nat),
  (length l + n <= 4)%nat ->
  (0 <= S <= 255 * inject_Z (Z.of_nat n))%Q ->
  (Qabs (a - S) <= inject_Z (Z.of_nat n) * (1 # 4398046511104))%Q ->
  (Qabs (fold_left turn l a - (S + sumQ (fun k => P k * X k) l))
   <= inject_Z (Z.of_nat (n + length l)) * (1 # 4398046511104))%Q.
Proof.
  induction l as [|k l IH]; intros a S n Hlen HS Ha; cbn [fold_left sumQ length].
  - rewrite Nat.add_0_r.
    setoid_replace (a - (S + 0))%Q with (a - S)%Q using relation Qeq by ring.
    exact Ha.
  - cbn [length] in Hlen.
    assert (Hn : (0 <= inject_Z (Z.of_nat n) <= 3)%Q).
    { split; [change 0%Q with (inject_Z 0) | change 3%Q with (inject_Z 3)];
        rewrite <- Zle_Qle; lia. }
    pose proof (P_bounds k) as HP. pose proof (X_bounds k) as HX.
    assert (Hv : (0 <= P k * X k <= 255)%Q).
    { split; [apply Qmult_le_0_compat; lra|].
      apply Qle_trans with (255 * 1)%Q; [|lra].
      apply Qmult_le_compat_nonneg; lra. }
    pose proof (mix_channel_step (P k) (X k) a S
                  (inject_Z (Z.of_nat n) * (1 # 4398046511104))%Q HP HX) as Hstep.
    specialize (IH (turn a k) (S + P k * X k)%Q (Datatypes.S n)).
    replace (n + Datatypes.S (length l))%nat with (Datatypes.S n + length l)%nat by lia.
    setoid_replace (S + (P k * X k + sumQ (fun k0 => P k0 * X k0) l))%Q
      with (S + P k * X k + sumQ (fun k0 => P k0 * X k0) l)%Q using relation Qeq by ring.
    apply IH.
    + lia.
    + rewrite Nat2Z.inj_succ. unfold Z.succ. rewrite inject_Z_plus.
      change (inject_Z 1) with 1%Q. lra.
    + rewrite Nat2Z.inj_succ. unfold Z.succ. rewrite inject_Z_plus.
      change (inject_Z 1) with 1%Q.
      setoid_replace ((inject_Z (Z.of_nat n) + 1) * (1 # 4398046511104))%Q
        with (inject_Z (Z.of_nat n) * (1 # 4398046511104) + (1 # 4398046511104))%Q
        using relation Qeq by ring.
      apply Hstep; [lra | | assumption].
      split; [|unfold Qle in *; cbn in *; lia].
      apply Qmult_le_0_compat; [lra | unfold Qle; cbn; lia].
Qed.

End MixChannel.

(** The loop of [mixSRGB], channel by channel. *)
Lemma rounded_mix_fold (R : Q -> Q) (palette : list RGB) (cnts : list Z) (total : Z) l :
  forall acc,
  let turn (ch : RGB -> Z) (a : Q) (k : nat) :=
    let p := ch (nth k palette (0, 0, 0)) in
    let c := nth k cnts 0 in
    R (a + R (inject_Z p * R (inject_Z c / inject_Z total)))%Q in
  let acc' := fold_left (Rounded.mix_step R palette cnts total) l acc in
  fst (fst acc') = fold_left (turn red) l (fst (fst acc)) /\
  snd (fst acc') = fold_left (turn green) l (snd (fst acc)) /\
  snd acc' = fold_left (turn blue) l (snd acc).
Proof.
  induction l as [|k l IH]; intros acc; cbn [fold_left]; [auto|].
  cbn zeta in IH |- *.
  destruct (IH (Rounded.mix_step R palette cnts total acc k)) as (Hr & Hg & Hb).
  rewrite Hr, Hg, Hb. clear IH Hr Hg Hb.
  destruct acc as [[r g] b]. unfold Rounded.mix_step, red, green, blue.
  destruct (nth k palette (0, 0, 0)) as [[pr pg] pb]. cbn [fst snd]. auto.
Qed.

Lemma Math_round_error x : (Qabs (inject_Z (Math_round x) - x) <= 1 # 2)%Q.
Proof.
  unfold Math_round.
  pose proof (Qfloor_le (x + (1 # 2))) as Hlo.
  pose proof (Qlt_floor (x + (1 # 2))) as Hhi.
  rewrite inject_Z_plus in Hhi. change (inject_Z 1) with 1%Q in Hhi.
  apply Qabs_le_iff. lra.
Qed.

Lemma PALETTE_channels k :
  let c := nth k PALETTE (0, 0, 0) in
  0 <= red c <= 255 /\ 0 <= green c <= 255 /\ 0 <= blue c <= 255.
Proof.
  do 4 (destruct k as [|k]; [cbn; lia|]). destruct k; cbn; lia.
Qed.

(** The exact mixed channel is a fraction over the total. *)
Lemma exact_mix_fraction ch cnts total :
  total <> 0 ->
  let s := ch (nth 0 PALETTE (0, 0, 0)) * nth 0 cnts 0
           + ch (nth 1 PALETTE (0, 0, 0)) * nth 1 cnts 0
           + ch (nth 2 PALETTE (0, 0, 0)) * nth 2 cnts 0
           + ch (nth 3 PALETTE (0, 0, 0)) * nth 3 cnts 0 in
  (exact_mix ch cnts total == inject_Z s / inject_Z total)%Q.
Proof.
  intros Ht s. subst s. unfold exact_mix, spec_term. cbn [length PALETTE seq sumQ].
  rewrite !inject_Z_plus, !inject_Z_mult. field.
  intros Hc. apply Ht. unfold Qeq in Hc. cbn in Hc. lia.
Qed.

Lemma Qdiv_le_mult a b c : (0 < b)%Q -> (a / b <= c)%Q -> (a <= c * b)%Q.
Proof.
  intros Hb H. setoid_replace a with (a / b * b)%Q using relation Qeq by (field; lra).
  apply Qmult_le_compat_r; lra.
Qed.

Lemma Qdiv_ge_mult a b c : (0 < b)%Q -> (c <= a / b)%Q -> (c * b <= a)%Q.
Proof.
  intros Hb H. setoid_replace a with (a / b * b)%Q using relation Qeq by (field; lra).
  apply Qmult_le_compat_r; lra.
Qed.

(** An integer within [1/2 + 2^-40] of a fraction over [t < 2^32] is within
    [1/2] of it: twice the distance times [t] is an integer. *)
Lemma nearest_of_fraction (r s t : Z) :
  0 < t < 2 ^ 32 ->
  (Qabs (inject_Z r - inject_Z s / inject_Z t) <= (1 # 2) + (1 # 1099511627776))%Q ->
  (Qabs (inject_Z r - inject_Z s / inject_Z t) <= 1 # 2)%Q.
Proof.
  intros Ht Hd.
  assert (Ht0 : (0 < inject_Z t)%Q) by (change 0%Q with (inject_Z 0); rewrite <- Zlt_Qlt; lia).
  assert (Ht1 : (inject_Z t < 4294967296)%Q)
    by (change 4294967296%Q with (inject_Z (2 ^ 32)); rewrite <- Zlt_Qlt; lia).
  assert (E : (inject_Z r - inject_Z s / inject_Z t
               == inject_Z (2 * r * t - 2 * s) / (2 * inject_Z t))%Q).
  { unfold Z.sub. rewrite inject_Z_plus, inject_Z_opp, !inject_Z_mult.
    change (inject_Z 2) with 2%Q. field. lra. }
  rewrite E in Hd |- *. set (D := 2 * r * t - 2 * s) in *.
  apply Qabs_le_iff in Hd. destruct Hd as [Hd1 Hd2].
  assert (H2t : (0 < 2 * inject_Z t)%Q) by lra.
  assert (Hup : (inject_Z D < inject_Z (t + 1))%Q).
  { rewrite inject_Z_plus. change (inject_Z 1) with 1%Q.
    apply Qle_lt_trans with (((1 # 2) + (1 # 1099511627776)) * (2 * inject_Z t))%Q; [|lra].
    apply Qdiv_le_mult in Hd2; [lra | assumption]. }
  assert (Hlow : (inject_Z (- (t + 1)) < inject_Z D)%Q).
  { rewrite inject_Z_opp, inject_Z_plus. change (inject_Z 1) with 1%Q.
    apply Qlt_le_trans with (- ((1 # 2) + (1 # 1099511627776)) * (2 * inject_Z t))%Q; [lra|].
    apply Qdiv_ge_mult in Hd1; [lra | assumption]. }
  rewrite <- Zlt_Qlt in Hup, Hlow.
  assert (HD : - t <= D <= t) by lia.
  apply Qabs_le_iff. split.
  - apply Qle_shift_div_l; [assumption|].
    setoid_replace (- (1 # 2) * (2 * inject_Z t))%Q with (inject_Z (- t)) using relation Qeq
      by (rewrite inject_Z_opp; ring).
    rewrite <- Zle_Qle. lia.
  - apply Qle_shift_div_r; [assumption|].
    setoid_replace ((1 # 2) * (2 * inject_Z t))%Q with (inject_Z t) using relation Qeq by ring.
    rewrite <- Zle_Qle. lia.
Qed.

(** A channel of [mixSRGB] in binary64 is an integer nearest to the exact
    sum. *)
Lemma mixSRGB_channel_nearest (ch : RGB -> Z) (cnts : list Z) (total : Z) (a : Q) :
  0 < total < 2 ^ 32 -> Forall (fun c => 0 <= c <= total) cnts ->
  (forall k, 0 <= ch (nth k PALETTE (0, 0, 0)) <= 255) ->
  a = fold_left
        (fun (a : Q) (k : nat) =>
           let p := ch (nth k PALETTE (0, 0, 0)) in
           let c := nth k cnts 0 in
           IEEE.binary64
             (a + IEEE.binary64
                    (inject_Z p * IEEE.binary64 (inject_Z c / inject_Z total)))%Q)
        (seq 0 (Nat.min (length cnts) (length PALETTE))) 0%Q ->
  (Qabs (inject_Z (Math_round a) - exact_mix ch cnts total) <= 1 # 2)%Q.
Proof.
  intros Ht Hc Hch ->.
  assert (Ht0 : (0 < inject_Z total)%Q)
    by (change 0%Q with (inject_Z 0); rewrite <- Zlt_Qlt; lia).
  set (P := fun k : nat => inject_Z (ch (nth k PALETTE (0, 0, 0)))).
  set (X := fun k : nat => let c := nth k cnts 0 in (inject_Z c / inject_Z total)%Q).
  assert (HP : forall k, (0 <= P k <= 255)%Q).
  { intros k. unfold P. destruct (Hch k).
    split; [change 0%Q with (inject_Z 0) | change 255%Q with (inject_Z 255)];
      now rewrite <- Zle_Qle. }
  assert (HX : forall k, (0 <= X k <= 1)%Q).
  { intros k. unfold X. cbn zeta.
    assert (Hk : 0 <= nth k cnts 0 <= total).
    { rewrite nth_lookup. destruct (cnts !! k) as [c|] eqn:E; cbn; [|lia].
      rewrite Forall_lookup in Hc. apply (Hc _ _ E). }
    split.
    - apply Qle_shift_div_l; [assumption|]. rewrite Qmult_0_l.
      change 0%Q with (inject_Z 0). rewrite <- Zle_Qle. lia.
    - apply Qle_shift_div_r; [assumption|]. rewrite Qmult_1_l.
      rewrite <- Zle_Qle. lia. }
  set (l := seq 0 (Nat.min (length cnts) (length PALETTE))).
  assert (Hl : (length l + 0 <= 4)%nat).
  { unfold l. rewrite length_seq. cbn [length PALETTE]. lia. }
  pose proof (mix_channel_fold P X HP HX l 0%Q 0%Q 0%nat Hl) as Hfold.
  change (fold_left _ l 0%Q) with
    (fold_left (fun (a : Q) (k : nat) =>
                  IEEE.binary64 (a + IEEE.binary64 (P k * IEEE.binary64 (X k)))%Q) l 0%Q).
  set (acc := fold_left _ l 0%Q) in *.
  assert (Hsum : (sumQ (fun k => P k * X k) l == exact_mix ch cnts total)%Q).
  { unfold exact_mix. rewrite <- mix_sum_is_spec_sum. fold l.
    apply sumQ_ext. intros k _. reflexivity. }
  assert (Hacc : (Qabs (acc - exact_mix ch cnts total) <= 1 # 1099511627776)%Q).
  { rewrite <- Hsum.
    assert (Hf : (Qabs (acc - (0 + sumQ (fun k => P k * X k) l))
                  <= inject_Z (Z.of_nat (0 + length l)) * (1 # 4398046511104))%Q).
    { apply Hfold.
      - change (inject_Z (Z.of_nat 0)) with 0%Q. lra.
      - change (inject_Z (Z.of_nat 0)) with 0%Q.
        setoid_replace (0 - 0)%Q with 0%Q using relation Qeq by ring.
        change (Qabs 0) with 0%Q. lra. }
    assert (Hlen : (inject_Z (Z.of_nat (0 + length l)) <= 4)%Q)
      by (change 4%Q with (inject_Z 4); rewrite <- Zle_Qle; lia).
    assert (Hlen0 : (0 <= inject_Z (Z.of_nat (0 + length l)))%Q)
      by (change 0%Q with (inject_Z 0); rewrite <- Zle_Qle; lia).
    apply Qabs_le_iff in Hf. apply Qabs_le_iff. lra. }
  pose proof (Math_round_error acc) as Hr.
  pose proof (exact_mix_fraction ch cnts total ltac:(lia)) as Hfrac. cbn zeta in Hfrac.
  rewrite Hfrac in Hacc |- *.
  apply nearest_of_fraction; [assumption|].
  apply Qabs_le_iff in Hacc, Hr. apply Qabs_le_iff. lra.
Qed.

(** ** C8: channel bounds *)

Lemma Math_round_nonneg x : (0 <= x)%Q -> 0 <= Math_round x.
Proof.
  intros Hx. unfold Math_round.
  change 0 with (Qfloor 0). apply Qfloor_resp_le. lra.
Qed.

Lemma inject_Z_nonneg z : 0 <= z -> (0 <= inject_Z z)%Q.
Proof. intros Hz. change 0%Q with (inject_Z 0). now rewrite <- Zle_Qle. Qed.

Lemma palette_nth_nonneg palette k :
  palette_nonneg palette ->
  let c := nth k palette (0, 0, 0) in 0 <= red c /\ 0 <= green c /\ 0 <= blue c.
Proof.
  intros Hp. cbn zeta. rewrite nth_lookup.
  destruct (palette !! k) as [c|] eqn:E; cbn.
  - unfold palette_nonneg in Hp. rewrite Forall_lookup in Hp. apply (Hp _ _ E).
  - unfold red, green, blue. cbn. lia.
Qed.

Lemma counts_nth_nonneg (cnts : list Z) k :
  Forall (fun v => 0 <= v) cnts -> 0 <= nth k cnts 0.
Proof.
  intros Hc. rewrite nth_lookup.
  destruct (cnts !! k) as [c|] eqn:E; cbn; [|lia].
  rewrite Forall_lookup in Hc. apply (Hc _ _ E).
Qed.

Lemma mix_term_nonneg palette cnts total ch k :
  0 <= ch (nth k palette (0, 0, 0)) -> Forall (fun v => 0 <= v) cnts -> 0 < total ->
  (0 <= mix_term palette cnts total ch k)%Q.
Proof.
  intros Hp Hc Ht. unfold mix_term. cbn zeta.
  apply Qmult_le_0_compat; [now apply inject_Z_nonneg|].
  apply Qle_shift_div_l.
  - change 0%Q with (inject_Z 0). now rewrite <- Zlt_Qlt.
  - rewrite Qmult_0_l. apply inject_Z_nonneg. now apply counts_nth_nonneg.
Qed.

Lemma mixSRGB_nonneg palette cnts total :
  palette_nonneg palette -> Forall (fun v => 0 <= v) cnts -> 0 < total ->
  let m := mixSRGB palette cnts total in 0 <= red m /\ 0 <= green m /\ 0 <= blue m.
Proof.
  intros Hp Hc Ht. cbn zeta. rewrite mixSRGB_sum by lia. cbn zeta.
  unfold red at 1, green at 1, blue at 1. cbn [fst snd].
  repeat split; apply Math_round_nonneg, sumQ_nonneg; intros k _;
    apply mix_term_nonneg; try assumption;
    apply (palette_nth_nonneg palette k Hp).
Qed.

Lemma shade_of_nonneg sq tot mx :
  (forall x, (0 <= x)%Q -> (0 <= sq x)%Q) -> 0 <= tot -> 0 <= mx ->
  (0 <= shade_of sq tot mx)%Q.
Proof.
  intros Hsq Ht Hm. unfold shade_of.
  assert (Ho : 0 < or_else mx 1) by (unfold or_else; destruct (Z.eqb_spec mx 0); lia).
  assert (0 <= sq (inject_Z tot / inject_Z (or_else mx 1)))%Q.
  { apply Hsq. apply Qle_shift_div_l.
    - change 0%Q with (inject_Z 0). now rewrite <- Zlt_Qlt.
    - rewrite Qmult_0_l. now apply inject_Z_nonneg. }
  lra.
Qed.

Lemma channel_bounds m s :
  0 <= m -> (0 <= s)%Q -> 0 <= Z.min 255 (Math_round (inject_Z m * s)) <= 255.
Proof.
  intros Hm Hs.
  assert (0 <= Math_round (inject_Z m * s)).
  { apply Math_round_nonneg, Qmult_le_0_compat; [now apply inject_Z_nonneg | assumption]. }
  lia.
Qed.

(** C8: with palette channels that are not negative and a square root that is
    not negative, every colour a refresh publishes has its three channels in
    [[0, 255]]. *)
Theorem C8_channel_bounds
  (W H : Z) (palette : list RGB) (Math_sqrt : Q -> Q) (tbl : list Point)
  (i : nat) (r g b : Z) :
  palette_nonneg palette ->
  (forall x, (0 <= x)%Q -> (0 <= Math_sqrt x)%Q) ->
  refresh W H palette Math_sqrt tbl !! i = Some (rgb r g b) ->
  0 <= r <= 255 /\ 0 <= g <= 255 /\ 0 <= b <= 255.
Proof.
  intros Hp Hsq Hi. unfold refresh, refresh_traced in Hi.
  assert (Hlt : (i < Z.to_nat (W * H))%nat).
  { apply lookup_lt_Some in Hi. now rewrite render_length in Hi. }
  rewrite render_lookup in Hi by assumption. injection Hi as Hi.
  pose proof (aggregates_inv W H tbl) as Inv.
  set (st := aggregates W H tbl) in *.
  unfold render_cell in Hi.
  set (tot := Uint32Array.get (totals st) (Z.of_nat i)) in *.
  assert (Hu : uint32 tot) by (apply Forall_get; [apply uint32_0 | apply Inv]).
  destruct (Z.eqb_spec tot 0) as [|Hne]; [discriminate|].
  set (cnts := cell_counts_of st (Z.of_nat i)) in Hi.
  assert (Hc : Forall (fun v => 0 <= v) cnts).
  { unfold cnts, cell_counts_of. repeat constructor;
      apply (Forall_get (fun v => 0 <= v)); try lia;
      (eapply Forall_impl; [apply Inv|]); intros v [Hv _]; exact Hv. }
  destruct Hu as [Hu0 _].
  pose proof (mixSRGB_nonneg palette cnts tot Hp Hc ltac:(lia)) as Hm.
  destruct (mixSRGB palette cnts tot) as [[m0 m1] m2].
  unfold red, green, blue in Hm. cbn [fst snd] in Hm, Hi.
  destruct Hm as (H0 & H1 & H2).
  assert (Hs : (0 <= shade_of Math_sqrt tot (maxTot st))%Q)
    by (apply shade_of_nonneg; [assumption | lia | apply Inv]).
  injection Hi as <- <- <-.
  repeat split; now apply channel_bounds.
Qed.

Lemma sqrt_floor32_nonneg x : (0 <= x)%Q -> (0 <= sqrt_floor32 x)%Q.
Proof.
  intros _. unfold sqrt_floor32, Qle. cbn [Qnum Qden].
  pose proof (Z.sqrt_nonneg (Qfloor (x * inject_Z (2 ^ 64)))). lia.
Qed.

Lemma PALETTE_nonneg : palette_nonneg PALETTE.
Proof. unfold palette_nonneg, PALETTE, red, green, blue. repeat constructor; cbn; lia. Qed.

Lemma C8_channel_bounds_witness :
  0 <= 255 <= 255 /\ 0 <= 110 <= 255 /\ 0 <= 157 <= 255.
Proof.
  apply (C8_channel_bounds GridMap_W GridMap_H PALETTE sqrt_floor32
           overflow_alone 1 255 110 157).
  - apply PALETTE_nonneg.
  - apply sqrt_floor32_nonneg.
  - vm_compute. reflexivity.
Defined.

(** ** Grouping does not depend on the order of the rows *)

Lemma key_compare_spec a b :
  CompareSpec (a = b) (key_lt a b) (key_lt b a) (key_compare a b).
Proof.
  destruct a as [[ai aj] ac], b as [[bi bj] bc]. unfold key_compare, key_lt.
  destruct (Z.compare_spec aj bj); [|constructor; lia|constructor; lia].
  destruct (Z.compare_spec ai bi); [|constructor; lia|constructor; lia].
  destruct (Z.compare_spec ac bc); constructor; [congruence | lia | lia].
Qed.

Lemma key_lt_irrefl a : ~ key_lt a a.
Proof. destruct a as [[ai aj] ac]. unfold key_lt. lia. Qed.

Lemma key_lt_asym a b : key_lt a b -> key_lt b a -> False.
Proof. destruct a as [[ai aj] ac], b as [[bi bj] bc]. unfold key_lt. lia. Qed.

Lemma key_lt_trans a b c : key_lt a b -> key_lt b c -> key_lt a c.
Proof.
  destruct a as [[ai aj] ac], b as [[bi bj] bc], c as [[ci cj] cc].
  unfold key_lt. lia.
Qed.

Ltac key_cases :=
  repeat match goal with
    | |- context [key_compare ?a ?b] =>
        destruct (key_compare_spec a b); subst; cbn [bump]
    end.

Ltac key_absurd :=
  match goal with
  | H : key_lt ?a ?a |- _ => destruct (key_lt_irrefl a H)
  | H1 : key_lt ?a ?b, H2 : key_lt ?b ?a |- _ => destruct (key_lt_asym a b H1 H2)
  | H1 : key_lt ?a ?b, H2 : key_lt ?b ?c, H3 : key_lt ?c ?a |- _ =>
      destruct (key_lt_asym a c (key_lt_trans a b c H1 H2) H3)
  end.

Lemma bump_comm k1 k2 groups :
  bump k1 (bump k2 groups) = bump k2 (bump k1 groups).
Proof.
  induction groups as [|[k c] rest IH]; cbn [bump].
  - key_cases; try reflexivity; try key_absurd.
  - key_cases; try reflexivity; try key_absurd.
    now rewrite IH.
Qed.

Lemma group_count_perm keys keys' :
  Permutation keys keys' -> group_count keys = group_count keys'.
Proof.
  unfold group_count. induction 1; cbn [fold_right].
  - reflexivity.
  - now f_equal.
  - apply bump_comm.
  - congruence.
Qed.

Lemma filter_perm {A} (f : A -> bool) l l' :
  Permutation l l' -> Permutation (List.filter f l) (List.filter f l').
Proof.
  induction 1; cbn.
  - constructor.
  - destruct (f x); [now constructor | assumption].
  - destruct (f x), (f y); try reflexivity. apply perm_swap.
  - etransitivity; eassumption.
Qed.

Lemma agg_perm W H e tbl tbl' :
  Permutation tbl tbl' -> agg W H e tbl = agg W H e tbl'.
Proof.
  intros Hp. unfold agg, binned. apply group_count_perm.
  apply omap_Permutation, Permutation_map, filter_perm, Hp.
Qed.

(** ** The queries do not depend on how the extent is written *)

Lemma bin_expr_equiv u lo hi lo' hi' N :
  (lo == lo')%Q -> (hi == hi')%Q -> bin_expr u lo hi N = bin_expr u lo' hi' N.
Proof.
  intros Hlo Hhi. unfold bin_expr, Sql.NULLIF.
  assert (Hd : (hi - lo == hi' - lo')%Q) by (rewrite Hlo, Hhi; reflexivity).
  rewrite (Qeqb_comp _ _ Hd 0%Q 0%Q (Qeq_refl 0)).
  destruct (Qeq_bool (hi' - lo') 0); [reflexivity|].
  f_equal. apply Qfloor_comp. rewrite Hd, Hlo. reflexivity.
Qed.

Lemma binned_where_equiv e e' p :
  extent_equiv e e' -> binned_where e p = binned_where e' p.
Proof.
  intros (H0 & H1 & H2 & H3). unfold binned_where, Sql.BETWEEN.
  now rewrite H0, H1, H2, H3.
Qed.

Lemma binned_row_equiv W H e e' p :
  extent_equiv e e' -> binned_row W H e p = binned_row W H e' p.
Proof.
  intros (H0 & H1 & H2 & H3). unfold binned_row.
  now rewrite (bin_expr_equiv _ _ _ _ _ W H0 H1), (bin_expr_equiv _ _ _ _ _ H H2 H3).
Qed.

Lemma agg_equiv W H e e' tbl :
  extent_equiv e e' -> agg W H e tbl = agg W H e' tbl.
Proof.
  intros He. unfold agg, binned. do 2 f_equal.
  rewrite (List.filter_ext _ _ (fun p => binned_where_equiv e e' p He)).
  apply map_ext. intros p. now apply binned_row_equiv.
Qed.

Lemma extent_query_None tbl : extent_query tbl = None -> tbl = [].
Proof.
  unfold extent_query. intros E.
  destruct (Sql.MIN (map umap_x tbl)) as [x0|] eqn:Ex0.
  - destruct (Sql.MAX (map umap_x tbl)) as [x1|] eqn:Ex1.
    + destruct (Sql.MIN (map umap_y tbl)) as [y0|] eqn:Ey0.
      * destruct (Sql.MAX (map umap_y tbl)) as [y1|] eqn:Ey1; [discriminate|].
        apply MAX_None in Ey1. now destruct tbl.
      * apply MIN_None in Ey0. now destruct tbl.
    + apply MAX_None in Ex1. now destruct tbl.
  - apply MIN_None in Ex0. now destruct tbl.
Qed.

Lemma extent_bounds_unique tbl tbl' e e' :
  (forall p, In p tbl -> In p tbl') ->
  (forall p, In p tbl' -> In p tbl) ->
  extent_query tbl = Some e -> extent_query tbl' = Some e' -> extent_equiv e e'.
Proof.
  intros Hsub Hsup E E'.
  apply extent_query_Some in E
    as ((p0 & Hp0 & E0) & (p1 & Hp1 & E1) & (q0 & Hq0 & F0) & (q1 & Hq1 & F1) & B).
  apply extent_query_Some in E'
    as ((p0' & Hp0' & E0') & (p1' & Hp1' & E1') & (q0' & Hq0' & F0') & (q1' & Hq1' & F1') & B').
  pose proof (B' p0 (Hsub _ Hp0)) as (? & _ & _ & _).
  pose proof (B' p1 (Hsub _ Hp1)) as (_ & ? & _ & _).
  pose proof (B' q0 (Hsub _ Hq0)) as (_ & _ & ? & _).
  pose proof (B' q1 (Hsub _ Hq1)) as (_ & _ & _ & ?).
  pose proof (B p0' (Hsup _ Hp0')) as (? & _ & _ & _).
  pose proof (B p1' (Hsup _ Hp1')) as (_ & ? & _ & _).
  pose proof (B q0' (Hsup _ Hq0')) as (_ & _ & ? & _).
  pose proof (B q1' (Hsup _ Hq1')) as (_ & _ & _ & ?).
  unfold extent_equiv. rewrite E0, E1, F0, F1 in *. rewrite E0', E1', F0', F1' in *.
  repeat split; apply Qle_antisym; assumption.
Qed.

Lemma binning_query_perm W H tbl tbl' :
  Permutation tbl tbl' ->
  binning_query W H (extent_query tbl) tbl = binning_query W H (extent_query tbl') tbl'.
Proof.
  intros Hp.
  destruct (extent_query tbl) as [e|] eqn:E, (extent_query tbl') as [e'|] eqn:E';
    cbn [binning_query].
  - f_equal. rewrite (agg_perm W H e tbl tbl' Hp). apply agg_equiv.
    apply (extent_bounds_unique tbl tbl'); try assumption.
    + intros p. now apply Permutation_in.
    + intros p. apply Permutation_in. now symmetry.
  - apply extent_query_None in E'. subst tbl'.
    symmetry in Hp. apply Permutation_nil in Hp. subst tbl. discriminate.
  - apply extent_query_None in E. subst tbl.
    apply Permutation_nil in Hp. subst tbl'. discriminate.
  - reflexivity.
Qed.

(** ** C4: the order of the points does not matter *)

(** C4: two tables that hold the same points in a different order give the
    same aggregates and the same published array; a refresh is a function of
    the table, so repeating it on the same table gives the same array. *)
Theorem C4_order_independent
  (W H : Z) (palette : list RGB) (Math_sqrt : Q -> Q) (tbl tbl' : list Point) :
  Permutation tbl tbl' ->
  aggregates W H tbl = aggregates W H tbl' /\
  refresh W H palette Math_sqrt tbl = refresh W H palette Math_sqrt tbl'.
Proof.
  intros Hp.
  assert (Ha : aggregates W H tbl = aggregates W H tbl').
  { unfold aggregates. now rewrite (binning_query_perm W H tbl tbl' Hp). }
  split; [assumption|].
  unfold refresh, refresh_traced. now rewrite Ha.
Qed.

Lemma C4_order_independent_witness :
  aggregates 2 2 [pt 9 9 1; pt 0 0 0; pt 4 5 3; pt 0 0 0]
  = aggregates 2 2 [pt 0 0 0; pt 4 5 3; pt 0 0 0; pt 9 9 1] /\
  refresh 2 2 scenario_palette sqrt_floor32 [pt 9 9 1; pt 0 0 0; pt 4 5 3; pt 0 0 0]
  = refresh 2 2 scenario_palette sqrt_floor32 [pt 0 0 0; pt 4 5 3; pt 0 0 0; pt 9 9 1].
Proof.
  apply C4_order_independent.
  change [pt 9 9 1; pt 0 0 0; pt 4 5 3; pt 0 0 0]
    with ([pt 9 9 1] ++ [pt 0 0 0; pt 4 5 3; pt 0 0 0]).
  change [pt 0 0 0; pt 4 5 3; pt 0 0 0; pt 9 9 1]
    with ([pt 0 0 0; pt 4 5 3; pt 0 0 0] ++ [pt 9 9 1]).
  apply Permutation_app_comm.
Defined.

(** ** Groups, window sums and typed arrays *)

Lemma weight_bump P k groups :
  weight P (bump k groups) = (if P k then 1 else 0) + weight P groups.
Proof.
  induction groups as [|[k' c] rest IH]; cbn [bump weight]; [reflexivity|].
  destruct (key_compare_spec k k') as [->| |]; cbn [weight].
  - destruct (P k'); lia.
  - reflexivity.
  - rewrite IH. lia.
Qed.

Lemma weight_group_count P keys : weight P (group_count keys) = tally P keys.
Proof.
  induction keys as [|k keys IH]; cbn [group_count fold_right tally]; [reflexivity|].
  fold (group_count keys). now rewrite weight_bump, IH.
Qed.

Lemma partition_sum_weight groups k :
  partition_sum groups k = weight (same_cell k) groups.
Proof.
  unfold partition_sum.
  induction groups as [|[k' c] rest IH]; cbn [List.filter map fold_right weight fst];
    [reflexivity|].
  destruct (same_cell k k'); cbn [map fold_right snd]; rewrite IH; reflexivity.
Qed.

Lemma tally_ext P Q keys :
  (forall k, In k keys -> P k = Q k) -> tally P keys = tally Q keys.
Proof.
  induction keys as [|k keys IH]; intros HPQ; cbn [tally]; [reflexivity|].
  rewrite (HPQ k) by now left. f_equal. apply IH. intros k' Hk'. apply HPQ. now right.
Qed.

Lemma tally_bounds P keys : 0 <= tally P keys <= Z.of_nat (length keys).
Proof.
  induction keys as [|k keys IH]; cbn [tally length]; [lia|].
  destruct (P k); lia.
Qed.

Lemma weight_none P groups :
  (forall g, In g groups -> P (fst g) = false) -> weight P groups = 0.
Proof.
  induction groups as [|[k c] rest IH]; intros HP; cbn [weight]; [reflexivity|].
  pose proof (HP (k, c) (or_introl eq_refl)) as Hk. cbn [fst] in Hk.
  rewrite Hk. rewrite IH; [reflexivity|].
  intros g Hg. apply HP. now right.
Qed.

(** Reads after writes on a typed array. *)
Lemma get_set a j v m :
  0 <= m < Z.of_nat (length a) ->
  Uint32Array.get (Uint32Array.set a j v) m =
  if m =? j then v mod Uint32Array.modulus else Uint32Array.get a m.
Proof.
  intros Hm. unfold Uint32Array.set, Uint32Array.get, Uint32Array.in_range.
  destruct (Z.eqb_spec m j) as [->|Hne].
  - replace ((0 <=? j) && (j <? Z.of_nat (length a))) with true
      by (symmetry; apply andb_true_iff; split; [apply Z.leb_le | apply Z.ltb_lt]; lia).
    rewrite nth_lookup, list_lookup_insert_eq by lia. reflexivity.
  - destruct ((0 <=? j) && (j <? Z.of_nat (length a))) eqn:E; [|reflexivity].
    apply andb_true_iff in E as [E1%Z.leb_le E2%Z.ltb_lt].
    rewrite !nth_lookup, list_lookup_insert_ne by lia. reflexivity.
Qed.

Lemma get_add a j v m :
  0 <= m < Z.of_nat (length a) ->
  Uint32Array.get (Uint32Array.add a j v) m =
  if m =? j then (Uint32Array.get a m + v) mod Uint32Array.modulus
  else Uint32Array.get a m.
Proof.
  intros Hm. unfold Uint32Array.add, Uint32Array.in_range.
  destruct (Z.eqb_spec m j) as [->|Hne].
  - replace ((0 <=? j) && (j <? Z.of_nat (length a))) with true
      by (symmetry; apply andb_true_iff; split; [apply Z.leb_le | apply Z.ltb_lt]; lia).
    unfold Uint32Array.get at 1.
    rewrite nth_lookup, list_lookup_insert_eq by lia. reflexivity.
  - destruct ((0 <=? j) && (j <? Z.of_nat (length a))) eqn:E; [|reflexivity].
    apply andb_true_iff in E as [E1%Z.leb_le E2%Z.ltb_lt].
    unfold Uint32Array.get at 1 3.
    rewrite !nth_lookup, list_lookup_insert_ne by lia. reflexivity.
Qed.

Lemma with_totals_rows_of groups : with_totals groups = rows_of groups groups.
Proof. reflexivity. Qed.

Lemma accumulate_counts W G groups st m :
  Forall uint32 (counts st) -> 0 <= m < Z.of_nat (length (counts st)) ->
  Uint32Array.get (counts (fold_left (accumulate_row W) (rows_of G groups) st)) m =
  (Uint32Array.get (counts st) m + weight (fun k => slot W k =? m) groups)
    mod Uint32Array.modulus.
Proof.
  revert st. induction groups as [|[[[i j] c] cnt] rest IH]; intros st Hu Hm;
    cbn [rows_of map fold_left weight].
  - rewrite Z.add_0_r. symmetry. apply Z.mod_small.
    apply (Forall_get uint32); [apply uint32_0 | assumption].
  - fold (rows_of G rest). rewrite IH.
    + unfold accumulate_row at 1. cbn [counts ix iy cat n].
      rewrite get_add by assumption.
      unfold slot, cell_idx, key_cat. rewrite (Z.eqb_sym ((j * W + i) * 4 + c) m).
      destruct (m =? (j * W + i) * 4 + c).
      * rewrite Z.add_mod_idemp_l by discriminate. f_equal. lia.
      * f_equal.
    + unfold accumulate_row. cbn [counts]. apply Forall_add; [apply uint32_mod | assumption].
    + unfold accumulate_row. cbn [counts]. now rewrite add_length.
Qed.

Lemma accumulate_totals W (T : Z -> Z) G groups st t :
  (forall g, In g groups -> partition_sum G (fst g) = T (cell_idx W (fst g))) ->
  0 <= t < Z.of_nat (length (totals st)) ->
  Uint32Array.get (totals (fold_left (accumulate_row W) (rows_of G groups) st)) t =
  if existsb (fun g => cell_idx W (fst g) =? t) groups
  then T t mod Uint32Array.modulus
  else Uint32Array.get (totals st) t.
Proof.
  revert st. induction groups as [|[[[i j] c] cnt] rest IH]; intros st HT Ht;
    cbn [rows_of map fold_left existsb]; [reflexivity|].
  fold (rows_of G rest). rewrite IH.
  - unfold accumulate_row at 1. cbn [totals ix iy n_total fst cell_idx].
    rewrite get_set by assumption.
    pose proof (HT _ (or_introl eq_refl)) as Hg. cbn [fst cell_idx] in Hg.
    rewrite Hg. rewrite (Z.eqb_sym (j * W + i) t).
    destruct (Z.eqb_spec t (j * W + i)) as [->|Hne]; cbn [orb].
    + now destruct (existsb _ rest).
    + reflexivity.
  - intros g Hg. apply HT. now right.
  - unfold accumulate_row. cbn [totals]. now rewrite set_length.
Qed.

Lemma agg_where_Some W H r k :
  agg_where W H r = Some k ->
  let '(i, j, c) := k in
  r = (Some i, Some j, c) /\ 0 <= i <= W - 1 /\ 0 <= j <= H - 1.
Proof.
  destruct r as [[[i|] [j|]] c]; cbn; try discriminate.
  unfold Sql.BETWEENZ.
  destruct (0 <=? i) eqn:E1, (i <=? W - 1) eqn:E2,
           (0 <=? j) eqn:E3, (j <=? H - 1) eqn:E4; cbn; try discriminate.
  intros [= <-]. apply Z.leb_le in E1, E2, E3, E4. auto.
Qed.

Lemma accepted_keys_in_range W H e tbl k :
  In k (accepted_keys W H e tbl) ->
  let '(i, j, _) := k in 0 <= i <= W - 1 /\ 0 <= j <= H - 1.
Proof.
  unfold accepted_keys. intros Hk.
  apply list_elem_of_In, list_elem_of_omap in Hk as (r & _ & Hr).
  apply agg_where_Some in Hr. destruct k as [[i j] c]. tauto.
Qed.

Lemma cell_idx_inj W i j i' j' :
  0 <= i <= W - 1 -> 0 <= i' <= W - 1 ->
  (j * W + i =? j' * W + i') = (i =? i') && (j =? j').
Proof.
  intros Hi Hi'.
  destruct (Z.eqb_spec i i') as [->|Hne], (Z.eqb_spec j j') as [->|Hne'];
    cbn [andb]; try (apply Z.eqb_refl); apply Z.eqb_neq; nia.
Qed.

Lemma bump_keys k groups g :
  In g (bump k groups) -> fst g = k \/ In (fst g) (map fst groups).
Proof.
  induction groups as [|[k' c] rest IH]; cbn [bump].
  - intros [<- | []]. now left.
  - destruct (key_compare_spec k k') as [->| |]; cbn [In map fst].
    + intros [<- | Hg]; [now left | right; right; now apply in_map].
    + intros [<- | [<- | Hg]]; [now left | right; now left | right; right; now apply in_map].
    + intros [<- | Hg]; [right; now left|].
      destruct (IH Hg) as [?|?]; [now left | right; now right].
Qed.

Lemma group_count_keys keys g : In g (group_count keys) -> In (fst g) keys.
Proof.
  revert g. induction keys as [|k keys IH]; intros g; cbn [group_count fold_right];
    [intros []|].
  fold (group_count keys). intros Hg. apply bump_keys in Hg as [<- | Hg]; [now left|].
  right. apply in_map_iff in Hg as (g' & <- & Hg'). now apply IH.
Qed.

Section Stored.

Variables W H : Z.
Variable e : Extent.
Variable tbl : list Point.

Local Abbreviation keys := (accepted_keys W H e tbl).
Local Abbreviation st := (accumulate W H (with_totals (agg W H e tbl))).

(** What the delegated strategy stores: the number of accepted points of the
    cell, and the number of accepted points that map to the slot, both modulo
    2^32. *)
Lemma stored_total t :
  0 <= t < W * H ->
  Uint32Array.get (totals st) t =
  tally (fun k => cell_idx W k =? t) keys mod Uint32Array.modulus.
Proof.
  intros Ht. unfold accumulate. rewrite with_totals_rows_of.
  rewrite (accumulate_totals W (fun t => tally (fun k => cell_idx W k =? t) keys)).
  - cbn [totals]. rewrite get_new.
    destruct (existsb _ _) eqn:E; [reflexivity|].
    rewrite <- weight_group_count.
    change (group_count (accepted_keys W H e tbl)) with (agg W H e tbl).
    rewrite weight_none; [reflexivity|].
    intros g Hg. destruct (cell_idx W (fst g) =? t) eqn:Eg; [|reflexivity].
    assert (existsb (fun g => cell_idx W (fst g) =? t) (agg W H e tbl) = true)
      by (apply existsb_exists; eauto).
    congruence.
  - intros g Hg. rewrite partition_sum_weight.
    change (agg W H e tbl) with (group_count keys). rewrite weight_group_count.
    apply tally_ext. intros k Hk.
    pose proof (group_count_keys _ _ Hg) as Hg'.
    apply accepted_keys_in_range in Hg'. apply accepted_keys_in_range in Hk.
    destruct (fst g) as [[gi gj] gc], k as [[ki kj] kc]. cbn [same_cell cell_idx].
    rewrite cell_idx_inj by tauto.
    now rewrite (Z.eqb_sym gi ki), (Z.eqb_sym gj kj).
  - cbn [totals]. unfold Uint32Array.new. rewrite length_replicate. lia.
Qed.

Lemma stored_count m :
  0 <= m < W * H * 4 ->
  Uint32Array.get (counts st) m =
  tally (fun k => slot W k =? m) keys mod Uint32Array.modulus.
Proof.
  intros Hm. unfold accumulate. rewrite with_totals_rows_of.
  rewrite accumulate_counts.
  - cbn [counts]. rewrite get_new, Z.add_0_l.
    change (agg W H e tbl) with (group_count keys). now rewrite weight_group_count.
  - cbn [counts]. apply Forall_replicate, uint32_0.
  - cbn [counts]. unfold Uint32Array.new. rewrite length_replicate. lia.
Qed.

End Stored.

(** ** What the arrays hold, for any list of accepted keys *)

Section StoredKeys.

Variables W H : Z.
Variable keys : list Key.
Hypothesis keys_in_range :
  forall k, In k keys -> let '(i, j, _) := k in 0 <= i <= W - 1 /\ 0 <= j <= H - 1.

Local Abbreviation stored := (accumulate W H (with_totals (group_count keys))).

Lemma keys_total t :
  0 <= t < W * H ->
  Uint32Array.get (totals stored) t =
  tally (fun k => cell_idx W k =? t) keys mod Uint32Array.modulus.
Proof.
  intros Ht. unfold accumulate. rewrite with_totals_rows_of.
  rewrite (accumulate_totals W (fun t => tally (fun k => cell_idx W k =? t) keys)).
  - cbn [totals]. rewrite get_new.
    destruct (existsb _ _) eqn:E; [reflexivity|].
    rewrite <- weight_group_count.
    rewrite weight_none; [reflexivity|].
    intros g Hg. destruct (cell_idx W (fst g) =? t) eqn:Eg; [|reflexivity].
    assert (existsb (fun g => cell_idx W (fst g) =? t) (group_count keys) = true)
      by (apply existsb_exists; eauto).
    congruence.
  - intros g Hg. rewrite partition_sum_weight, weight_group_count.
    apply tally_ext. intros k Hk.
    pose proof (group_count_keys _ _ Hg) as Hg'.
    apply keys_in_range in Hg'. apply keys_in_range in Hk.
    destruct (fst g) as [[gi gj] gc], k as [[ki kj] kc]. cbn [same_cell cell_idx].
    rewrite cell_idx_inj by tauto.
    now rewrite (Z.eqb_sym gi ki), (Z.eqb_sym gj kj).
  - cbn [totals]. unfold Uint32Array.new. rewrite length_replicate. lia.
Qed.

Lemma keys_count m :
  0 <= m < W * H * 4 ->
  Uint32Array.get (counts stored) m =
  tally (fun k => slot W k =? m) keys mod Uint32Array.modulus.
Proof.
  intros Hm. unfold accumulate. rewrite with_totals_rows_of.
  rewrite accumulate_counts.
  - cbn [counts]. rewrite get_new, Z.add_0_l. now rewrite weight_group_count.
  - cbn [counts]. apply Forall_replicate, uint32_0.
  - cbn [counts]. unfold Uint32Array.new. rewrite length_replicate. lia.
Qed.

End StoredKeys.

Lemma Float32_accepted_keys_cons lit span W H e p tbl :
  Float32.accepted_keys lit span W H e (p :: tbl) =
  match Float32.sql_bin lit span W H e p with
  | Some k => k :: Float32.accepted_keys lit span W H e tbl
  | None => Float32.accepted_keys lit span W H e tbl
  end.
Proof.
  unfold Float32.accepted_keys, Float32.binned, Float32.sql_bin. cbn [List.filter].
  destruct (Float32.binned_where lit e p); [|reflexivity].
  cbn [map omap list_omap].
  now destruct (agg_where W H (Float32.binned_row lit span W H e p)).
Qed.

Lemma Float32_accepted_keys_in_range lit span W H e tbl k :
  In k (Float32.accepted_keys lit span W H e tbl) ->
  let '(i, j, _) := k in 0 <= i <= W - 1 /\ 0 <= j <= H - 1.
Proof.
  unfold Float32.accepted_keys. intros Hk.
  apply list_elem_of_In, list_elem_of_omap in Hk as (r & _ & Hr).
  apply agg_where_Some in Hr. destruct k as [[i j] c]. tauto.
Qed.

Lemma Float32_accepted_keys_length lit span W H e tbl :
  (length (Float32.accepted_keys lit span W H e tbl) <= length tbl)%nat.
Proof.
  induction tbl as [|p tbl IH]; [apply Nat.le_refl|].
  rewrite Float32_accepted_keys_cons.
  destruct (Float32.sql_bin lit span W H e p); cbn [length]; lia.
Qed.

Lemma Float32_accepted_keys_categories lit span W H e tbl k :
  In k (Float32.accepted_keys lit span W H e tbl) ->
  exists p, In p tbl /\ key_cat k = cat_id p.
Proof.
  unfold Float32.accepted_keys, Float32.binned. intros Hk.
  apply list_elem_of_In, list_elem_of_omap in Hk as (r & Hr & Hk).
  apply list_elem_of_In, in_map_iff in Hr as (p & <- & Hp).
  apply filter_In in Hp as [Hp _].
  exists p. split; [assumption|].
  apply agg_where_Some in Hk. destruct k as [[i j] c]. destruct Hk as [Hk _].
  unfold Float32.binned_row in Hk. now injection Hk as _ _ <-.
Qed.

(** ** C2: a category index at or above the palette length *)




Lemma tally_le (P Q : Key -> bool) keys :
  (forall k, In k keys -> P k = true -> Q k = true) -> tally P keys <= tally Q keys.
Proof.
  induction keys as [|k keys IH]; intros HPQ; cbn [tally]; [lia|].
  assert (tally P keys <= tally Q keys) by (apply IH; intros; apply HPQ; auto; now right).
  destruct (P k) eqn:EP.
  - rewrite (HPQ k (or_introl eq_refl) EP). lia.
  - destruct (Q k); lia.
Qed.

(** With categories 0 to 3 a counter of a cell never exceeds the total of the
    cell. *)
Lemma Float32_counter_le_total lit span W H tbl t c :
  (forall p, In p tbl -> 0 <= cat_id p < 4) ->
  Z.of_nat (length tbl) < Uint32Array.modulus ->
  0 <= t < W * H -> 0 <= c < 4 ->
  let st := Float32.aggregates lit span W H tbl in
  0 <= Uint32Array.get (counts st) (t * 4 + c) <= Uint32Array.get (totals st) t.
Proof.
  intros Hcat Hlen Ht Hc st. subst st. unfold Float32.aggregates.
  destruct (extent_query tbl) as [e|]; cbn [Float32.binning_query].
  - set (keys := Float32.accepted_keys lit span W H e tbl).
    assert (Hk : forall k, In k keys ->
                   let '(i, j, _) := k in 0 <= i <= W - 1 /\ 0 <= j <= H - 1)
      by (intros k; apply Float32_accepted_keys_in_range).
    assert (Hsmall : forall P, tally P keys mod Uint32Array.modulus = tally P keys).
    { intros P. apply Z.mod_small. pose proof (tally_bounds P keys).
      pose proof (Float32_accepted_keys_length lit span W H e tbl) as Hl. fold keys in Hl.
      lia. }
    rewrite (keys_total W H keys Hk) by assumption.
    rewrite (keys_count W H keys) by lia.
    rewrite !Hsmall. split; [apply tally_bounds|].
    apply tally_le. intros k Hin Hs.
    destruct (Float32_accepted_keys_categories lit span W H e tbl k Hin) as (p & Hp & Hkc).
    pose proof (Hcat p Hp) as Hp4. rewrite <- Hkc in Hp4.
    apply Z.eqb_eq in Hs. apply Z.eqb_eq. unfold slot in Hs. lia.
  - unfold accumulate. cbn [fold_left counts totals]. rewrite !get_new. lia.
Qed.

(** ** C3: the mixed colour of a cell *)

(** C3 as stated fails on the code twice over.  A sum that lies exactly
    halfway between two integers is rounded by [Math.round] after the
    rounding errors of the loop: in a refresh of [tie_table] the cell
    [(0,0)] is mixed from the counts [3, 1, 1, 1], whose red sum is 343/2, and
    the code returns 171; the red sum of [1, 1, 0, 0] is 259/2 and the code
    returns 130, so no rule for ties gives the code's results.  And the
    palette of the program has four colours: a cell with five points of
    category 0 and five of category 2 mixes both hues, to [(150, 90, 114)],
    and is not half of [PALETTE[0]]. *)
Lemma C3_ties_follow_binary64 :
  let down := [3; 1; 1; 1] in
  let up := [1; 1; 0; 0] in
  head (snd (Rounded.refresh_traced IEEE.binary64 GridMap_W GridMap_H PALETTE IEEE.sqrt64
               Float32.lit_whole Float32.span_whole tie_table))
  = Some (call_mixSRGB 0 down 6) /\
  (exact_mix red down 6 == 343 # 2)%Q /\
  mixed_channel_spec red PALETTE down 6 = 172 /\
  red (Rounded.mixSRGB IEEE.binary64 PALETTE down 6) = 171 /\
  (exact_mix red up 2 == 259 # 2)%Q /\
  red (Rounded.mixSRGB IEEE.binary64 PALETTE up 2) = 130 /\
  Rounded.mixSRGB IEEE.binary64 PALETTE [5; 0; 5; 0] 10 = (150, 90, 114) /\
  (150, 90, 114) <> (Math_round (230 * (1 # 2)), Math_round (57 * (1 # 2)),
                     Math_round (70 * (1 # 2))).
Proof. repeat split; try reflexivity. vm_compute. discriminate. Qed.

(** C3, as the code has it: in a refresh of a table with categories 0 to 3
    and fewer than 2^32 rows, whenever [mixSRGB] is called for a cell the
    total is above 0 and each channel it returns is an integer nearest to
    the sum over [k < K] of [PALETTE[k].channel * counts[k] / total], at most
    1/2 away from it: it is the rounded sum unless the sum is a tie.  The
    cell of [dilution_table] that holds five points of category 0 and five
    of category 2 is mixed from the counts [5, 0, 5, 0] and the total 10, to
    [(150, 90, 114)]. *)
Theorem C3_mixed_channels :
  (forall (Math_sqrt : Q -> Q) (lit : Q -> Q) (span : Q -> Q -> Q) (W H : Z)
          (tbl : list Point) (i : nat) (cnts : list Z) (total : Z),
     (forall p, In p tbl -> 0 <= cat_id p < 4) ->
     Z.of_nat (length tbl) < Uint32Array.modulus ->
     In (call_mixSRGB i cnts total)
        (snd (Rounded.refresh_traced IEEE.binary64 W H PALETTE Math_sqrt lit span tbl)) ->
     let m := Rounded.mixSRGB IEEE.binary64 PALETTE cnts total in
     0 < total /\
     (Qabs (inject_Z (red m) - exact_mix red cnts total) <= 1 # 2)%Q /\
     (Qabs (inject_Z (green m) - exact_mix green cnts total) <= 1 # 2)%Q /\
     (Qabs (inject_Z (blue m) - exact_mix blue cnts total) <= 1 # 2)%Q) /\
  (forall (Math_sqrt : Q -> Q),
     In (call_mixSRGB 0 [5; 0; 5; 0] 10)
        (snd (Rounded.refresh_traced IEEE.binary64 GridMap_W GridMap_H PALETTE Math_sqrt
                Float32.lit_whole Float32.span_whole dilution_table)) /\
     Rounded.mixSRGB IEEE.binary64 PALETTE [5; 0; 5; 0] 10 = (150, 90, 114)).
Proof.
  split.
  - intros Math_sqrt lit span W H tbl i cnts total Hcat Hlen Hcall m. subst m.
    unfold Rounded.refresh_traced in Hcall.
    set (st := Float32.aggregates lit span W H tbl) in *.
    apply rounded_render_call_inv in Hcall as (j & Hj & Hcall).
    pose proof (Float32_aggregates_inv lit span W H tbl) as Inv. fold st in Inv.
    destruct (Z.eq_dec (Uint32Array.get (totals st) (Z.of_nat j)) 0) as [E0|Hne].
    { rewrite (rounded_cell_empty _ PALETTE Math_sqrt st j E0) in Hcall. destruct Hcall. }
    destruct (rounded_cell_nonempty IEEE.binary64 PALETTE Math_sqrt st j Hne)
      as (m0 & m1 & m2 & _ & Hcell).
    rewrite Hcell in Hcall. cbn [snd] in Hcall.
    destruct Hcall as [Hcall | [Hcall | []]]; [|discriminate].
    injection Hcall as <- <- <-.
    set (tot := Uint32Array.get (totals st) (Z.of_nat j)) in *.
    assert (Hu : uint32 tot) by (apply Forall_get; [apply uint32_0 | apply Inv]).
    assert (Ht : 0 < tot < 2 ^ 32) by (unfold uint32, Uint32Array.modulus in Hu; lia).
    assert (Hjt : 0 <= Z.of_nat j < W * H) by lia.
    assert (Hc : Forall (fun c => 0 <= c <= tot) (cell_counts_of st (Z.of_nat j))).
    { unfold cell_counts_of.
      pose proof (Float32_counter_le_total lit span W H tbl (Z.of_nat j) 0
                    Hcat Hlen Hjt ltac:(lia)) as H0.
      pose proof (Float32_counter_le_total lit span W H tbl (Z.of_nat j) 1
                    Hcat Hlen Hjt ltac:(lia)) as H1.
      pose proof (Float32_counter_le_total lit span W H tbl (Z.of_nat j) 2
                    Hcat Hlen Hjt ltac:(lia)) as H2.
      pose proof (Float32_counter_le_total lit span W H tbl (Z.of_nat j) 3
                    Hcat Hlen Hjt ltac:(lia)) as H3.
      cbn zeta in H0, H1, H2, H3. fold st tot in H0, H1, H2, H3.
      rewrite Z.add_0_r in H0. repeat constructor; lia. }
    split; [lia|].
    unfold Rounded.mixSRGB.
    destruct (Z.eqb_spec tot 0) as [|_]; [lia|].
    pose proof (rounded_mix_fold IEEE.binary64 PALETTE (cell_counts_of st (Z.of_nat j)) tot
                  (seq 0 (Nat.min (length (cell_counts_of st (Z.of_nat j)))
                                  (length PALETTE))) (0, 0, 0)%Q) as Hf.
    cbn zeta in Hf.
    destruct (fold_left _ _ (0, 0, 0)%Q) as [[r g] b]. cbn [fst snd] in Hf.
    destruct Hf as (Hr & Hg & Hb). unfold red at 1, green at 1, blue at 1. cbn [fst snd].
    repeat split; apply mixSRGB_channel_nearest; try assumption;
      intros k; apply (PALETTE_channels k).
  - intros Math_sqrt. split; [|reflexivity].
    unfold Rounded.refresh_traced.
    set (st := Float32.aggregates Float32.lit_whole Float32.span_whole
                 GridMap_W GridMap_H dilution_table).
    apply (rounded_render_call_intro _ _ _ _ _ st 0%nat); [vm_compute; lia|].
    destruct (rounded_cell_nonempty IEEE.binary64 PALETTE Math_sqrt st 0)
      as (m0 & m1 & m2 & _ & Hcell); [vm_compute; discriminate|].
    rewrite Hcell. left. vm_compute. reflexivity.
Qed.

(** The cell of [tie_table] with the counts [3, 1, 1, 1]: the red channel is
    171, exactly 1/2 below the sum. *)
Lemma C3_mixed_channels_witness :
  let cnts := [3; 1; 1; 1] in
  let m := Rounded.mixSRGB IEEE.binary64 PALETTE cnts 6 in
  0 < 6 /\
  (Qabs (inject_Z (red m) - exact_mix red cnts 6) <= 1 # 2)%Q /\
  (Qabs (inject_Z (green m) - exact_mix green cnts 6) <= 1 # 2)%Q /\
  (Qabs (inject_Z (blue m) - exact_mix blue cnts 6) <= 1 # 2)%Q.
Proof.
  intros cnts. destruct C3_mixed_channels as [Hmix _].
  apply (Hmix IEEE.sqrt64 Float32.lit_whole Float32.span_whole GridMap_W GridMap_H
              tie_table 0%nat).
  - intros p Hp. unfold tie_table in Hp. cbn in Hp.
    repeat (destruct Hp as [<- | Hp]; [cbn; lia|]). destruct Hp.
  - vm_compute. reflexivity.
  - vm_compute. left. reflexivity.
Defined.

(** ** C10: the in-process strategy of the specification *)

Lemma nth_alter_succ (l : list Z) i k :
  (k < length l)%nat ->
  nth k (alter Z.succ i l) 0 = (if Nat.eqb i k then 1 else 0) + nth k l 0.
Proof.
  intros Hk. rewrite !nth_lookup, list_lookup_alter.
  destruct (lookup_lt_is_Some_2 l k Hk) as [v Hv].
  destruct (Nat.eqb_spec i k) as [->|Hne].
  - rewrite decide_True by reflexivity. rewrite Hv. cbn. lia.
  - rewrite decide_False by assumption. rewrite Hv. cbn. lia.
Qed.

Lemma count_point_spec K c cell :
  let cell' := InProcess.count_point K c cell in
  InProcess.cell_total cell' = InProcess.cell_total cell + 1 /\
  length (InProcess.cell_counts cell') = length (InProcess.cell_counts cell) /\
  (forall k, (k < length (InProcess.cell_counts cell))%nat -> Z.of_nat k < K ->
     nth k (InProcess.cell_counts cell') 0 =
     (if c =? Z.of_nat k then 1 else 0) + nth k (InProcess.cell_counts cell) 0).
Proof.
  unfold InProcess.count_point. cbn [InProcess.cell_total InProcess.cell_counts].
  split; [lia|].
  destruct ((0 <=? c) && (c <? K)) eqn:E.
  - apply andb_true_iff in E as [E1%Z.leb_le E2%Z.ltb_lt].
    split; [apply length_alter|].
    intros k Hk HkK. rewrite nth_alter_succ by assumption.
    destruct (Nat.eqb_spec (Z.to_nat c) k), (Z.eqb_spec c (Z.of_nat k)); lia.
  - split; [reflexivity|]. intros k Hk HkK.
    destruct (Z.eqb_spec c (Z.of_nat k)) as [->|]; [|lia].
    apply andb_false_iff in E as [E%Z.leb_gt | E%Z.ltb_ge]; lia.
Qed.

Lemma count_keys_cell W K keys cells (t : nat) cell :
  (forall k, In k keys -> 0 <= cell_idx W k) ->
  cells !! t = Some cell ->
  exists cell',
    fold_left (count_key W K) keys cells !! t = Some cell' /\
    InProcess.cell_total cell' =
      InProcess.cell_total cell + tally (fun k => cell_idx W k =? Z.of_nat t) keys /\
    length (InProcess.cell_counts cell') = length (InProcess.cell_counts cell) /\
    (forall c, (c < length (InProcess.cell_counts cell))%nat -> Z.of_nat c < K ->
       nth c (InProcess.cell_counts cell') 0 =
       nth c (InProcess.cell_counts cell) 0 +
       tally (fun k => (cell_idx W k =? Z.of_nat t) && (key_cat k =? Z.of_nat c)) keys).
Proof.
  revert cells cell. induction keys as [|k keys IH]; intros cells cell Hpos Hc;
    cbn [fold_left tally].
  - exists cell. repeat split; [assumption | lia | intros; lia].
  - assert (Hk : 0 <= cell_idx W k) by (apply Hpos; now left).
    assert (Hrest : forall k', In k' keys -> 0 <= cell_idx W k')
      by (intros; apply Hpos; now right).
    destruct (Z.eqb_spec (cell_idx W k) (Z.of_nat t)) as [E|E].
    + assert (Hc1 : count_key W K cells k !! t
                    = Some (InProcess.count_point K (key_cat k) cell)).
      { unfold count_key. rewrite E, Nat2Z.id, list_lookup_alter_eq, Hc. reflexivity. }
      destruct (IH _ _ Hrest Hc1) as (cell' & Hl & Ht & Hlen & Hn).
      destruct (count_point_spec K (key_cat k) cell) as (Pt & Plen & Pn).
      cbn zeta in Pt, Plen, Pn.
      exists cell'. split; [assumption|]. split; [lia|]. split; [congruence|].
      intros c Hcl HcK. rewrite Hn by (rewrite ?Plen; assumption).
      rewrite Pn by assumption. cbn [andb]. lia.
    + assert (Hc1 : count_key W K cells k !! t = Some cell).
      { unfold count_key. rewrite list_lookup_alter_ne by lia. assumption. }
      destruct (IH _ _ Hrest Hc1) as (cell' & Hl & Ht & Hlen & Hn).
      exists cell'. split; [assumption|]. split; [lia|]. split; [assumption|].
      intros c Hcl HcK. rewrite Hn by assumption. cbn [andb]. lia.
Qed.

Lemma count_keys_length W K keys cells :
  length (fold_left (count_key W K) keys cells) = length cells.
Proof.
  revert cells. induction keys as [|k keys IH]; intros cells; cbn [fold_left];
    [reflexivity|].
  rewrite IH. unfold count_key. apply length_alter.
Qed.

Lemma four_counters (l : list Z) :
  length l = 4%nat -> l = [nth 0 l 0; nth 1 l 0; nth 2 l 0; nth 3 l 0].
Proof.
  destruct l as [|a [|b [|c [|d [|? ?]]]]]; cbn; intros; try discriminate. reflexivity.
Qed.

Lemma cells_of_no_rows W H :
  cells_of W H (accumulate W H []) = InProcess.empty_cells W H 4.
Proof.
  unfold cells_of, InProcess.empty_cells.
  rewrite (map_constant _ (InProcess.mkCell (replicate (Z.to_nat 4) 0) 0)).
  - now rewrite length_seq.
  - intros i _. unfold cell_counts_of, accumulate. cbn [fold_left counts totals].
    now rewrite !get_new.
Qed.

(** The GROUP BY, the window sum and the scatter loop together do what the
    Aggregator of the specification does with the same accepted keys. *)
Lemma delegated_is_fold_of_keys W H (keys : list Key) :
  (forall k, In k keys -> let '(i, j, _) := k in 0 <= i <= W - 1 /\ 0 <= j <= H - 1) ->
  (forall k, In k keys -> 0 <= key_cat k < 4) ->
  Z.of_nat (length keys) < Uint32Array.modulus ->
  cells_of W H (accumulate W H (with_totals (group_count keys))) =
  fold_left (count_key W 4) keys (InProcess.empty_cells W H 4).
Proof.
  intros Hk Hcat Hlen.
  assert (Hrange : forall k, In k keys -> 0 <= cell_idx W k).
  { intros k Hin. apply Hk in Hin.
    destruct k as [[i j] c]. cbn [cell_idx]. nia. }
  assert (Hsmall : forall P, tally P keys mod Uint32Array.modulus = tally P keys).
  { intros P. apply Z.mod_small. pose proof (tally_bounds P keys). lia. }
  apply list_eq. intros t. unfold cells_of.
  change (map ?f ?l) with (f <$> l). rewrite list_lookup_fmap.
  destruct (Nat.lt_ge_cases t (Z.to_nat (W * H))) as [Ht|Ht].
  - replace (seq 0 (Z.to_nat (W * H)) !! t) with (Some t)
      by (symmetry; apply lookup_seq; split; [reflexivity | assumption]).
    cbn [fmap option_fmap option_map].
    assert (Hc : InProcess.empty_cells W H 4 !! t
                 = Some (InProcess.mkCell (replicate (Z.to_nat 4) 0) 0))
      by (apply lookup_replicate_2; assumption).
    destruct (count_keys_cell W 4 keys _ t _ Hrange Hc)
      as ([cnts tot] & -> & Htot & Hcl & Hn).
    cbn [InProcess.cell_total InProcess.cell_counts] in Htot, Hcl, Hn.
    rewrite length_replicate in Hcl, Hn.
    f_equal. f_equal.
    + rewrite (four_counters cnts Hcl). unfold cell_counts_of.
      assert (Hslot : forall c : nat, (c < 4)%nat ->
                Uint32Array.get
                  (counts (accumulate W H (with_totals (group_count keys))))
                  (Z.of_nat t * 4 + Z.of_nat c) = nth c cnts 0).
      { intros c Hc4. rewrite (keys_count W H keys) by lia. rewrite Hsmall.
        rewrite Hn by (cbn; lia).
        rewrite nth_lookup, (lookup_replicate_2 (Z.to_nat 4) 0 c) by (cbn; lia).
        cbn [default id]. rewrite Z.add_0_l.
        apply tally_ext. intros k Hin.
        pose proof (Hcat k Hin) as Hp4. unfold slot.
        destruct (Z.eqb_spec (cell_idx W k) (Z.of_nat t)),
                 (Z.eqb_spec (key_cat k) (Z.of_nat c)),
                 (Z.eqb_spec (cell_idx W k * 4 + key_cat k)
                             (Z.of_nat t * 4 + Z.of_nat c));
          cbn [andb]; lia. }
      rewrite <- (Hslot 0%nat), <- (Hslot 1%nat), <- (Hslot 2%nat), <- (Hslot 3%nat)
        by lia.
      cbn [Z.of_nat Pos.of_succ_nat Pos.succ]. now rewrite Z.add_0_r.
    + rewrite (keys_total W H keys Hk) by lia. rewrite Hsmall, Htot. lia.
  - rewrite (lookup_ge_None_2 (seq 0 (Z.to_nat (W * H)))) by (rewrite length_seq; lia).
    symmetry. apply lookup_ge_None_2.
    rewrite count_keys_length. unfold InProcess.empty_cells.
    rewrite length_replicate. lia.
Qed.

Lemma in_process_fold binner lit span W H K e e' l cells :
  (forall p, In p l ->
     Float32.sql_bin lit span W H e p =
     match binner e' p with
     | Some (i, j) => Some (i, j, cat_id p)
     | None => None
     end) ->
  fold_left (InProcess.aggregate_point binner W K e') l cells =
  fold_left (count_key W K) (Float32.accepted_keys lit span W H e l) cells.
Proof.
  revert cells. induction l as [|p l IH]; intros cells Hb; [reflexivity|].
  rewrite Float32_accepted_keys_cons, (Hb p (or_introl eq_refl)). cbn [fold_left].
  unfold InProcess.aggregate_point at 2.
  assert (Hrest : forall q, In q l ->
            Float32.sql_bin lit span W H e q =
            match binner e' q with
            | Some (i, j) => Some (i, j, cat_id q)
            | None => None
            end) by (intros q Hq; apply Hb; now right).
  destruct (binner e' p) as [[i j]|]; [|now apply IH].
  cbn [fold_left]. rewrite IH by assumption. reflexivity.
Qed.

(** C10 as stated fails on the code: the engine computes the bin of a point
    in binary32, an in-process iteration over the float64 numbers of the
    specification computes it in binary64, and the two can disagree.  In
    [rounding_table] the point with [umap_x = -2^-30] lies between the bounds
    -1000 and 1000: for the engine [umap_x + 1000] is 1000 and the bin is 16,
    in binary64 it stays below 1000 and the bin is 15, so the point is
    counted in cell [(16,0)] by the one and in cell [(15,0)] by the other.
    Both cells are away from the maximum edge. *)
Lemma C10_bins_differ :
  let lit := Float32.lit_whole in
  let span := Float32.span_whole in
  let e := mkExtent (-1000) 1000 (-1000) 1000 in
  let p := mkPoint (-1 # 1073741824) (-1000) 1 in
  let delegated :=
    cells_of GridMap_W GridMap_H
             (Float32.aggregates lit span GridMap_W GridMap_H rounding_table) in
  let in_process :=
    InProcess.computeCellAggregates (InProcess.bin IEEE.binary64 GridMap_W GridMap_H)
                                    GridMap_W GridMap_H 4 rounding_table in
  extent_query rounding_table = Some e /\
  InProcess.computeExtent rounding_table = Some e /\
  In p rounding_table /\
  Float32.sql_bin lit span GridMap_W GridMap_H e p = Some (16, 0, 1) /\
  InProcess.bin IEEE.binary64 GridMap_W GridMap_H e p = Some (15, 0) /\
  delegated !! 16%nat = Some (InProcess.mkCell [0; 1; 0; 0] 1) /\
  in_process !! 16%nat = Some (InProcess.mkCell [0; 0; 0; 0] 0) /\
  delegated !! 15%nat = Some (InProcess.mkCell [0; 0; 0; 0] 0) /\
  in_process !! 15%nat = Some (InProcess.mkCell [0; 1; 0; 0] 1) /\
  delegated <> in_process.
Proof.
  vm_compute. repeat split; try discriminate. right. left. reflexivity.
Qed.

(** C10, as the code has it: when the in-process binner gives every point of
    the table the bin the engine gives it, and the table has categories 0 to
    3 and fewer than 2^32 rows, the aggregates the code obtains from the
    query engine are, cell by cell, those of the iteration the specification
    describes: identical counters and identical totals. *)
Theorem C10_strategies_agree_on_equal_bins
  (lit : Q -> Q) (span : Q -> Q -> Q) (binner : Extent -> Point -> option (Z * Z))
  (W H : Z) (tbl : list Point) :
  (forall p, In p tbl -> 0 <= cat_id p < 4) ->
  Z.of_nat (length tbl) < Uint32Array.modulus ->
  (forall e e' p,
     extent_query tbl = Some e -> InProcess.computeExtent tbl = Some e' -> In p tbl ->
     Float32.sql_bin lit span W H e p =
     match binner e' p with
     | Some (i, j) => Some (i, j, cat_id p)
     | None => None
     end) ->
  cells_of W H (Float32.aggregates lit span W H tbl)
  = InProcess.computeCellAggregates binner W H 4 tbl.
Proof.
  intros Hcat Hlen Hbin.
  unfold Float32.aggregates, InProcess.computeCellAggregates.
  destruct (extent_query tbl) as [e|] eqn:E.
  - destruct (InProcess.computeExtent tbl) as [e'|] eqn:E';
      [|destruct tbl; [discriminate E | discriminate E']].
    cbn [Float32.binning_query].
    rewrite (in_process_fold binner lit span W H 4 e e' tbl)
      by (intros p Hp; now apply Hbin).
    apply delegated_is_fold_of_keys.
    + intros k. apply Float32_accepted_keys_in_range.
    + intros k Hk.
      destruct (Float32_accepted_keys_categories lit span W H e tbl k Hk) as (p & Hp & ->).
      now apply Hcat.
    + pose proof (Float32_accepted_keys_length lit span W H e tbl). lia.
  - apply extent_query_None in E. subst tbl. cbn [Float32.binning_query].
    apply cells_of_no_rows.
Qed.

(** On [overflow_base], whose coordinates are whole numbers, the binner of
    the specification in binary64 agrees with the engine. *)
Lemma C10_strategies_agree_on_equal_bins_witness :
  cells_of GridMap_W GridMap_H
           (Float32.aggregates Float32.lit_whole Float32.span_whole
                               GridMap_W GridMap_H overflow_base)
  = InProcess.computeCellAggregates (InProcess.bin IEEE.binary64 GridMap_W GridMap_H)
                                    GridMap_W GridMap_H 4 overflow_base.
Proof.
  apply C10_strategies_agree_on_equal_bins.
  - intros p [<- | [<- | [<- | []]]]; cbn; lia.
  - vm_compute. reflexivity.
  - intros e e' p [= <-] [= <-] [<- | [<- | [<- | []]]]; vm_compute; reflexivity.
Defined.

Lemma accepted_keys_cons W H e p tbl :
  accepted_keys W H e (p :: tbl) =
  match sql_bin W H e p with
  | Some k => k :: accepted_keys W H e tbl
  | None => accepted_keys W H e tbl
  end.
Proof.
  unfold accepted_keys, binned, sql_bin. cbn [List.filter].
  destruct (binned_where e p); [|reflexivity].
  cbn [map omap list_omap]. now destruct (agg_where W H (binned_row W H e p)).
Qed.

Lemma accepted_keys_from W H e tbl k :
  In k (accepted_keys W H e tbl) -> exists p, In p tbl /\ key_cat k = cat_id p.
Proof.
  induction tbl as [|p tbl IH]; [intros []|].
  rewrite accepted_keys_cons. unfold sql_bin.
  destruct (binned_where e p).
  - destruct (agg_where W H (binned_row W H e p)) as [k'|] eqn:E.
    + intros [<- | Hk].
      * exists p. split; [now left|].
        apply agg_where_Some in E. destruct k' as [[i j] c].
        destruct E as [E _]. unfold binned_row in E. now injection E as _ _ <-.
      * destruct (IH Hk) as (q & Hq & Hc). exists q. split; [now right | assumption].
    + intros Hk. destruct (IH Hk) as (q & Hq & Hc). exists q. split; [now right | assumption].
  - intros Hk. destruct (IH Hk) as (q & Hq & Hc). exists q. split; [now right | assumption].
Qed.

Lemma accepted_keys_length W H e tbl :
  (length (accepted_keys W H e tbl) <= length tbl)%nat.
Proof.
  induction tbl as [|p tbl IH]; [apply Nat.le_refl|].
  rewrite accepted_keys_cons. destruct (sql_bin W H e p); cbn [length]; lia.
Qed.

(** With fewer than 2^32 rows a published cell is ["transparent"] exactly
    when no accepted point of the table maps to it. *)
Lemma transparent_iff_no_accepted_point
  (W H : Z) (palette : list RGB) (Math_sqrt : Q -> Q) (tbl : list Point)
  (e : Extent) (t : nat) :
  extent_query tbl = Some e ->
  Z.of_nat (length tbl) < Uint32Array.modulus ->
  (t < Z.to_nat (W * H))%nat ->
  refresh W H palette Math_sqrt tbl !! t = Some transparent <->
  tally (fun k => cell_idx W k =? Z.of_nat t) (accepted_keys W H e tbl) = 0.
Proof.
  intros He Hlen Ht. unfold refresh, refresh_traced, aggregates.
  rewrite He. cbn [binning_query]. rewrite render_lookup by assumption.
  assert (Hcell : fst (render_cell palette Math_sqrt
                         (accumulate W H (with_totals (agg W H e tbl))) t) = transparent
                  <-> tally (fun k => cell_idx W k =? Z.of_nat t)
                            (accepted_keys W H e tbl) = 0).
  { rewrite render_cell_transparent, stored_total by lia.
    rewrite Z.mod_small; [reflexivity|].
    pose proof (tally_bounds (fun k => cell_idx W k =? Z.of_nat t)
                             (accepted_keys W H e tbl)).
    pose proof (accepted_keys_length W H e tbl). lia. }
  rewrite <- Hcell. split; [now intros [= ->] | now intros ->].
Qed.

(** ** What the two arrays hold after the accumulation loop *)

Lemma window_sum_is_cell_tally W H e tbl g :
  In g (agg W H e tbl) ->
  partition_sum (agg W H e tbl) (fst g) =
  tally (fun k => cell_idx W k =? cell_idx W (fst g)) (accepted_keys W H e tbl).
Proof.
  intros Hg. rewrite partition_sum_weight.
  change (agg W H e tbl) with (group_count (accepted_keys W H e tbl)) in *.
  rewrite weight_group_count. apply tally_ext. intros k Hk.
  pose proof (group_count_keys _ _ Hg) as Hg'.
  apply accepted_keys_in_range in Hg'. apply accepted_keys_in_range in Hk.
  destruct (fst g) as [[gi gj] gc], k as [[ki kj] kc]. cbn [same_cell cell_idx].
  rewrite cell_idx_inj by tauto.
  now rewrite (Z.eqb_sym gi ki), (Z.eqb_sym gj kj).
Qed.

Lemma accepted_keys_cell_range W H e tbl k :
  In k (accepted_keys W H e tbl) -> 0 <= cell_idx W k < W * H.
Proof.
  intros Hk. apply accepted_keys_in_range in Hk.
  destruct k as [[i j] c]. cbn [cell_idx]. nia.
Qed.

Lemma tally_small W H e tbl P :
  Z.of_nat (length tbl) < Uint32Array.modulus ->
  tally P (accepted_keys W H e tbl) mod Uint32Array.modulus
  = tally P (accepted_keys W H e tbl).
Proof.
  intros Hlen. apply Z.mod_small.
  pose proof (tally_bounds P (accepted_keys W H e tbl)).
  pose proof (accepted_keys_length W H e tbl). lia.
Qed.

Lemma aggregates_Some W H tbl e :
  extent_query tbl = Some e ->
  aggregates W H tbl = accumulate W H (with_totals (agg W H e tbl)).
Proof. intros He. unfold aggregates. now rewrite He. Qed.

Lemma cell_counts_exact (W H : Z) (tbl : list Point) (e : Extent) (t c : Z) :
  extent_query tbl = Some e ->
  Z.of_nat (length tbl) < Uint32Array.modulus ->
  0 <= t < W * H -> 0 <= c < 4 ->
  let st := aggregates W H tbl in
  let keys := accepted_keys W H e tbl in
  Uint32Array.get (totals st) t = tally (fun k => cell_idx W k =? t) keys /\
  ((forall p, In p tbl -> 0 <= cat_id p < 4) ->
   Uint32Array.get (counts st) (t * 4 + c)
   = tally (fun k => (cell_idx W k =? t) && (key_cat k =? c)) keys).
Proof.
  intros He Hlen Ht Hc st keys. subst st keys.
  rewrite (aggregates_Some W H tbl e He). split.
  - rewrite stored_total by assumption. now apply tally_small.
  - intros Hcat. rewrite stored_count by lia. rewrite tally_small by assumption.
    apply tally_ext. intros k Hk.
    destruct (accepted_keys_from W H e tbl k Hk) as (p & Hp & Hkc).
    pose proof (Hcat p Hp) as Hp4. rewrite <- Hkc in Hp4. unfold slot.
    destruct (Z.eqb_spec (cell_idx W k) t), (Z.eqb_spec (key_cat k) c),
             (Z.eqb_spec (cell_idx W k * 4 + key_cat k) (t * 4 + c));
      cbn [andb]; lia.
Qed.

(** With fewer than 2^32 rows, [totals[t]] is the number of accepted rows of
    cell [t]; and when every [cat_id] is in [0..3], [counts[t * 4 + c]] is the
    number of accepted rows of cell [t] that have category [c]. *)
Theorem per_cell_counts_exact (W H : Z) (tbl : list Point) (e : Extent) (t c : Z) :
  extent_query tbl = Some e ->
  Z.of_nat (length tbl) < Uint32Array.modulus ->
  0 <= t < W * H -> 0 <= c < 4 ->
  let st := aggregates W H tbl in
  let keys := accepted_keys W H e tbl in
  Uint32Array.get (totals st) t = tally (fun k => cell_idx W k =? t) keys /\
  ((forall p, In p tbl -> 0 <= cat_id p < 4) ->
   Uint32Array.get (counts st) (t * 4 + c)
   = tally (fun k => (cell_idx W k =? t) && (key_cat k =? c)) keys).
Proof. exact (cell_counts_exact W H tbl e t c). Qed.

Lemma tally_split_by_category (P : Key -> bool) keys :
  (forall k, In k keys -> 0 <= key_cat k < 4) ->
  tally P keys =
  tally (fun k => P k && (key_cat k =? 0)) keys +
  tally (fun k => P k && (key_cat k =? 1)) keys +
  tally (fun k => P k && (key_cat k =? 2)) keys +
  tally (fun k => P k && (key_cat k =? 3)) keys.
Proof.
  induction keys as [|k keys IH]; intros Hcat; cbn [tally]; [reflexivity|].
  rewrite IH by (intros k' Hk'; apply Hcat; now right).
  pose proof (Hcat k (or_introl eq_refl)) as Hk.
  destruct (P k); cbn [andb]; [|lia].
  destruct (Z.eqb_spec (key_cat k) 0), (Z.eqb_spec (key_cat k) 1),
           (Z.eqb_spec (key_cat k) 2), (Z.eqb_spec (key_cat k) 3); lia.
Qed.

Lemma counters_sum (W H : Z) (tbl : list Point) (t : Z) :
  (forall p, In p tbl -> 0 <= cat_id p < 4) ->
  Z.of_nat (length tbl) < Uint32Array.modulus ->
  0 <= t < W * H ->
  let st := aggregates W H tbl in
  sumZ (cell_counts_of st t) = Uint32Array.get (totals st) t.
Proof.
  intros Hcat Hlen Ht st. subst st. unfold sumZ, cell_counts_of. cbn [fold_right].
  destruct (extent_query tbl) as [e|] eqn:He.
  - destruct (cell_counts_exact W H tbl e t 0 He Hlen Ht ltac:(lia)) as [HT H0].
    destruct (cell_counts_exact W H tbl e t 1 He Hlen Ht ltac:(lia)) as [_ H1].
    destruct (cell_counts_exact W H tbl e t 2 He Hlen Ht ltac:(lia)) as [_ H2].
    destruct (cell_counts_exact W H tbl e t 3 He Hlen Ht ltac:(lia)) as [_ H3].
    cbn zeta in *. rewrite Z.add_0_r in H0.
    rewrite HT, (H0 Hcat), (H1 Hcat), (H2 Hcat), (H3 Hcat).
    rewrite (tally_split_by_category (fun k => cell_idx W k =? t)); [lia|].
    intros k Hk. destruct (accepted_keys_from W H e tbl k Hk) as (p & Hp & ->).
    now apply Hcat.
  - unfold aggregates. rewrite He. cbn [binning_query accumulate fold_left counts totals].
    now rewrite !get_new.
Qed.

(** When every [cat_id] is in [0..3] (and the table has fewer than 2^32
    rows), the four counters of a cell add up to its total. *)
Theorem counters_sum_to_total (W H : Z) (tbl : list Point) (t : Z) :
  (forall p, In p tbl -> 0 <= cat_id p < 4) ->
  Z.of_nat (length tbl) < Uint32Array.modulus ->
  0 <= t < W * H ->
  let st := aggregates W H tbl in
  sumZ (cell_counts_of st t) = Uint32Array.get (totals st) t.
Proof. exact (counters_sum W H tbl t). Qed.

Lemma sumZ_app l1 l2 : sumZ (l1 ++ l2) = sumZ l1 + sumZ l2.
Proof.
  unfold sumZ. induction l1 as [|x l1 IH]; cbn [app fold_right]; [reflexivity|].
  rewrite IH. lia.
Qed.

Lemma sumZ_map_add (f g : nat -> Z) l :
  sumZ (map (fun t => f t + g t) l) = sumZ (map f l) + sumZ (map g l).
Proof.
  induction l as [|x l IHl]; [reflexivity|].
  cbn [map]. unfold sumZ in *. cbn [fold_right]. rewrite IHl. lia.
Qed.

Lemma sum_indicator (a : Z) (n : nat) :
  sumZ (map (fun t => if a =? Z.of_nat t then 1 else 0) (seq 0 n))
  = if (0 <=? a) && (a <? Z.of_nat n) then 1 else 0.
Proof.
  induction n as [|n IH].
  - cbn [seq map]. destruct (Z.leb_spec 0 a), (Z.ltb_spec a (Z.of_nat 0)); cbn; lia.
  - rewrite seq_S, map_app, sumZ_app, IH. cbn [Nat.add map]. unfold sumZ at 1.
    cbn [fold_right].
    destruct (Z.eqb_spec a (Z.of_nat n)), (Z.leb_spec 0 a),
             (Z.ltb_spec a (Z.of_nat n)), (Z.ltb_spec a (Z.of_nat (S n)));
      cbn [andb]; lia.
Qed.

Lemma sum_tally_over_cells W (n : nat) keys :
  (forall k, In k keys -> 0 <= cell_idx W k < Z.of_nat n) ->
  sumZ (map (fun t => tally (fun k => cell_idx W k =? Z.of_nat t) keys) (seq 0 n))
  = Z.of_nat (length keys).
Proof.
  induction keys as [|k keys IH]; intros Hr; cbn [tally length].
  - induction (seq 0 n) as [|x l IHl]; [reflexivity|].
    cbn [map]. unfold sumZ in *. cbn [fold_right]. rewrite IHl. reflexivity.
  - rewrite sumZ_map_add, sum_indicator, IH by (intros k' Hk'; apply Hr; now right).
    pose proof (Hr k (or_introl eq_refl)) as Hk.
    destruct (Z.leb_spec 0 (cell_idx W k)), (Z.ltb_spec (cell_idx W k) (Z.of_nat n));
      cbn [andb]; lia.
Qed.

(** With fewer than 2^32 rows, the totals of all cells add up to the number
    of rows the query accepts: no accepted row is lost or counted twice. *)
Theorem totals_sum_to_accepted (W H : Z) (tbl : list Point) (e : Extent) :
  extent_query tbl = Some e ->
  Z.of_nat (length tbl) < Uint32Array.modulus ->
  sumZ (totals (aggregates W H tbl)) = Z.of_nat (length (accepted_keys W H e tbl)).
Proof.
  intros He Hlen.
  pose proof (aggregates_inv W H tbl) as Inv.
  assert (Htot : totals (aggregates W H tbl) =
                 map (fun t => tally (fun k => cell_idx W k =? Z.of_nat t)
                                     (accepted_keys W H e tbl))
                     (seq 0 (Z.to_nat (W * H)))).
  { apply list_eq. intros i. change (map ?f ?l) with (f <$> l).
    rewrite list_lookup_fmap.
    destruct (Nat.lt_ge_cases i (Z.to_nat (W * H))) as [Hi|Hi].
    - replace (seq 0 (Z.to_nat (W * H)) !! i) with (Some i)
        by (symmetry; apply lookup_seq; split; [reflexivity | assumption]).
      cbn [fmap option_fmap option_map].
      destruct (cell_counts_exact W H tbl e (Z.of_nat i) 0 He Hlen
                  ltac:(lia) ltac:(lia)) as [HT _].
      cbn zeta in HT. rewrite <- HT. unfold Uint32Array.get.
      rewrite nth_lookup, Nat2Z.id.
      destruct (lookup_lt_is_Some_2 (totals (aggregates W H tbl)) i) as [v Hv].
      { now rewrite (inv_totals_len _ _ _ Inv). }
      now rewrite Hv.
    - rewrite (lookup_ge_None_2 (seq 0 _)) by (rewrite length_seq; lia).
      apply lookup_ge_None_2. rewrite (inv_totals_len _ _ _ Inv). lia. }
  rewrite Htot. apply sum_tally_over_cells.
  intros k Hk. apply accepted_keys_cell_range in Hk. lia.
Qed.

(** ** The densest cell *)

Lemma accumulate_maxTot W rows st :
  let st' := fold_left (accumulate_row W) rows st in
  maxTot st' = maxTot st \/ exists r, In r rows /\ maxTot st' = n_total r.
Proof.
  revert st. induction rows as [|r rows IH]; intros st; cbn [fold_left]; [now left|].
  destruct (IH (accumulate_row W st r)) as [E | (r' & Hr' & E)].
  - cbn zeta in E. rewrite E. unfold accumulate_row. cbn [maxTot].
    destruct (n_total r >? maxTot st); [right; exists r; split; [now left | reflexivity]
                                        | now left].
  - right. exists r'. split; [now right | assumption].
Qed.

(** With fewer than 2^32 rows, as soon as one cell is not empty some cell's
    total equals [maxTot], and no cell's total exceeds it: the ratio
    [tot / maxTot] the shade is computed from reaches 1 and never passes it. *)
Theorem densest_cell_attains_maxTot (W H : Z) (tbl : list Point) (t0 : Z) :
  Z.of_nat (length tbl) < Uint32Array.modulus ->
  let st := aggregates W H tbl in
  0 <= t0 < W * H -> Uint32Array.get (totals st) t0 <> 0 ->
  (exists t, 0 <= t < W * H /\ Uint32Array.get (totals st) t = maxTot st) /\
  (forall t, Uint32Array.get (totals st) t <= maxTot st).
Proof.
  intros Hlen st Ht0 Hne.
  pose proof (aggregates_inv W H tbl) as Inv. fold st in Inv.
  assert (Hall : forall t, 0 <= Uint32Array.get (totals st) t <= maxTot st).
  { intros t. split.
    - apply (Forall_get (fun v => 0 <= v)); [lia|].
      eapply Forall_impl; [apply Inv|]. intros v [Hv _]. exact Hv.
    - apply (Forall_get (fun v => v <= maxTot st)); apply Inv. }
  split; [|intros t; apply Hall].
  subst st. unfold aggregates in *.
  destruct (extent_query tbl) as [e|] eqn:He.
  - cbn [binning_query] in *. unfold accumulate in *.
    destruct (accumulate_maxTot W (with_totals (agg W H e tbl))
                (mkAgg (Uint32Array.new (W * H)) (Uint32Array.new (W * H * 4)) 0))
      as [E | (r & Hr & E)]; cbn zeta in E.
    + cbn [maxTot] in E. pose proof (Hall t0) as Hb. rewrite E in Hb. lia.
    + unfold with_totals in Hr. apply in_map_iff in Hr as ([[[i j] c] cnt] & <- & Hg).
      cbn [n_total] in E.
      pose proof (window_sum_is_cell_tally W H e tbl _ Hg) as Hw. cbn [fst] in Hw.
      pose proof (accepted_keys_cell_range W H e tbl _ (group_count_keys _ _ Hg)) as Hrg.
      cbn [fst] in Hrg.
      exists (cell_idx W (i, j, c)). split; [assumption|].
      fold (accumulate W H (with_totals (agg W H e tbl))).
      rewrite stored_total by assumption. rewrite tally_small by assumption.
      fold (accumulate W H (with_totals (agg W H e tbl))) in E.
      now rewrite E, Hw.
  - cbn [binning_query accumulate fold_left totals] in Hne.
    now rewrite get_new in Hne.
Qed.

(** ** The published array *)

(** A refresh publishes exactly [W * H] strings; the initial fill
    ["rgba(0,0,0,0)"] never survives, slot [i] holds what the render loop
    computed for cell [i]: ["transparent"] or a colour. *)
Theorem published_array_is_complete
  (W H : Z) (palette : list RGB) (Math_sqrt : Q -> Q) (tbl : list Point) :
  length (refresh W H palette Math_sqrt tbl) = Z.to_nat (W * H) /\
  (forall i c, refresh W H palette Math_sqrt tbl !! i = Some c ->
     c = fst (render_cell palette Math_sqrt (aggregates W H tbl) i) /\
     c <> rgba_0000).
Proof.
  unfold refresh, refresh_traced. split; [apply render_length|].
  intros i c Hc.
  assert (Hi : (i < Z.to_nat (W * H))%nat).
  { apply lookup_lt_Some in Hc. now rewrite render_length in Hc. }
  rewrite render_lookup in Hc by assumption. injection Hc as <-.
  split; [reflexivity|].
  unfold render_cell. destruct (_ =? 0); [discriminate|].
  destruct (mixSRGB palette _ _) as [[m0 m1] m2]. discriminate.
Qed.

(** ** The mixer on proportions *)

Lemma Math_round_inject z : Math_round (inject_Z z) = z.
Proof.
  unfold Math_round. set (x := (inject_Z z + (1 # 2))%Q).
  pose proof (Qfloor_le x) as Hlo. pose proof (Qlt_floor x) as Hhi.
  assert (H1 : (inject_Z (Qfloor x) < inject_Z (z + 1))%Q)
    by (rewrite inject_Z_plus; unfold x in *; change (inject_Z 1) with 1%Q; lra).
  assert (H2 : (inject_Z z < inject_Z (Qfloor x + 1))%Q)
    by (unfold x in *; lra).
  rewrite <- Zlt_Qlt in H1, H2. lia.
Qed.

Lemma sumQ_single f l k :
  NoDup l -> In k l -> (forall j, In j l -> j <> k -> (f j == 0)%Q) ->
  (sumQ f l == f k)%Q.
Proof.
  induction l as [|x l IH]; intros Hnd Hk Hz; [destruct Hk|].
  apply NoDup_cons in Hnd as [Hx Hnd]. cbn [sumQ].
  destruct Hk as [->|Hk].
  - rewrite sumQ_zero; [ring|].
    intros j Hj. apply Hz; [now right|]. intros ->.
    apply Hx. now apply list_elem_of_In.
  - rewrite (Hz x) by (try (now left); intros ->; apply Hx; now apply list_elem_of_In).
    rewrite IH; [ring | assumption | assumption |].
    intros j Hj. apply Hz. now right.
Qed.

Lemma mix_single_category
  (palette : list RGB) (cnts : list Z) (total : Z) (k : nat) :
  0 < total -> (k < length palette)%nat -> (k < length cnts)%nat ->
  (forall j, nth j cnts 0 = if Nat.eqb j k then total else 0) ->
  mixSRGB palette cnts total = nth k palette (0, 0, 0).
Proof.
  intros Ht Hkp Hkc Hcnts. rewrite mixSRGB_sum by lia. cbn zeta.
  assert (Hsum : forall ch,
    Math_round (sumQ (mix_term palette cnts total ch)
                     (seq 0 (Nat.min (length cnts) (length palette))))
    = ch (nth k palette (0, 0, 0))).
  { intros ch. rewrite <- Math_round_inject. unfold Math_round.
    apply Qfloor_comp. apply Qplus_comp; [|reflexivity].
    rewrite (sumQ_single _ _ k).
    - unfold mix_term. rewrite Hcnts, Nat.eqb_refl. field.
      change 0%Q with (inject_Z 0). rewrite inject_Z_injective. lia.
    - apply NoDup_ListNoDup, List.seq_NoDup.
    - apply in_seq. lia.
    - intros j _ Hj. unfold mix_term. rewrite Hcnts.
      apply Nat.eqb_neq in Hj. rewrite Hj. unfold Qdiv.
      change (inject_Z 0) with 0%Q. ring. }
  rewrite !Hsum. unfold red, green, blue.
  now destruct (nth k palette (0, 0, 0)) as [[pr pg] pb].
Qed.

(** A cell whose points all have one category [k] of the palette is mixed to
    exactly [palette[k]]. *)
Theorem mixSRGB_single_category
  (palette : list RGB) (cnts : list Z) (total : Z) (k : nat) :
  0 < total -> (k < length palette)%nat -> (k < length cnts)%nat ->
  (forall j, nth j cnts 0 = if Nat.eqb j k then total else 0) ->
  mixSRGB palette cnts total = nth k palette (0, 0, 0).
Proof. exact (mix_single_category palette cnts total k). Qed.

(** The mix depends on the proportions only: multiplying every counter and
    the total by the same non-zero number gives the same colour. *)
Theorem mixSRGB_scale (palette : list RGB) (cnts : list Z) (total c : Z) :
  c <> 0 -> total <> 0 ->
  mixSRGB palette (map (Z.mul c) cnts) (c * total) = mixSRGB palette cnts total.
Proof.
  intros Hc Ht. rewrite !mixSRGB_sum by lia. cbn zeta. rewrite length_map.
  assert (Hterm : forall ch j,
    (mix_term palette (map (Z.mul c) cnts) (c * total) ch j
     == mix_term palette cnts total ch j)%Q).
  { intros ch j. unfold mix_term.
    replace (nth j (map (Z.mul c) cnts) 0) with (c * nth j cnts 0).
    2:{ rewrite <- (map_nth (Z.mul c)). f_equal. lia. }
    rewrite !inject_Z_mult. field.
    split; change 0%Q with (inject_Z 0); rewrite inject_Z_injective; assumption. }
  unfold Math_round.
  f_equal; [f_equal|]; apply Qfloor_comp; apply Qplus_comp; try reflexivity;
    apply sumQ_ext; intros j _; apply Hterm.
Qed.

(** The densest cell, when all its points have one category [k], is
    published in exactly the palette colour [palette[k]] (for a square root
    with [sqrt 1 = 1] and palette channels up to 255). *)
Theorem pure_densest_cell_gets_palette_colour
  (W H : Z) (palette : list RGB) (Math_sqrt : Q -> Q) (tbl : list Point)
  (i k : nat) :
  (forall x, (x == 1)%Q -> (Math_sqrt x == 1)%Q) ->
  let st := aggregates W H tbl in
  let tot := Uint32Array.get (totals st) (Z.of_nat i) in
  (i < Z.to_nat (W * H))%nat ->
  0 < tot -> maxTot st = tot ->
  (k < length palette)%nat -> (k < 4)%nat ->
  (forall j, nth j (cell_counts_of st (Z.of_nat i)) 0
             = if Nat.eqb j k then tot else 0) ->
  (let p := nth k palette (0, 0, 0) in
   red p <= 255 /\ green p <= 255 /\ blue p <= 255) ->
  refresh W H palette Math_sqrt tbl !! i
  = Some (let p := nth k palette (0, 0, 0) in rgb (red p) (green p) (blue p)).
Proof.
  intros Hsq st tot Hi Htot Hmax Hkp Hk4 Hcnts Hp.
  unfold refresh, refresh_traced. fold st. rewrite render_lookup by assumption.
  f_equal. unfold render_cell. fold tot.
  destruct (Z.eqb_spec tot 0) as [|_]; [lia|].
  rewrite (mix_single_category palette _ tot k Htot Hkp) by (cbn; lia || assumption).
  cbn zeta in Hp |- *.
  destruct (nth k palette (0, 0, 0)) as [[pr pg] pb].
  unfold red, green, blue in *. cbn [fst snd] in *.
  assert (Hshade : (shade_of Math_sqrt tot (maxTot st) == 1)%Q).
  { unfold shade_of. rewrite Hmax, or_else_nonzero by lia.
    rewrite (Hsq (inject_Z tot / inject_Z tot)%Q).
    - reflexivity.
    - field. change 0%Q with (inject_Z 0). rewrite inject_Z_injective. lia. }
  assert (Hch : forall p, p <= 255 ->
    Z.min 255 (Math_round (inject_Z p * shade_of Math_sqrt tot (maxTot st))) = p).
  { intros p Hp255.
    replace (Math_round (inject_Z p * shade_of Math_sqrt tot (maxTot st))) with p; [lia|].
    rewrite <- (Math_round_inject p) at 1. unfold Math_round.
    apply Qfloor_comp. rewrite Hshade. ring. }
  destruct Hp as (Hr & Hg & Hb). cbn [fst].
  now rewrite (Hch pr Hr), (Hch pg Hg), (Hch pb Hb).
Qed.

(** ** The item store *)

Lemma filter_all {A} (f : A -> bool) l :
  (forall x, In x l -> f x = true) -> List.filter f l = l.
Proof.
  induction l as [|x l IH]; intros Hf; cbn; [reflexivity|].
  rewrite (Hf x) by now left. f_equal. apply IH. intros y Hy. apply Hf. now right.
Qed.

Lemma state_eta (s : ItemStore.ItemState) :
  ItemStore.mkState (ItemStore.items s) (ItemStore.loading s) (ItemStore.error s) = s.
Proof. now destruct s. Qed.

(** Adding an item whose id is not in the store and removing that id again
    gives the store back. *)
Theorem removeItem_addItem_fresh (item : ItemStore.Item) (s : ItemStore.ItemState) :
  (forall it, In it (ItemStore.items s) -> ItemStore.id it <> ItemStore.id item) ->
  ItemStore.removeItem (ItemStore.id item) (ItemStore.addItem item s) = s.
Proof.
  intros Hfresh. unfold ItemStore.removeItem, ItemStore.addItem.
  cbn [ItemStore.items ItemStore.loading ItemStore.error].
  rewrite List.filter_app. cbn [List.filter]. rewrite Z.eqb_refl. cbn [negb].
  rewrite app_nil_r, filter_all; [apply state_eta|].
  intros it Hit. apply negb_true_iff, Z.eqb_neq. now apply Hfresh.
Qed.

(** [removeItem] removes every item that carries the id, duplicates included,
    and no other; doing it twice changes nothing more, and two removals can
    be done in either order. *)
Theorem removeItem_removes_exactly (i j : Z) (s : ItemStore.ItemState) :
  (forall it, In it (ItemStore.items (ItemStore.removeItem i s))
              <-> In it (ItemStore.items s) /\ ItemStore.id it <> i) /\
  ItemStore.removeItem i (ItemStore.removeItem i s) = ItemStore.removeItem i s /\
  ItemStore.removeItem i (ItemStore.removeItem j s)
  = ItemStore.removeItem j (ItemStore.removeItem i s).
Proof.
  unfold ItemStore.removeItem. cbn [ItemStore.items ItemStore.loading ItemStore.error].
  split; [|split].
  - intros it. rewrite filter_In, negb_true_iff, Z.eqb_neq. reflexivity.
  - f_equal. apply filter_all. intros it Hit. now apply filter_In in Hit.
  - f_equal. induction (ItemStore.items s) as [|x l IH]; [reflexivity|].
    cbn [List.filter].
    destruct (ItemStore.id x =? j) eqn:Ej, (ItemStore.id x =? i) eqn:Ei;
      cbn [negb List.filter]; rewrite ?Ej, ?Ei; cbn [negb]; now rewrite IH.
Qed.

Lemma spread_empty item : ItemStore.spread item ItemStore.empty_patch = item.
Proof. now destruct item. Qed.

Lemma spread_then item p1 p2 :
  ItemStore.spread (ItemStore.spread item p1) p2
  = ItemStore.spread item (ItemStore.patch_then p1 p2).
Proof.
  destruct p1 as [[?|] [?|] [?|] [?|] [?|]], p2 as [[?|] [?|] [?|] [?|] [?|]];
    reflexivity.
Qed.

(** [updateItem] keeps the number and the positions of the items, leaves the
    items with another id as they are, and does nothing with an empty patch. *)
Theorem updateItem_frame (i : Z) (u : ItemStore.ItemPatch) (s : ItemStore.ItemState) :
  length (ItemStore.items (ItemStore.updateItem i u s)) = length (ItemStore.items s) /\
  (forall k it, ItemStore.items s !! k = Some it -> ItemStore.id it <> i ->
     ItemStore.items (ItemStore.updateItem i u s) !! k = Some it) /\
  ItemStore.updateItem i ItemStore.empty_patch s = s.
Proof.
  unfold ItemStore.updateItem. cbn [ItemStore.items]. split; [|split].
  - apply length_map.
  - intros k it Hk Hne. change (map ?f ?l) with (f <$> l).
    rewrite list_lookup_fmap, Hk. cbn.
    apply Z.eqb_neq in Hne. now rewrite Hne.
  - rewrite <- (state_eta s) at 4. f_equal.
    rewrite <- (map_id (ItemStore.items s)) at 2. apply map_ext.
    intros it. destruct (ItemStore.id it =? i); [apply spread_empty | reflexivity].
Qed.

(** Two updates of the same id: when the first patch leaves the id alone they
    amount to one update with the merged patch; when the first patch moves
    the items to another id, the second update no longer reaches them. *)
Theorem updateItem_twice (i : Z) (u1 u2 : ItemStore.ItemPatch) (s : ItemStore.ItemState) :
  (ItemStore.patch_id u1 = None \/ ItemStore.patch_id u1 = Some i ->
   ItemStore.updateItem i u2 (ItemStore.updateItem i u1 s)
   = ItemStore.updateItem i (ItemStore.patch_then u1 u2) s) /\
  (forall j, ItemStore.patch_id u1 = Some j -> j <> i ->
   ItemStore.updateItem i u2 (ItemStore.updateItem i u1 s)
   = ItemStore.updateItem i u1 s).
Proof.
  unfold ItemStore.updateItem. cbn [ItemStore.items ItemStore.loading ItemStore.error].
  split.
  - intros Hid. f_equal. rewrite map_map. apply map_ext. intros it.
    destruct (ItemStore.id it =? i) eqn:E.
    + assert (Hsame : (ItemStore.id (ItemStore.spread it u1) =? i) = true).
      { apply Z.eqb_eq in E. apply Z.eqb_eq.
        destruct Hid as [H|H]; unfold ItemStore.spread; cbn [ItemStore.id];
          rewrite H; cbn; [assumption | reflexivity]. }
      rewrite Hsame. apply spread_then.
    + now rewrite E.
  - intros j Hj Hne. f_equal. rewrite map_map. apply map_ext. intros it.
    destruct (ItemStore.id it =? i) eqn:E.
    + assert (Hmoved : (ItemStore.id (ItemStore.spread it u1) =? i) = false).
      { apply Z.eqb_neq. unfold ItemStore.spread. cbn [ItemStore.id].
        rewrite Hj. cbn. assumption. }
      now rewrite Hmoved.
    + now rewrite E.
Qed.

(** ** The API client *)

(** Every method of the client sends exactly the header
    [Content-Type: application/json], to a URL under the base URL. *)
Theorem client_calls_send_json_header {A} (stringify : A -> string) (i : Z) (item : A) :
  Forall (fun c => Api.headers (Api.request_init (snd c)) = Some Api.default_headers)
         [ Api.getItems_call; Api.getItem_call i; Api.createItem_call stringify item;
           Api.updateItem_call stringify i item; Api.deleteItem_call i ].
Proof.
  repeat constructor; cbn; now rewrite (left_id_L ∅ (∪)).
Qed.

(** The three methods that address one item use the same URL for the same id
    and different URLs for different ids. *)
Theorem item_url_determines_id (i j : Z) :
  Api.API_BASE_URL +:+ fst (Api.getItem_call i)
  = Api.API_BASE_URL +:+ fst (Api.deleteItem_call j) <-> i = j.
Proof.
  unfold Api.getItem_call, Api.deleteItem_call. cbn [fst]. split.
  - intros Hurl. apply String.app_inj in Hurl. apply String.app_inj in Hurl.
    now apply pretty_Z_inj in Hurl.
  - now intros ->.
Qed.

(** ** The item list *)

Lemma settled_error_kept s ev :
  ItemStore.error s <> None -> ItemStore.error (ItemList.step s ev) <> None.
Proof.
  intros Hs. destruct ev as [|[its|e]|i [u|e]]; cbn; try assumption; discriminate.
Qed.

(** Nothing the component does clears the error: once the store holds an
    error it holds one after any further fetches and deletions, successful or
    not, and as long as the message is not empty the list is never shown
    again. *)
Theorem error_never_cleared (evs : list ItemList.Event) (s : ItemStore.ItemState) :
  ItemStore.error s <> None ->
  exists m, ItemStore.error (ItemList.run evs s) = Some m /\
            (m <> "" -> forall its, ItemList.view (ItemList.run evs s) <> ItemList.ListView its).
Proof.
  intros Hs.
  assert (Hrun : ItemStore.error (ItemList.run evs s) <> None).
  { revert s Hs. unfold ItemList.run.
    induction evs as [|ev evs IH]; intros s Hs; cbn [fold_left]; [assumption|].
    apply IH. now apply settled_error_kept. }
  destruct (ItemStore.error (ItemList.run evs s)) as [m|] eqn:E; [|contradiction].
  exists m. split; [reflexivity|].
  intros Hm its. unfold ItemList.view. rewrite E.
  destruct (ItemStore.loading _); [discriminate|].
  apply String.eqb_neq in Hm. rewrite Hm. discriminate.
Qed.

(** When the server answers the request of [fetchItems] with a status that is
    not [ok], the component ends up showing that status as the error and the
    items are as they were. *)
Theorem http_failure_is_shown
  (fetch : string -> Api.RequestInit -> Outcome (Api.Response (list ItemStore.Item)))
  (response : Api.Response (list ItemStore.Item)) (s : ItemStore.ItemState) :
  fetch (Api.API_BASE_URL +:+ "/items") (Api.request_init None) = Resolved response ->
  Api.ok response = false ->
  let s' := ItemList.fetchItems_end (Api.call fetch Api.getItems_call)
                                    (ItemList.fetchItems_begin s) in
  ItemList.view s' = ItemList.ErrorView ("HTTP error! status: " +:+ pretty (Api.status response)) /\
  ItemStore.items s' = ItemStore.items s.
Proof.
  intros Hfetch Hok s'. subst s'.
  unfold Api.call, Api.request, Api.getItems_call. cbn [fst snd].
  rewrite Hfetch, Hok. cbn. split; reflexivity.
Qed.

(** A fetch that succeeds replaces the items and ends the loading state, but
    the list is shown only if no error was left from before: the error of an
    earlier failure survives a successful fetch. *)
Theorem successful_fetch_view (its : list ItemStore.Item) (s : ItemStore.ItemState) :
  let s' := ItemList.fetchItems_end (Resolved its) (ItemList.fetchItems_begin s) in
  ItemStore.items s' = its /\ ItemStore.loading s' = false /\
  ItemStore.error s' = ItemStore.error s /\
  (ItemList.view s' = ItemList.ListView its
   <-> ItemStore.error s = None \/ ItemStore.error s = Some "").
Proof.
  cbn. repeat split; try reflexivity.
  - unfold ItemList.view. cbn. destruct (ItemStore.error s) as [m|]; [|now left].
    destruct (String.eqb_spec m "") as [->|Hne]; [now right | discriminate].
  - unfold ItemList.view. cbn. intros [-> | ->]; reflexivity.
Qed.

(** ** The DuckDB store *)

Section StoreFacts.

Variables Conn Res : Type.

Local Abbreviation World := (DuckDBStore.World Conn Res).
Local Abbreviation Event := (DuckDBStore.Event Conn Res).

Lemma store_ok_step (w : World) (ev : Event) :
  DuckDBStore.store_ok w -> DuckDBStore.store_ok (DuckDBStore.step w ev).
Proof.
  destruct w as [[st er cn lr] ni nl]. unfold DuckDBStore.store_ok. cbn.
  intros (Hr & Hi & Hs & He).
  destruct ev as [| c | e | | | r | e]; cbn.
  - destruct st, cn; cbn; repeat split; intros; try discriminate; auto;
      try (now apply Hs); try (now apply Hr); try (now apply He); lia.
  - destruct ni; cbn; repeat split; intros; try discriminate; auto;
      try (now apply Hs); try (now apply He).
  - destruct ni; cbn; repeat split; intros; try discriminate; auto;
      try (now apply Hs); try (now apply He).
  - repeat split; intros; try discriminate; auto.
  - destruct cn; cbn; repeat split; intros; try discriminate; auto;
      try (now apply Hs); try (now apply He).
  - destruct nl; cbn; repeat split; intros; try discriminate; auto;
      try (now apply Hs); try (now apply He).
  - destruct nl; cbn; repeat split; intros; try discriminate; auto;
      try (now apply Hs); try (now apply He).
Qed.

(** However calls of [start], [stop] and [loadData] and the settling of their
    promises interleave: a store in status ["ready"] has a connection, one in
    status ["idle"] or ["starting"] has none, a store in status ["starting"]
    has a call of [initDuckDB] in flight, and one in status ["error"] has an
    error message. *)
Theorem store_invariant (evs : list Event) :
  DuckDBStore.store_ok (DuckDBStore.run evs (DuckDBStore.start_world Conn Res)).
Proof.
  unfold DuckDBStore.run.
  assert (H0 : DuckDBStore.store_ok (DuckDBStore.start_world Conn Res))
    by (unfold DuckDBStore.store_ok; cbn; repeat split; intros; try discriminate; auto).
  revert H0. generalize (DuckDBStore.start_world Conn Res).
  induction evs as [|ev evs IH]; intros w Hw; cbn [fold_left]; [assumption|].
  apply IH. now apply store_ok_step.
Qed.

(** Calling [start] again right away does nothing: a second call finds the
    status ["starting"] or a connection. *)
Theorem start_twice_is_once (w : World) :
  DuckDBStore.step (DuckDBStore.step w DuckDBStore.StartCalled) DuckDBStore.StartCalled
  = DuckDBStore.step w DuckDBStore.StartCalled.
Proof.
  destruct w as [[st er cn lr] ni nl]. cbn.
  destruct st, cn; reflexivity.
Qed.

End StoreFacts.

(** ** The sample table *)

Lemma row_None randn fround K i :
  FakeData.row randn fround K i = None <-> K = 0%nat \/ (4 <= i mod K)%nat.
Proof.
  unfold FakeData.row. destruct K as [|K]; [split; [now left | reflexivity]|].
  destruct (nth_error FakeData.centers (i mod S K)) as [[cx cy]|] eqn:E.
  - split; [discriminate|]. intros [HK | Hc]; [discriminate|].
    assert (Hn : nth_error FakeData.centers (i mod S K) = None)
      by (apply nth_error_None; exact Hc).
    congruence.
  - apply nth_error_None in E. split; [now right | reflexivity].
Qed.

(** [makeFakeArrowTable(N, K)] throws exactly when [K] is 0 and there is a
    row to make, or when [K] exceeds the four centres and there are more than
    four rows. *)
Theorem makeFakeArrowTable_throws_iff (randn : nat -> Q) (fround : Q -> Q) (N K : nat) :
  FakeData.makeFakeArrowTable randn fround N K = None
  <-> (0 < N /\ K = 0)%nat \/ (4 < K /\ 4 < N)%nat.
Proof.
  unfold FakeData.makeFakeArrowTable. rewrite mapM_None, Exists_exists.
  split.
  - intros (i & Hi & Hrow). apply list_elem_of_In, in_seq in Hi.
    apply row_None in Hrow as [-> | Hc]; [left; lia|].
    destruct K as [|K]; [left; lia|]. right.
    pose proof (Nat.mod_upper_bound i (S K) ltac:(lia)).
    pose proof (Nat.Div0.mod_le i (S K)). lia.
  - intros [[HN ->] | [HK HN]].
    + exists 0%nat. split; [apply list_elem_of_In, in_seq; lia | reflexivity].
    + exists 4%nat. split; [apply list_elem_of_In, in_seq; lia|].
      apply row_None. right. rewrite Nat.mod_small; lia.
Qed.

Lemma row_Some randn fround K i p :
  FakeData.row randn fround K i = Some p ->
  cat_id p = Z.of_nat (i mod K) /\ 0 <= cat_id p < 4 /\ K <> 0%nat.
Proof.
  unfold FakeData.row. destruct K as [|K]; [discriminate|].
  remember (i mod S K)%nat as c eqn:Ec. clear Ec.
  destruct (nth_error FakeData.centers c) as [[cx cy]|] eqn:E; [|discriminate].
  intros Hp. injection Hp as <-. cbn [cat_id].
  assert (Hc : (c < 4)%nat).
  { change 4%nat with (length FakeData.centers).
    apply (proj1 (nth_error_Some _ _)). rewrite E. discriminate. }
  rewrite Z.mod_small by lia. repeat split; lia.
Qed.

Lemma generated_rows
  (randn : nat -> Q) (fround : Q -> Q) (N K : nat) (tbl : list Point) :
  FakeData.makeFakeArrowTable randn fround N K = Some tbl ->
  length tbl = N /\
  (forall i p, tbl !! i = Some p ->
     cat_id p = Z.of_nat (i mod K) /\ 0 <= cat_id p < 4).
Proof.
  unfold FakeData.makeFakeArrowTable. intros Hm.
  pose proof (length_mapM _ _ _ Hm) as Hlen. rewrite length_seq in Hlen.
  split; [congruence|].
  intros i p Hp. apply mapM_Some_1 in Hm.
  destruct (Forall2_lookup_r _ _ _ _ _ Hm Hp) as (x & Hx & Hrow).
  apply lookup_seq in Hx as [-> _]. cbn [Nat.add] in Hrow.
  apply row_Some in Hrow. tauto.
Qed.

(** When [makeFakeArrowTable(N, K)] returns, the table has [N] rows and row
    [i] has the category [i mod K], which is below 4. *)
Theorem makeFakeArrowTable_rows
  (randn : nat -> Q) (fround : Q -> Q) (N K : nat) (tbl : list Point) :
  FakeData.makeFakeArrowTable randn fround N K = Some tbl ->
  length tbl = N /\
  (forall i p, tbl !! i = Some p ->
     cat_id p = Z.of_nat (i mod K) /\ 0 <= cat_id p < 4).
Proof. exact (generated_rows randn fround N K tbl). Qed.

(** The table the generator returns never exercises a category outside the
    palette: in the aggregates of a refresh on it (fewer than 2^32 rows) the
    four counters of every cell add up to the cell's total. *)
Theorem generated_table_counters_sum
  (randn : nat -> Q) (fround : Q -> Q) (N K : nat) (tbl : list Point)
  (W H t : Z) :
  FakeData.makeFakeArrowTable randn fround N K = Some tbl ->
  Z.of_nat N < Uint32Array.modulus ->
  0 <= t < W * H ->
  sumZ (cell_counts_of (aggregates W H tbl) t)
  = Uint32Array.get (totals (aggregates W H tbl)) t.
Proof.
  intros Hm HN Ht.
  destruct (generated_rows randn fround N K tbl Hm) as [Hlen Hrows].
  apply counters_sum; [|congruence|assumption].
  intros p Hp. apply list_elem_of_In, list_elem_of_lookup in Hp as (i & Hi).
  apply (Hrows i p Hi).
Qed.

(** ** CSS strings *)

Lemma pretty_N_char_avoids (x : Ascii.ascii) d :
  x = ","%char \/ x = ")"%char -> pretty_N_char d <> x.
Proof.
  intros [-> | ->]; unfold pretty_N_char; repeat case_match; discriminate.
Qed.

Lemma pretty_N_go_avoids (x : Ascii.ascii) n s :
  x = ","%char \/ x = ")"%char -> avoids x s -> avoids x (pretty_N_go n s).
Proof.
  intros Hx. revert s. induction (N.lt_wf_0 n) as [n _ IH]; intros s Hs.
  destruct (N.eq_dec n 0%N) as [->|Hn].
  - now rewrite pretty_N_go_0.
  - rewrite pretty_N_go_step by lia. apply IH.
    + apply N.div_lt; lia.
    + cbn [avoids]. split; [now apply pretty_N_char_avoids | assumption].
Qed.

Lemma pretty_N_avoids (x : Ascii.ascii) (n : N) :
  x = ","%char \/ x = ")"%char -> avoids x (pretty n).
Proof.
  intros Hx. unfold pretty, pretty_N. case_decide.
  - cbn. split; [|exact I]. destruct Hx as [-> | ->]; discriminate.
  - apply pretty_N_go_avoids; [assumption | exact I].
Qed.

Lemma pretty_Z_avoids (x : Ascii.ascii) (z : Z) :
  x = ","%char \/ x = ")"%char -> avoids x (pretty z).
Proof.
  intros Hx. unfold pretty, pretty_Z. destruct z as [|p|p].
  - cbn. split; [|exact I]. destruct Hx as [-> | ->]; discriminate.
  - apply (pretty_N_avoids x (Npos p) Hx).
  - cbn [String.append avoids]. split.
    + destruct Hx as [-> | ->]; discriminate.
    + apply (pretty_N_avoids x (Npos p) Hx).
Qed.

Lemma split_at_separator (x : Ascii.ascii) s1 s2 t1 t2 :
  avoids x s1 -> avoids x s2 ->
  s1 +:+ String x t1 = s2 +:+ String x t2 -> s1 = s2 /\ t1 = t2.
Proof.
  revert s2. induction s1 as [|c s1 IH]; intros [|c' s2] H1 H2; cbn [String.append avoids] in *.
  - intros [= ->]. now split.
  - intros [= Hc _]. destruct H2 as [H2 _]. congruence.
  - intros [= Hc _]. destruct H1 as [H1 _]. congruence.
  - intros [= -> Hrest]. destruct H1 as [_ H1], H2 as [_ H2].
    destruct (IH _ H1 H2 Hrest) as [-> ->]. now split.
Qed.

Lemma rgbToCss_inj r g b r' g' b' :
  rgbToCss (r, g, b) = rgbToCss (r', g', b') -> r = r' /\ g = g' /\ b = b'.
Proof.
  unfold rgbToCss. intros Hs.
  apply String.app_inj in Hs. cbn [String.append] in Hs.
  apply split_at_separator in Hs as [Hr Hs];
    try (apply pretty_Z_avoids; now left).
  injection Hs as Hs.
  apply split_at_separator in Hs as [Hg Hs];
    try (apply pretty_Z_avoids; now left).
  injection Hs as Hs.
  apply split_at_separator in Hs as [Hb _];
    try (apply pretty_Z_avoids; now right).
  apply pretty_Z_inj in Hr, Hg, Hb. auto.
Qed.

(** The strings of the published array identify what was computed: different
    colours give different strings, and no colour is rendered as
    ["transparent"] or as the initial fill ["rgba(0,0,0,0)"]. *)
Theorem css_string_inj (c c' : Css) : css_string c = css_string c' -> c = c'.
Proof.
  destruct c as [| |r g b], c' as [| |r' g' b']; cbn [css_string];
    try reflexivity; try discriminate.
  intros Hs. apply rgbToCss_inj in Hs as (-> & -> & ->). reflexivity.
Qed.

(** ** The counter slots *)

(** [counts[m]] holds, modulo 2^32, the number of accepted rows whose
    [idx * 4 + cat_id] is [m], whatever cell they were binned into: a row of
    category [c >= 4] in cell [idx] is counted in the slot of cell
    [idx + c / 4], category [c mod 4]. *)
Theorem counter_slot_contents (W H : Z) (e : Extent) (tbl : list Point) (m : Z) :
  0 <= m < W * H * 4 ->
  Uint32Array.get (counts (accumulate W H (with_totals (agg W H e tbl)))) m =
  tally (fun k => slot W k =? m) (accepted_keys W H e tbl) mod Uint32Array.modulus.
Proof. exact (stored_count W H e tbl m). Qed.

(** ** Instances *)

Lemma sqrt_floor32_one x : (x == 1)%Q -> (sqrt_floor32 x == 1)%Q.
Proof.
  intros Hx. unfold sqrt_floor32.
  replace (Qfloor (x * inject_Z (2 ^ 64))) with (2 ^ 64).
  - reflexivity.
  - symmetry. transitivity (Qfloor (inject_Z (2 ^ 64))); [|apply Qfloor_Z].
    apply Qfloor_comp. rewrite Hx. ring.
Qed.

Lemma per_cell_counts_exact_witness :
  Uint32Array.get (totals (aggregates 2 2 scenario)) 0
  = tally (fun k => cell_idx 2 k =? 0) (accepted_keys 2 2 (mkExtent 0 9 0 9) scenario) /\
  ((forall p, In p scenario -> 0 <= cat_id p < 4) ->
   Uint32Array.get (counts (aggregates 2 2 scenario)) (0 * 4 + 0)
   = tally (fun k => (cell_idx 2 k =? 0) && (key_cat k =? 0))
           (accepted_keys 2 2 (mkExtent 0 9 0 9) scenario)).
Proof.
  apply (per_cell_counts_exact 2 2 scenario (mkExtent 0 9 0 9) 0 0);
    [reflexivity | reflexivity | lia | lia].
Defined.

Lemma scenario_categories p : In p scenario -> 0 <= cat_id p < 4.
Proof. intros [<- | [<- | [<- | []]]]; cbn; lia. Qed.

Lemma counters_sum_to_total_witness :
  sumZ (cell_counts_of (aggregates 2 2 scenario) 0)
  = Uint32Array.get (totals (aggregates 2 2 scenario)) 0.
Proof.
  apply (counters_sum_to_total 2 2 scenario 0);
    [apply scenario_categories | reflexivity | lia].
Defined.

Lemma totals_sum_to_accepted_witness :
  sumZ (totals (aggregates 2 2 scenario))
  = Z.of_nat (length (accepted_keys 2 2 (mkExtent 0 9 0 9) scenario)).
Proof.
  apply (totals_sum_to_accepted 2 2 scenario (mkExtent 0 9 0 9)); reflexivity.
Defined.

Lemma densest_cell_attains_maxTot_witness :
  (exists t, 0 <= t < 2 * 2 /\
     Uint32Array.get (totals (aggregates 2 2 scenario)) t = maxTot (aggregates 2 2 scenario)) /\
  (forall t, Uint32Array.get (totals (aggregates 2 2 scenario)) t
             <= maxTot (aggregates 2 2 scenario)).
Proof.
  apply (densest_cell_attains_maxTot 2 2 scenario 0);
    [reflexivity | lia | vm_compute; discriminate].
Defined.

Lemma published_array_is_complete_witness :
  length (refresh 2 2 scenario_palette sqrt_floor32 scenario) = Z.to_nat (2 * 2) /\
  rgb 255 0 0 = fst (render_cell scenario_palette sqrt_floor32 (aggregates 2 2 scenario) 0) /\
  rgb 255 0 0 <> rgba_0000.
Proof.
  destruct (published_array_is_complete 2 2 scenario_palette sqrt_floor32 scenario)
    as [Hlen Hslot].
  split; [exact Hlen|]. apply (Hslot 0%nat). vm_compute. reflexivity.
Defined.

Lemma mixSRGB_single_category_witness :
  mixSRGB PALETTE [0; 7; 0; 0] 7 = nth 1 PALETTE (0, 0, 0).
Proof.
  apply (mixSRGB_single_category PALETTE [0; 7; 0; 0] 7 1);
    [lia | cbn; lia | cbn; lia |].
  intros j. destruct j as [|[|[|[|[|j]]]]]; reflexivity.
Defined.

Lemma mixSRGB_scale_witness :
  mixSRGB PALETTE (map (Z.mul 3) [1; 2; 0; 1]) (3 * 4) = mixSRGB PALETTE [1; 2; 0; 1] 4.
Proof. apply (mixSRGB_scale PALETTE [1; 2; 0; 1] 4 3); discriminate. Defined.

Lemma pure_densest_cell_gets_palette_colour_witness :
  refresh 2 2 scenario_palette sqrt_floor32 scenario !! 0%nat
  = Some (let p := nth 0 scenario_palette (0, 0, 0) in rgb (red p) (green p) (blue p)).
Proof.
  apply (pure_densest_cell_gets_palette_colour 2 2 scenario_palette sqrt_floor32
           scenario 0 0).
  - apply sqrt_floor32_one.
  - vm_compute. lia.
  - reflexivity.
  - reflexivity.
  - cbn. lia.
  - lia.
  - intros j. destruct j as [|[|[|[|[|j]]]]]; reflexivity.
  - vm_compute. repeat split; discriminate.
Defined.

Lemma transparent_iff_no_accepted_point_witness :
  refresh 2 2 scenario_palette sqrt_floor32 scenario !! 1%nat = Some transparent <->
  tally (fun k => cell_idx 2 k =? Z.of_nat 1) (accepted_keys 2 2 (mkExtent 0 9 0 9) scenario) = 0.
Proof.
  apply (transparent_iff_no_accepted_point 2 2 scenario_palette sqrt_floor32 scenario
           (mkExtent 0 9 0 9) 1); [reflexivity | reflexivity | vm_compute; lia].
Defined.

Lemma counter_slot_contents_witness :
  Uint32Array.get
    (counts (accumulate 32 32 (with_totals (agg 32 32 (mkExtent 0 32 0 32)
                                                (overflow_base ++ [overflow_point]))))) 4
  = tally (fun k => slot 32 k =? 4)
          (accepted_keys 32 32 (mkExtent 0 32 0 32) (overflow_base ++ [overflow_point]))
    mod Uint32Array.modulus.
Proof.
  apply (counter_slot_contents 32 32 (mkExtent 0 32 0 32)
           (overflow_base ++ [overflow_point]) 4). lia.
Defined.

Lemma removeItem_addItem_fresh_witness :
  ItemStore.removeItem (ItemStore.id third_item) (ItemStore.addItem third_item two_items)
  = two_items.
Proof.
  apply removeItem_addItem_fresh.
  intros it [<- | [<- | []]]; discriminate.
Defined.

Lemma updateItem_frame_witness :
  length (ItemStore.items
            (ItemStore.updateItem 2 (ItemStore.mkPatch None (Some "red ink") None None None)
                                  two_items))
  = length (ItemStore.items two_items) /\
  ItemStore.items
    (ItemStore.updateItem 2 (ItemStore.mkPatch None (Some "red ink") None None None)
                          two_items) !! 0%nat
  = Some (ItemStore.mkItem 1 "pen" None 2 true).
Proof.
  destruct (updateItem_frame 2 (ItemStore.mkPatch None (Some "red ink") None None None)
              two_items) as (Hlen & Hother & _).
  split; [exact Hlen|]. apply Hother; [reflexivity | discriminate].
Defined.

Lemma updateItem_twice_witness :
  ItemStore.updateItem 2 (ItemStore.mkPatch None None None (Some 6%Q) None)
    (ItemStore.updateItem 2 (ItemStore.mkPatch None (Some "red ink") None None None)
                          two_items)
  = ItemStore.updateItem 2
      (ItemStore.patch_then (ItemStore.mkPatch None (Some "red ink") None None None)
                            (ItemStore.mkPatch None None None (Some 6%Q) None))
      two_items /\
  ItemStore.updateItem 2 (ItemStore.mkPatch None None None (Some 6%Q) None)
    (ItemStore.updateItem 2 (ItemStore.mkPatch (Some 9) None None None None) two_items)
  = ItemStore.updateItem 2 (ItemStore.mkPatch (Some 9) None None None None) two_items.
Proof.
  split.
  - apply (updateItem_twice 2). left. reflexivity.
  - apply (proj2 (updateItem_twice 2 (ItemStore.mkPatch (Some 9) None None None None)
                    (ItemStore.mkPatch None None None (Some 6%Q) None) two_items) 9);
      [reflexivity | discriminate].
Defined.

Lemma error_never_cleared_witness :
  exists m,
    ItemStore.error
      (ItemList.run [ItemList.FetchBegin; ItemList.FetchEnd (Resolved [third_item])]
                    (ItemStore.setError (Some "HTTP error! status: 500") two_items))
    = Some m /\
    (m <> "" -> forall its,
       ItemList.view
         (ItemList.run [ItemList.FetchBegin; ItemList.FetchEnd (Resolved [third_item])]
                       (ItemStore.setError (Some "HTTP error! status: 500") two_items))
       <> ItemList.ListView its).
Proof. apply error_never_cleared. discriminate. Defined.

Lemma http_failure_is_shown_witness :
  let fetch := fun (_ : string) (_ : Api.RequestInit) =>
                 Resolved (Api.mkResponse false 503 (Resolved [third_item])) in
  let s' := ItemList.fetchItems_end (Api.call fetch Api.getItems_call)
                                    (ItemList.fetchItems_begin two_items) in
  ItemList.view s' = ItemList.ErrorView ("HTTP error! status: " +:+ pretty 503) /\
  ItemStore.items s' = ItemStore.items two_items.
Proof.
  intros fetch.
  apply (http_failure_is_shown fetch (Api.mkResponse false 503 (Resolved [third_item]))
           two_items); reflexivity.
Defined.

Lemma makeFakeArrowTable_rows_witness :
  length sample_table = 6%nat /\
  (forall i p, sample_table !! i = Some p ->
     cat_id p = Z.of_nat (i mod 4) /\ 0 <= cat_id p < 4).
Proof.
  apply (makeFakeArrowTable_rows (fun _ => 0%Q) (fun x => x) 6 4 sample_table).
  vm_compute. reflexivity.
Defined.

Lemma generated_table_counters_sum_witness :
  sumZ (cell_counts_of (aggregates 2 2 sample_table) 0)
  = Uint32Array.get (totals (aggregates 2 2 sample_table)) 0.
Proof.
  apply (generated_table_counters_sum (fun _ => 0%Q) (fun x => x) 6 4 sample_table 2 2 0);
    [vm_compute; reflexivity | reflexivity | lia].
Defined.

Lemma css_string_inj_witness : rgb 230 57 70 = rgb 230 57 70.
Proof. apply css_string_inj. reflexivity. Defined.
